(** * OCR post-processing (ocr_postprocess.cpp): model and properties

    A shallow embedding of the text detection / recognition plugin:
    the charset loader, the tensor lookup, the CTC greedy decoder of
    [paddleocr_recognize], the two croppers, the rectangle geometry
    ([merge_horizontal_boxes], [db_unclip_rect_iter],
    [db_unclip_rect_iter_aniso]) and the part of [paddleocr_det] that
    follows the OpenCV contour extraction.

    Conventions.
    - [float] is IEEE-754 binary32 and [double] is binary64, both taken
      from the Standard Library's executable specification [SpecFloat]
      (round to nearest, ties to even).
    - [int] is modelled by [Z]; signed overflow is undefined behaviour in
      C++ and is outside the model.
    - A C++ exception is the [Raise] constructor of [result]; undefined
      accesses are its [Fault] constructor.
    - OpenCV and the vendor ROI/tensor classes are collaborators: the
      image operations are parameters of the detector, the containers are
      plain lists. *)

From Stdlib Require Import ZArith List String Ascii Bool Lia.
From Stdlib Require Import Permutation Sorted.
From Stdlib Require Import Floats.SpecFloat.
Import ListNotations.

Local Open Scope Z_scope.

(* ------------------------------------------------------------------ *)
(** ** Exceptions *)

(** The outcome of a call: a normal return, a C++ exception, or a fault
    (an access the language leaves undefined, such as dereferencing
    [end()] or reading past a buffer). *)
Inductive result (A : Type) : Type :=
| Ok (a : A)
| Raise (msg : string)
| Fault.
Arguments Ok {A} a.
Arguments Raise {A} msg.
Arguments Fault {A}.

Definition bind {A B : Type} (r : result A) (k : A -> result B) : result B :=
  match r with
  | Ok a => k a
  | Raise msg => Raise msg
  | Fault => Fault
  end.

Notation "x <- r ;; k" := (bind r (fun x => k))
  (at level 61, r at next level, right associativity).

(* ------------------------------------------------------------------ *)
(** ** Floating point: binary32 and binary64 *)

Module F32.
Definition prec : Z := 24.
Definition emax : Z := 128.
Definition t : Type := spec_float.

Definition add : t -> t -> t := SFadd prec emax.
Definition sub : t -> t -> t := SFsub prec emax.
Definition mul : t -> t -> t := SFmul prec emax.
Definition div : t -> t -> t := SFdiv prec emax.
Definition ltb : t -> t -> bool := SFltb.
Definition leb : t -> t -> bool := SFleb.
Definition valid : t -> bool := valid_binary prec emax.

  (** [(float) n] for an integer [n]. *)
Definition of_Z (n : Z) : t := binary_normalize prec emax n 0 false.

  (** The literal [n/d] written in decimal in the source: the binary32
      number nearest to the quotient. *)
Definition lit (n d : Z) : t := div (of_Z n) (of_Z d).

Definition zero : t := S754_zero false.
Definition one : t := of_Z 1.

  (** [std::max(a, b)] is [(a < b) ? b : a]; [std::min(a, b)] is
      [(b < a) ? b : a]. *)
Definition max (a b : t) : t := if ltb a b then b else a.
Definition min (a b : t) : t := if ltb b a then b else a.

  (** [a > b], [a >= b] as the source writes them. *)
Definition gtb (a b : t) : bool := ltb b a.
Definition geb (a b : t) : bool := leb b a.
End F32.

Module F64.
Definition prec : Z := 53.
Definition emax : Z := 1024.
Definition t : Type := spec_float.

Definition add : t -> t -> t := SFadd prec emax.
Definition sub : t -> t -> t := SFsub prec emax.
Definition mul : t -> t -> t := SFmul prec emax.
Definition div : t -> t -> t := SFdiv prec emax.
Definition ltb : t -> t -> bool := SFltb.
Definition leb : t -> t -> bool := SFleb.

Definition of_Z (n : Z) : t := binary_normalize prec emax n 0 false.
Definition one : t := of_Z 1.
Definition max (a b : t) : t := if ltb a b then b else a.

  (** Promotion of a [float] to [double]: exact. *)
Definition of_F32 (x : F32.t) : t :=
    match x with
    | S754_finite s m e =>
        binary_normalize prec emax (if s then Z.neg m else Z.pos m) e s
    | _ => x
    end.
End F64.

(** [(int) x]: truncation toward zero.  The conversion of a NaN or of an
    infinity is undefined in C++; the model returns 0 there. *)
Definition trunc_to_Z (x : spec_float) : Z :=
  match x with
  | S754_finite s m e =>
      let a := if 0 <=? e then Z.pos m * 2 ^ e else Z.pos m / 2 ^ (- e) in
      if s then - a else a
  | _ => 0
  end.

(** [(int) std::round(x)]: the nearest integer, halfway cases away from
    zero.  [std::round] returns an integral value of the same format, so
    the conversion that follows is exact. *)
Definition round_to_Z (x : spec_float) : Z :=
  match x with
  | S754_finite s m e =>
      let a := if 0 <=? e then Z.pos m * 2 ^ e
               else (Z.pos m + 2 ^ (- e - 1)) / 2 ^ (- e) in
      if s then - a else a
  | _ => 0
  end.

(* ------------------------------------------------------------------ *)
(** ** Strings *)

Definition string_empty (s : string) : bool :=
  match s with
  | EmptyString => true
  | String _ _ => false
  end.

(** [std::string(1, c)]. *)
Definition string_of_char (c : ascii) : string := String c EmptyString.

(** The strings [std::string(1, c)] for [c = lo; c <= hi; ++c]. *)
Definition chars_between (lo hi : ascii) : list string :=
  map (fun n => string_of_char (ascii_of_nat n))
      (seq (nat_of_ascii lo) (S (nat_of_ascii hi) - nat_of_ascii lo)).

(** The lines [std::getline] extracts from a stream holding [s]: a line
    ends at a newline, which is dropped; characters after the last
    newline form a last line; at the end of the stream with nothing
    extracted the read fails and the loop stops. *)
Fixpoint getlines_from (line : string) (pending : bool) (s : string)
  : list string :=
  match s with
  | EmptyString => if pending then [line] else []
  | String c rest =>
      if Ascii.eqb c "010"%char
      then line :: getlines_from EmptyString false rest
      else getlines_from (line ++ string_of_char c) true rest
  end.

Definition getlines (s : string) : list string :=
  getlines_from EmptyString false s.

(* ------------------------------------------------------------------ *)
(** ** Parameters *)

(** The fields of [OcrParams] that the plugin reads.  The struct is
    declared in the header; its default values are not used here. *)
Record OcrParams : Type := mkOcrParams {
  det_bin_thresh : F32.t;
  det_box_thresh : F32.t;
  det_max_candidates : Z;
  det_output_name : string;
  det_map_h : Z;
  det_map_w : Z;
  letterbox_fix : bool;
  rec_output_name : string;
  charset_path : string;
  charset : list string;
  blank_index : Z;
  logits_are_softmax : bool
}.

Definition set_charset (p : OcrParams) (cs : list string) : OcrParams :=
  {| det_bin_thresh := det_bin_thresh p;
     det_box_thresh := det_box_thresh p;
     det_max_candidates := det_max_candidates p;
     det_output_name := det_output_name p;
     det_map_h := det_map_h p;
     det_map_w := det_map_w p;
     letterbox_fix := letterbox_fix p;
     rec_output_name := rec_output_name p;
     charset_path := charset_path p;
     charset := cs;
     blank_index := blank_index p;
     logits_are_softmax := logits_are_softmax p |}.

(* ------------------------------------------------------------------ *)
(** ** Charset loader *)

Local Open Scope string_scope.

(** The symbols [load_default_charset] appends, in order. *)
Definition default_charset : list string :=
  ["blank"]
  ++ chars_between "0" "9"
  ++ [":"; ";"; "<"; "="; ">"; "?"; "@"]
  ++ chars_between "A" "Z"
  ++ ["["; "\"; "]"; "^"; "_"; "`"]
  ++ chars_between "a" "z"
  ++ ["{"; "|"; "}"; "~"; "!"; string_of_char "034"; "#"; "$"; "%"; "&";
      "'"; "("; ")"; "*"; "+"; ","; "-"; "."; "/"; " "].

Definition load_default_charset (p : OcrParams) : OcrParams :=
  set_charset p (charset p ++ default_charset).

Local Close Scope string_scope.

(** The file system as the loader sees it: [fs path] is the content of
    the file when [std::ifstream] can open it. *)
Definition file_system : Type := string -> option string.

Definition load_charset_from_file (fs : file_system) (p : OcrParams)
  : result OcrParams :=
  if string_empty (charset_path p) then Ok (load_default_charset p)
  else
    match fs (charset_path p) with
    | None =>
        Raise ("Failed to open charset file: " ++ charset_path p)%string
    | Some content =>
        let p1 := set_charset p (charset p ++ getlines content) in
        match charset p1 with
        | [] => Ok (load_default_charset p1)
        | _ :: _ => Ok p1
        end
    end.


(* ------------------------------------------------------------------ *)
(** ** The vendor object model: tensors, boxes, annotations, ROI *)

(** A device output buffer: its name, its shape and its bytes ([data] is
    [None] when [data()] is a null pointer). *)
Record HailoTensor : Type := mkTensor {
  tensor_name : string;
  tensor_shape : list Z;
  tensor_data : option (list Z)
}.

Record HailoBBox : Type := mkBBox {
  xmin : F32.t;
  ymin : F32.t;
  width : F32.t;
  height : F32.t
}.

Inductive hailo_object_t : Type :=
| HAILO_CLASSIFICATION
| HAILO_DETECTION
| HAILO_OTHER (tag : nat).

#[local] Set Warnings "-register-all".

(** An annotation object.  A detection owns the objects attached to it;
    [ObjOther] stands for the kinds the OCR plugin never inspects. *)
Inductive HailoObject : Type :=
| ObjDetection (bbox : HailoBBox) (label : string) (confidence : F32.t)
               (objects : list HailoObject)
| ObjClassification (classification_type : string) (label : string)
                    (confidence : F32.t)
| ObjOther (tag : nat).

Definition get_type (o : HailoObject) : hailo_object_t :=
  match o with
  | ObjDetection _ _ _ _ => HAILO_DETECTION
  | ObjClassification _ _ _ => HAILO_CLASSIFICATION
  | ObjOther tag => HAILO_OTHER tag
  end.

Definition is_detection (o : HailoObject) : bool :=
  match o with
  | ObjDetection _ _ _ _ => true
  | _ => false
  end.

Definition get_label (o : HailoObject) : string :=
  match o with
  | ObjDetection _ l _ _ => l
  | ObjClassification _ l _ => l
  | ObjOther _ => EmptyString
  end.

(** [detection->get_bbox()], [detection->set_bbox(b)] and
    [detection->add_object(o)]; no effect on other kinds. *)
Definition get_bbox (o : HailoObject) : option HailoBBox :=
  match o with
  | ObjDetection b _ _ _ => Some b
  | _ => None
  end.

Definition set_bbox (o : HailoObject) (b : HailoBBox) : HailoObject :=
  match o with
  | ObjDetection _ l c objs => ObjDetection b l c objs
  | _ => o
  end.

Definition detection_add_object (d o : HailoObject) : HailoObject :=
  match d with
  | ObjDetection b l c objs => ObjDetection b l c (objs ++ [o])
  | _ => d
  end.

Definition detection_objects (d : HailoObject) : list HailoObject :=
  match d with
  | ObjDetection _ _ _ objs => objs
  | _ => []
  end.

Record HailoROI : Type := mkROI {
  roi_bbox : HailoBBox;
  roi_scaling_bbox : HailoBBox;
  roi_objects : list HailoObject;
  roi_tensors : list HailoTensor
}.

Definition set_objects (roi : HailoROI) (objs : list HailoObject) : HailoROI :=
  {| roi_bbox := roi_bbox roi;
     roi_scaling_bbox := roi_scaling_bbox roi;
     roi_objects := objs;
     roi_tensors := roi_tensors roi |}.

Definition has_tensors (roi : HailoROI) : bool :=
  match roi_tensors roi with
  | [] => false
  | _ :: _ => true
  end.

Definition add_object (roi : HailoROI) (o : HailoObject) : HailoROI :=
  set_objects roi (roi_objects roi ++ [o]).

Definition type_eqb (a b : hailo_object_t) : bool :=
  match a, b with
  | HAILO_CLASSIFICATION, HAILO_CLASSIFICATION => true
  | HAILO_DETECTION, HAILO_DETECTION => true
  | HAILO_OTHER m, HAILO_OTHER n => Nat.eqb m n
  | _, _ => false
  end.

(** [roi->remove_objects_typed(t)]: drops every object of type [t]. *)
Definition remove_objects_typed (roi : HailoROI) (t : hailo_object_t)
  : HailoROI :=
  set_objects roi
    (filter (fun o => negb (type_eqb (get_type o) t)) (roi_objects roi)).

(** [hailo_common::get_hailo_detections]: the detections among the
    objects of the ROI, in order. *)
Definition get_hailo_detections (roi : HailoROI) : list HailoObject :=
  filter is_detection (roi_objects roi).

(** [hailo_common::add_detections]. *)
Definition add_detections (roi : HailoROI) (dets : list HailoObject)
  : HailoROI :=
  fold_left add_object dets roi.

(** [roi->clear_scaling_bbox()]: back to the identity box. *)
Definition clear_scaling_bbox (roi : HailoROI) : HailoROI :=
  {| roi_bbox := roi_bbox roi;
     roi_scaling_bbox := mkBBox F32.zero F32.zero F32.one F32.one;
     roi_objects := roi_objects roi;
     roi_tensors := roi_tensors roi |}.

(** [hailo_common::create_flattened_bbox]. *)
Definition create_flattened_bbox (b parent : HailoBBox) : HailoBBox :=
  mkBBox (F32.add (xmin parent) (F32.mul (xmin b) (width parent)))
         (F32.add (ymin parent) (F32.mul (ymin b) (height parent)))
         (F32.mul (width b) (width parent))
         (F32.mul (height b) (height parent)).

(* ------------------------------------------------------------------ *)
(** ** Tensor lookup *)

Definition get_tensor_by_name_or_fallback (roi : HailoROI) (desired : string)
  : result HailoTensor :=
  match find (fun t => String.eqb (tensor_name t) desired) (roi_tensors roi) with
  | Some chosen => Ok chosen
  | None =>
      match roi_tensors roi with
      | [] => Raise "ROI has no tensors"
      | front :: _ => Ok front
      end
  end.

(* ------------------------------------------------------------------ *)
(** ** Recognizer: CTC greedy decoding *)

(** [std::max_element]: position and value of the first largest element;
    [None] stands for [end()] on an empty range. *)
Fixpoint max_element_from (best_i : nat) (best : F32.t) (i : nat)
  (v : list F32.t) : nat * F32.t :=
  match v with
  | [] => (best_i, best)
  | x :: rest =>
      if F32.ltb best x then max_element_from i x (S i) rest
      else max_element_from best_i best (S i) rest
  end.

Definition max_element (v : list F32.t) : option (nat * F32.t) :=
  match v with
  | [] => None
  | x :: rest => Some (max_element_from 0%nat x 1%nat rest)
  end.

(** Narrowing of a [double] to [float]. *)
Definition F32_of_F64 (x : F64.t) : F32.t :=
  match x with
  | S754_finite s m e =>
      binary_normalize F32.prec F32.emax (if s then Z.neg m else Z.pos m) e s
  | _ => x
  end.

(** The running state of the decode loop. *)
Record ctc_state : Type := mkCtc {
  out_text : string;
  conf_sum : F32.t;
  conf_count : Z;
  prev : Z
}.

Definition ctc_init : ctc_state := mkCtc EmptyString F32.zero 0 (-1).

(** One element of [base]; reading past the buffer is a fault. *)
Definition read_u8 (base : list Z) (i : nat) : result Z :=
  match nth_error base i with
  | Some b => Ok b
  | None => Fault
  end.

Fixpoint mapM {A B : Type} (f : A -> result B) (l : list A) : result (list B) :=
  match l with
  | [] => Ok []
  | a :: rest => b <- f a;; bs <- mapM f rest;; Ok (b :: bs)
  end.

(** [probs[t0][c]], read from the buffer in the layout found. *)
Definition prob_at (layout_is_NCT : bool) (T C : nat) (base : list Z)
  (t0 c : nat) : result F32.t :=
  b <- read_u8 base (if layout_is_NCT then c * T + t0 else t0 * C + c)%nat;;
  Ok (F32.mul (F32.of_Z b) (F32.lit 1 255)).

Definition build_probs (layout_is_NCT : bool) (T C : nat) (base : list Z)
  : result (list (list F32.t)) :=
  mapM (fun t0 => mapM (prob_at layout_is_NCT T C base t0) (seq 0 C)) (seq 0 T).

Section Recognizer.

  (** [std::exp] on [double], left to the C library. *)
  Variable exp64 : F64.t -> F64.t.

Definition softmax1d (v : list F32.t) : result (list F32.t) :=
    match max_element v with
    | None => Fault
    | Some (_, m) =>
        let e := fun x => exp64 (F64.of_F32 (F32.sub x m)) in
        let sum := fold_left (fun acc x => F64.add acc (e x)) v (F64.of_Z 0) in
        Ok (map (fun x => F32_of_F64 (F64.div (e x) sum)) v)
    end.

  (** The body of the decode loop for one timestep. *)
Definition ctc_step (p : OcrParams) (st : ctc_state) (row : list F32.t)
    : result ctc_state :=
    match max_element row with
    | None => Fault
    | Some (i, pmax) =>
        let idx := Z.of_nat i in
        if negb (idx =? blank_index p) && negb (idx =? prev st) then
          let sym :=
            if (0 <=? idx) && (idx <? Z.of_nat (List.length (charset p)))
            then nth i (charset p) EmptyString
            else "?"%string in
          Ok (mkCtc (out_text st ++ sym) (F32.add (conf_sum st) pmax)
                    (conf_count st + 1) idx)
        else Ok (mkCtc (out_text st) (conf_sum st) (conf_count st) idx)
    end.

Fixpoint ctc_decode (p : OcrParams) (st : ctc_state)
    (probs : list (list F32.t)) : result ctc_state :=
    match probs with
    | [] => Ok st
    | row :: rest => st1 <- ctc_step p st row;; ctc_decode p st1 rest
    end.

Definition ctc_conf (st : ctc_state) : F32.t :=
    if 0 <? conf_count st
    then F32.div (conf_sum st) (F32.of_Z (conf_count st))
    else F32.zero.

  (** [detections[0]->add_object(o)]: the first detection of the list of
      objects receives [o]. *)
Fixpoint add_to_first_detection (objs : list HailoObject) (o : HailoObject)
    : list HailoObject :=
    match objs with
    | [] => []
    | d :: rest =>
        if is_detection d then detection_add_object d o :: rest
        else d :: add_to_first_detection rest o
    end.

  (** The last block of [paddleocr_recognize]: attach the text. *)
Definition attach_text (roi : HailoROI) (text : string) (conf : F32.t)
    : HailoROI :=
    if negb (string_empty text) && negb (String.eqb text " ") then
      match get_hailo_detections roi with
      | [] => roi
      | _ :: _ =>
          set_objects roi
            (add_to_first_detection (roi_objects roi)
               (ObjClassification "license_plate" text conf))
      end
    else roi.

Definition paddleocr_recognize (roi : HailoROI) (p : OcrParams)
    : result HailoROI :=
    if negb (has_tensors roi) then Ok roi
    else
      t <- get_tensor_by_name_or_fallback roi (rec_output_name p);;
      match tensor_shape t with
      | [N; D1; D2] =>
          match tensor_data t with
          | None => Raise "Recognizer tensor not UINT8"
          | Some base =>
              if negb (N =? 1) then Raise "Recognizer expects N=1"
              else
                let C := Z.min D1 D2 in
                let T := Z.max D1 D2 in
                let layout_is_NCT := (D1 =? C) && (D2 =? T) in
                probs <- build_probs layout_is_NCT (Z.to_nat T) (Z.to_nat C)
                           base;;
                probs <- (if logits_are_softmax p then Ok probs
                          else mapM softmax1d probs);;
                st <- ctc_decode p ctc_init probs;;
                Ok (attach_text roi (out_text st) (ctc_conf st))
          end
      | _ => Raise "Unexpected recognizer rank (expected 3)"
      end.

End Recognizer.

(* ------------------------------------------------------------------ *)
(** ** Croppers *)

Definition crop_text_regions_filter (roi : HailoROI) : HailoROI :=
  let detections := get_hailo_detections roi in
  let text_detections :=
    fold_left (fun acc detection => acc ++ [detection]) detections [] in
  let roi1 := remove_objects_typed roi HAILO_DETECTION in
  fold_left add_object text_detections roi1.

Definition MAX_TEXT_REGIONS : Z := 8.
Definition MIN_W_PX : F32.t := F32.of_Z 4.
Definition MIN_H_PX : F32.t := F32.of_Z 2.
Definition TARGET_MIN_H_PX : F32.t := F32.of_Z 12.
Definition PAD_X_PX : F32.t := F32.of_Z 4.
Definition PAD_Y_PX : F32.t := F32.of_Z 2.
Definition half : F32.t := F32.lit 1 2.

Definition clamp01 (v : F32.t) : F32.t :=
  F32.max F32.zero (F32.min F32.one v).

(** The letterbox correction of a box [(nx, ny, nw, nh)]. *)
Definition undo_letterbox (img_w img_h : Z) (nb : HailoBBox) : HailoBBox :=
  let img_aspect := F32.div (F32.of_Z img_w) (F32.of_Z img_h) in
  let scale :=
    if F32.geb img_aspect F32.one then F32.div F32.one img_aspect
    else img_aspect in
  let pad_x :=
    if F32.geb img_aspect F32.one then F32.mul (F32.sub F32.one scale) half
    else F32.zero in
  let pad_y :=
    if F32.geb img_aspect F32.one then F32.zero
    else F32.mul (F32.sub F32.one scale) half in
  let x0 := clamp01 (F32.div (F32.sub (xmin nb) pad_x) scale) in
  let y0 := clamp01 (F32.div (F32.sub (ymin nb) pad_y) scale) in
  let x1 := clamp01 (F32.div (F32.sub (F32.add (xmin nb) (width nb)) pad_x) scale) in
  let y1 := clamp01 (F32.div (F32.sub (F32.add (ymin nb) (height nb)) pad_y) scale) in
  mkBBox x0 y0 (F32.max F32.zero (F32.sub x1 x0))
               (F32.max F32.zero (F32.sub y1 y0)).

(** The body of the loop of [crop_text_regions] for one text region:
    [None] when the region is skipped, the new box otherwise. *)
Definition adjust_box (img_w img_h : Z) (use_letterbox : bool) (nb0 : HailoBBox)
  : option HailoBBox :=
  let nb := if use_letterbox then undo_letterbox img_w img_h nb0 else nb0 in
  let nx := xmin nb in
  let nw := width nb in
  let w_px := F32.mul nw (F32.of_Z img_w) in
  let h_px := F32.mul (height nb) (F32.of_Z img_h) in
  if F32.ltb w_px MIN_W_PX || F32.ltb h_px MIN_H_PX then None
  else
    let grow := F32.ltb h_px TARGET_MIN_H_PX in
    let center_y := F32.add (ymin nb) (F32.mul (height nb) half) in
    let new_h_n := F32.div TARGET_MIN_H_PX (F32.of_Z img_h) in
    let new_y := F32.sub center_y (F32.mul new_h_n half) in
    let ny := if grow then clamp01 new_y else ymin nb in
    let nh := if grow then F32.min (F32.sub F32.one ny) new_h_n
              else height nb in
    let pad_x_n := F32.div PAD_X_PX (F32.of_Z img_w) in
    let pad_y_n := F32.div PAD_Y_PX (F32.of_Z img_h) in
    let x0 := clamp01 (F32.sub nx pad_x_n) in
    let y0 := clamp01 (F32.sub ny pad_y_n) in
    let x1 := clamp01 (F32.add (F32.add nx nw) pad_x_n) in
    let y1 := clamp01 (F32.add (F32.add ny nh) pad_y_n) in
    Some (mkBBox x0 y0 (F32.max F32.zero (F32.sub x1 x0))
                       (F32.max F32.zero (F32.sub y1 y0))).

(** The loop over the detections of the ROI, which are updated in place:
    [count] regions have been processed so far. *)
Fixpoint crop_loop (img_w img_h : Z) (use_letterbox : bool) (count : Z)
  (objs : list HailoObject) : list HailoObject * Z :=
  match objs with
  | [] => ([], count)
  | o :: rest =>
      let skip :=
        let (rest1, n) := crop_loop img_w img_h use_letterbox count rest in
        (o :: rest1, n) in
      match o with
      | ObjDetection nb label _ _ =>
          if MAX_TEXT_REGIONS <=? count then (o :: rest, count)
          else if negb (String.eqb label "text_region") then skip
          else
            match adjust_box img_w img_h use_letterbox nb with
            | None => skip
            | Some b =>
                let (rest1, n) :=
                  crop_loop img_w img_h use_letterbox (count + 1) rest in
                (set_bbox o b :: rest1, n)
            end
      | _ => skip
      end
  end.

(** [crop_text_regions]: [image] is [None] for a null pointer, else the
    width and height of the frame.  Returns the ROI as updated and the
    vector of ROIs handed to the cropper.  The parameters
    [no_scaling_bbox], [internal_offset] and [resize_method] of the
    source are never read. *)
Definition crop_text_regions (image : option (Z * Z)) (roi : HailoROI)
  (use_letterbox : bool) : HailoROI * list HailoROI :=
  match image with
  | None => (roi, [])
  | Some (img_w, img_h) =>
      let (objs, count) :=
        crop_loop img_w img_h use_letterbox 0 (roi_objects roi) in
      let roi1 := set_objects roi objs in
      (roi1, if 0 <? count then [roi1] else [])
  end.

(* ------------------------------------------------------------------ *)
(** ** Rectangles ([cv::Rect]) *)

Record Rect : Type := mkRect {
  rect_x : Z;
  rect_y : Z;
  rect_width : Z;
  rect_height : Z
}.

Definition rect_empty (r : Rect) : bool :=
  (rect_width r <=? 0) || (rect_height r <=? 0).

Definition rect_eqb (a b : Rect) : bool :=
  (rect_x a =? rect_x b) && (rect_y a =? rect_y b)
  && (rect_width a =? rect_width b) && (rect_height a =? rect_height b).

(** [a |= b]: the bounding box of both; an empty operand is ignored. *)
Definition rect_union (a b : Rect) : Rect :=
  if rect_empty a then b
  else if rect_empty b then a
  else
    let x1 := Z.min (rect_x a) (rect_x b) in
    let y1 := Z.min (rect_y a) (rect_y b) in
    mkRect x1 y1
      (Z.max (rect_x a + rect_width a) (rect_x b + rect_width b) - x1)
      (Z.max (rect_y a + rect_height a) (rect_y b + rect_height b) - y1).

(** [a & b]: the intersection, [Rect()] when there is none. *)
Definition rect_inter (a b : Rect) : Rect :=
  let x1 := Z.max (rect_x a) (rect_x b) in
  let y1 := Z.max (rect_y a) (rect_y b) in
  let w := Z.min (rect_x a + rect_width a) (rect_x b + rect_width b) - x1 in
  let h := Z.min (rect_y a + rect_height a) (rect_y b + rect_height b) - y1 in
  if (w <=? 0) || (h <=? 0) then mkRect 0 0 0 0 else mkRect x1 y1 w h.

(* ------------------------------------------------------------------ *)
(** ** Horizontal merge *)

(** [std::sort] with the comparison [a.x < b.x].  The standard leaves
    the order of rectangles with equal [x] open.  [sort_by_x] is one
    sort that meets it: it inserts each rectangle before the first one
    that is not to its left, which keeps equal ones in their order.
    [merge_horizontal_boxes_by] below takes the sort as an argument, for
    the properties that depend on the order of equal [x]. *)
Fixpoint insert_by_x (r : Rect) (sorted : list Rect) : list Rect :=
  match sorted with
  | [] => [r]
  | s :: rest =>
      if rect_x s <? rect_x r then s :: insert_by_x r rest
      else r :: sorted
  end.

Definition sort_by_x (rects : list Rect) : list Rect :=
  fold_right insert_by_x [] rects.

Definition y_overlap_ratio (a b : Rect) : F32.t :=
  let top := Z.max (rect_y a) (rect_y b) in
  let bot := Z.min (rect_y a + rect_height a) (rect_y b + rect_height b) in
  let inter := Z.max 0 (bot - top) in
  let min_h := Z.max 1 (Z.min (rect_height a) (rect_height b)) in
  F32.div (F32.of_Z inter) (F32.of_Z min_h).

(** The test of the merge loop on the running rectangle and the next. *)
Definition mergeable (max_gap_px : Z) (min_y_overlap_ratio : F32.t)
  (run next : Rect) : bool :=
  let gap := rect_x next - (rect_x run + rect_width run) in
  let yov := y_overlap_ratio run next in
  (gap <=? max_gap_px) && F32.geb yov min_y_overlap_ratio.

(** The loop over [rects[1..]] with the running rectangle [run]; the
    result is [merged] after the last [push_back]. *)
Fixpoint merge_run (max_gap_px : Z) (min_y_overlap_ratio : F32.t)
  (run : Rect) (rects : list Rect) : list Rect :=
  match rects with
  | [] => [run]
  | next :: rest =>
      if mergeable max_gap_px min_y_overlap_ratio run next
      then merge_run max_gap_px min_y_overlap_ratio (rect_union run next) rest
      else run :: merge_run max_gap_px min_y_overlap_ratio next rest
  end.

Definition merge_horizontal_boxes (rects : list Rect) (max_gap_px : Z)
  (min_y_overlap_ratio : F32.t) : list Rect :=
  match rects with
  | [] => rects
  | [_] => rects
  | _ :: _ :: _ =>
      match sort_by_x rects with
      | [] => []
      | run :: rest => merge_run max_gap_px min_y_overlap_ratio run rest
      end
  end.

(** [merge_horizontal_boxes] with [sort] for the call of [std::sort]. *)
Definition merge_horizontal_boxes_by (sort : list Rect -> list Rect)
  (rects : list Rect) (max_gap_px : Z) (min_y_overlap_ratio : F32.t)
  : list Rect :=
  match rects with
  | [] => rects
  | [_] => rects
  | _ :: _ :: _ =>
      match sort rects with
      | [] => []
      | run :: rest => merge_run max_gap_px min_y_overlap_ratio run rest
      end
  end.

(* ------------------------------------------------------------------ *)
(** ** Iterative unclip *)

(** The lambda [clamp_rect] (also [clamp] and [clamp_rect_xywh]). *)
Definition clamp_rect (W H : Z) (q : Rect) : Rect :=
  let x := Z.max 0 (Z.min (rect_x q) (W - 1)) in
  let y := Z.max 0 (Z.min (rect_y q) (H - 1)) in
  mkRect x y
    (Z.max 1 (Z.min (rect_width q) (W - x)))
    (Z.max 1 (Z.min (rect_height q) (H - y))).

(** [A / std::max(1.0, P)], area over perimeter, in [double]. *)
Definition unclip_base (r : Rect) : F64.t :=
  let A := F64.mul (F64.of_Z (rect_width r)) (F64.of_Z (rect_height r)) in
  let P := F64.mul (F64.of_Z (rect_width r + rect_height r)) (F64.of_Z 2) in
  F64.div A (F64.max F64.one P).

(** [int(std::round(base * ratio))] with [ratio] a [float]. *)
Definition unclip_delta (r : Rect) (ratio : F32.t) : Z :=
  round_to_Z (F64.mul (unclip_base r) (F64.of_F32 ratio)).

Definition grow_rect (r : Rect) (dx dy : Z) : Rect :=
  mkRect (rect_x r - dx) (rect_y r - dy)
         (rect_width r + 2 * dx) (rect_height r + 2 * dy).

(** [int(std::round(n * frac))] with [n] an [int] and [frac] a [float]. *)
Definition round_scaled (n : Z) (frac : F32.t) : Z :=
  round_to_Z (F32.mul (F32.of_Z n) frac).

Fixpoint unclip_iter_loop (ratio_step : F32.t) (W H MAX_GROW : Z) (iters : nat)
  (r : Rect) (total_grow_x total_grow_y : Z) : Rect :=
  match iters with
  | O => r
  | S iters' =>
      let d := Z.max 1 (unclip_delta r ratio_step) in
      if (MAX_GROW <? total_grow_x + d) || (MAX_GROW <? total_grow_y + d)
      then r
      else
        let nr := clamp_rect W H (grow_rect r d d) in
        if rect_eqb nr r then r
        else unclip_iter_loop ratio_step W H MAX_GROW iters' nr
               (total_grow_x + d) (total_grow_y + d)
  end.

Definition db_unclip_rect_iter (r : Rect) (ratio_step : F32.t) (iters : Z)
  (W H : Z) (max_grow_frac : F32.t) : Rect :=
  if (rect_width r <=? 0) || (rect_height r <=? 0) then r
  else
    let MAX_GROW := Z.max 1 (round_scaled (Z.max W H) max_grow_frac) in
    unclip_iter_loop ratio_step W H MAX_GROW (Z.to_nat iters) r 0 0.

Fixpoint unclip_aniso_loop (ratio_x ratio_y : F32.t) (W H max_gx max_gy : Z)
  (iters : nat) (r : Rect) (accx accy : Z) : Rect :=
  match iters with
  | O => r
  | S iters' =>
      let dx0 := Z.max 1 (unclip_delta r ratio_x) in
      let dy0 := Z.max 1 (unclip_delta r ratio_y) in
      let dx := Z.min dx0 (Z.max 0 (max_gx - accx)) in
      let dy := Z.min dy0 (Z.max 0 (max_gy - accy)) in
      if (dx =? 0) && (dy =? 0) then r
      else
        unclip_aniso_loop ratio_x ratio_y W H max_gx max_gy iters'
          (clamp_rect W H (grow_rect r dx dy)) (accx + dx) (accy + dy)
  end.

Definition db_unclip_rect_iter_aniso (r : Rect) (ratio_x ratio_y : F32.t)
  (iters : Z) (W H : Z) (max_grow_frac_x max_grow_frac_y : F32.t) : Rect :=
  if (rect_width r <=? 0) || (rect_height r <=? 0) then r
  else
    let max_gx := Z.max 1 (round_scaled W max_grow_frac_x) in
    let max_gy := Z.max 1 (round_scaled H max_grow_frac_y) in
    unclip_aniso_loop ratio_x ratio_y W H max_gx max_gy (Z.to_nat iters) r 0 0.

(** The default arguments of the two functions. *)
Definition default_max_grow_frac : F32.t := F32.lit 20 100.
Definition default_max_grow_frac_x : F32.t := F32.lit 15 100.
Definition default_max_grow_frac_y : F32.t := F32.lit 8 100.

(* ------------------------------------------------------------------ *)
(** ** Detector *)

Definition odd_at_least (v : Z) : Z := if Z.even v then v + 1 else v.

Fixpoint insert_Z (n : Z) (sorted : list Z) : list Z :=
  match sorted with
  | [] => [n]
  | s :: rest => if s <? n then s :: insert_Z n rest else n :: sorted
  end.

Definition sort_Z (l : list Z) : list Z := fold_right insert_Z [] l.

(** [int(n)] for a [size_t] [n]: the low 32 bits, read as a signed
    number. *)
Definition int_of_size_t (n : Z) : Z := (n + 2 ^ 31) mod 2 ^ 32 - 2 ^ 31.

(** Step 1: the height and width of the map from the shape of the
    tensor.  The tests read the dimensions as they are; the values kept
    are narrowed to [int]. *)
Definition resolve_hw (sh : list Z) (p : OcrParams) : Z * Z :=
  let '(H, W) :=
    match sh with
    | [_; s1; s2; s3] =>
        if s1 =? 1 then (int_of_size_t s2, int_of_size_t s3)
        else if s3 =? 1 then (int_of_size_t s1, int_of_size_t s2)
        else (int_of_size_t s2, int_of_size_t s3)
    | [s0; s1; s2] =>
        if s2 =? 1 then (int_of_size_t s0, int_of_size_t s1)
        else if s0 =? 1 then (int_of_size_t s1, int_of_size_t s2)
        else
          let v := sort_Z [int_of_size_t s0; int_of_size_t s1;
                           int_of_size_t s2] in
          (nth 1 v 0, nth 2 v 0)
    | [s0; s1] => (int_of_size_t s0, int_of_size_t s1)
    | _ => (det_map_h p, det_map_w p)
    end in
  if (W <=? 4) && (16 <? H) then (W, H) else (H, W).

(** A probability map: a [cv::Mat] of [float], row after row. *)
Record ProbMap : Type := mkProbMap {
  prob_rows : Z;
  prob_cols : Z;
  prob_data : list F32.t
}.

(** Step 3: the binarization threshold from the configured threshold and
    the share of the map above it. *)
Definition adaptive_bin_thr (det_bin_thresh fg_ratio_default : F32.t) : F32.t :=
  if F32.ltb fg_ratio_default (F32.lit 3 1000)
  then F32.max (F32.lit 15 100) (F32.mul det_bin_thresh (F32.lit 8 10))
  else if F32.gtb fg_ratio_default (F32.lit 8 100)
  then F32.min (F32.lit 75 100) (F32.mul det_bin_thresh (F32.lit 12 10))
  else det_bin_thresh.

(** [cv::countNonZero(prob > thr)]. *)
Definition count_above (prob : ProbMap) (thr : F32.t) : Z :=
  Z.of_nat (List.length (filter (fun v => F32.gtb v thr) (prob_data prob))).

Definition fg_ratio (prob : ProbMap) (thr : F32.t) (H W : Z) : F32.t :=
  F32.div (F32.of_Z (count_above prob thr)) (F32.of_Z (H * W)).

(** The threshold [paddleocr_det] binarizes [prob] with. *)
Definition chosen_bin_thr (p : OcrParams) (prob : ProbMap) (H W : Z) : F32.t :=
  adaptive_bin_thr (det_bin_thresh p) (fg_ratio prob (det_bin_thresh p) H W).

Definition kernel_scale (fg_ratio_default : F32.t) : F32.t :=
  if F32.ltb fg_ratio_default (F32.lit 1 100) then F32.one
  else if F32.gtb fg_ratio_default (F32.lit 6 100) then F32.lit 15 10
  else F32.lit 12 10.

(** [nth_element] at the middle, then the element there. *)
Definition median (hs : list Z) : Z :=
  nth (Nat.div (List.length hs) 2) (sort_Z hs) 0.

(** [float(r.width) / std::max(1, r.height)]. *)
Definition aspect_ratio (r : Rect) : F32.t :=
  F32.div (F32.of_Z (rect_width r)) (F32.of_Z (Z.max 1 (rect_height r))).

(** Step 4.6 for one rectangle. *)
Definition gentle_grow (W H : Z) (r : Rect) : Rect :=
  let gx := Z.max 1 (round_to_Z (F32.max (F32.of_Z 2)
               (F32.mul (F32.of_Z (rect_height r)) (F32.lit 15 100)))) in
  let gy := Z.max 1 (round_to_Z (F32.max (F32.of_Z 1)
               (F32.mul (F32.of_Z (rect_height r)) (F32.lit 12 100)))) in
  clamp_rect W H (grow_rect r gx gy).

Definition inflate (W H PAD_X0 PAD_Y0 : Z) (r0 : Rect) : Rect :=
  let r1 := clamp_rect W H (grow_rect r0 PAD_X0 PAD_Y0) in
  let r2 :=
    if F32.gtb (aspect_ratio r1) (F32.of_Z 10) then
      let addY := Z.max PAD_Y0 (round_scaled (rect_height r1) (F32.lit 5 10)) in
      clamp_rect W H
        (mkRect (rect_x r1) (rect_y r1 - Z.quot addY 2)
                (rect_width r1) (rect_height r1 + addY))
    else r1 in
  gentle_grow W H (gentle_grow W H r2).

(** The frame box of a map rectangle. *)
Definition frame_box (sx sy : F32.t) (roi_box : HailoBBox) (r : Rect)
  : HailoBBox :=
  mkBBox (F32.add (F32.mul (F32.of_Z (rect_x r)) sx) (xmin roi_box))
         (F32.add (F32.mul (F32.of_Z (rect_y r)) sy) (ymin roi_box))
         (F32.mul (F32.of_Z (rect_width r)) sx)
         (F32.mul (F32.of_Z (rect_height r)) sy).

(** Sort by decreasing width, as [std::sort] with [a.width > b.width]
    does.  The standard leaves the order of equal widths open; this
    sort keeps them in their order, and the properties of the fallback
    are stated for whichever of the equally wide rectangles is taken. *)
Fixpoint insert_by_width (r : Rect) (sorted : list Rect) : list Rect :=
  match sorted with
  | [] => [r]
  | s :: rest =>
      if rect_width r <? rect_width s then s :: insert_by_width r rest
      else r :: sorted
  end.

Definition sort_by_width_desc (rects : list Rect) : list Rect :=
  fold_right insert_by_width [] rects.

Section Detector.

  (** OpenCV, as the detector uses it. *)

  (** One pixel of [convertTo(out, CV_32F, 1.0/255.0)]. *)
  Variable cv_convert_pixel : Z -> F32.t.

  (** [threshold], [convertTo], [morphologyEx] with a [kx] by [ky]
      rectangle and [findContours]: the external contours of the closed
      binary map, each a list of points. *)
  Variable cv_closed_contours :
    ProbMap -> F32.t -> Z -> Z -> list (list (Z * Z)).

  Variable cv_boundingRect : list (Z * Z) -> Rect.

  (** [(float) cv::mean(prob(R))[0]] for a rectangle inside the map. *)
  Variable cv_mean : ProbMap -> Rect -> F32.t.

Definition tensor_to_probmap_u8_as_float (t : HailoTensor) (H W : Z)
    : result ProbMap :=
    match tensor_data t with
    | None => Raise "Detector tensor has null data()"
    | Some u8 =>
        let n := (Z.to_nat H * Z.to_nat W)%nat in
        if (List.length u8 <? n)%nat then Fault
        else Ok (mkProbMap H W (map cv_convert_pixel (firstn n u8)))
    end.

Definition region_score_rect (prob : ProbMap) (r : Rect) : F32.t :=
    let R := rect_inter r (mkRect 0 0 (prob_cols prob) (prob_rows prob)) in
    if rect_empty R then F32.zero else cv_mean prob R.

  (** Step 4: bounding rectangles of the contours. *)
Definition contour_rects (contours : list (list (Z * Z))) : list Rect :=
    flat_map
      (fun c =>
         match c with
         | [] => []
         | _ :: _ =>
             let r := cv_boundingRect c in
             if (0 <? rect_width r) && (0 <? rect_height r) then [r] else []
         end)
      contours.

Definition AR_MIN : F32.t := F32.lit 6 10.
Definition AR_MAX : F32.t := F32.of_Z 80.

  (** The four tests of step 5 on an inflated rectangle. *)
Definition passes_filters (p : OcrParams) (prob : ProbMap) (H median_h : Z)
    (r : Rect) : bool :=
    let det_MIN_H_PX := Z.max 3 (round_scaled H (F32.lit 1 100)) in
    let MIN_AREA_PX :=
      F32.max (F32.of_Z 80)
              (F32.mul (F32.of_Z (median_h * median_h)) (F32.lit 4 10)) in
    let SCORE_BASE := det_box_thresh p in
    let ar := aspect_ratio r in
    let hpx := rect_height r in
    let area := F32.mul (F32.of_Z (rect_width r)) (F32.of_Z (rect_height r)) in
    let score := region_score_rect prob r in
    let score_min :=
      if F32.gtb ar (F32.of_Z 16)
      then F32.max (F32.lit 45 100) (F32.sub SCORE_BASE (F32.lit 15 100))
      else SCORE_BASE in
    negb (hpx <? det_MIN_H_PX)
    && negb (F32.ltb area MIN_AREA_PX)
    && negb (F32.ltb ar AR_MIN || F32.gtb ar AR_MAX)
    && negb (F32.ltb score score_min).

Definition text_region (prob : ProbMap) (sx sy : F32.t) (roi_box : HailoBBox)
    (r : Rect) : HailoObject :=
    ObjDetection (frame_box sx sy roi_box r) "text_region"
                 (region_score_rect prob r) [].

  (** The loop of step 5; [n_outs] is [outs.size()]. *)
Fixpoint filter_rects (p : OcrParams) (prob : ProbMap) (H median_h : Z)
    (sx sy : F32.t) (roi_box : HailoBBox) (n_outs : Z) (rects : list Rect)
    : list HailoObject :=
    match rects with
    | [] => []
    | r :: rest =>
        if passes_filters p prob H median_h r then
          text_region prob sx sy roi_box r
          :: (if det_max_candidates p <=? n_outs + 1 then []
              else filter_rects p prob H median_h sx sy roi_box (n_outs + 1) rest)
        else filter_rects p prob H median_h sx sy roi_box n_outs rest
    end.

  (** The final pad of the fallback. *)
Definition tiny_pad (W H : Z) (r : Rect) : Rect :=
    let gx := Z.max 1 (round_scaled (rect_height r) (F32.lit 1 10)) in
    let gy := Z.max 1 (round_scaled (rect_height r) (F32.lit 1 10)) in
    clamp_rect W H (grow_rect r gx gy).

  (** Step 5.5: the detections of the fallback. *)
Definition fallback_rects (rects : list Rect) : list Rect :=
    firstn (Nat.min 2 (List.length rects)) (sort_by_width_desc rects).

Definition fallback_detections (prob : ProbMap) (W H : Z) (sx sy : F32.t)
    (roi_box : HailoBBox) (rects : list Rect) : list HailoObject :=
    map (fun r => text_region prob sx sy roi_box (tiny_pad W H r))
        (fallback_rects rects).

  (** Steps 4.5 to 5.5: from the rectangles of the contours to the
      detections handed to the ROI. *)
Definition inflated_rects (W H : Z) (rects0 : list Rect) : list Rect :=
    let median_h := median (map rect_height rects0) in
    let GAP_PX :=
      Z.max 3 (Z.min (trunc_to_Z (F32.mul (F32.of_Z W) (F32.lit 2 100)))
                     (round_scaled median_h F32.one)) in
    let YOV := F32.lit 45 100 in
    let merged := merge_horizontal_boxes rects0 GAP_PX YOV in
    let PAD_X0 := Z.max 2 (round_scaled median_h (F32.lit 6 10)) in
    let PAD_Y0 := Z.max 1 (round_scaled median_h (F32.lit 35 100)) in
    map (inflate W H PAD_X0 PAD_Y0) merged.

Definition det_outputs (p : OcrParams) (prob : ProbMap) (W H : Z)
    (roi_box : HailoBBox) (rects0 : list Rect) : list HailoObject :=
    let median_h := median (map rect_height rects0) in
    let rects := inflated_rects W H rects0 in
    let sx := F32.div (width roi_box) (F32.of_Z W) in
    let sy := F32.div (height roi_box) (F32.of_Z H) in
    let outs := filter_rects p prob H median_h sx sy roi_box 0 rects in
    match outs, rects with
    | [], _ :: _ => fallback_detections prob W H sx sy roi_box rects
    | _, _ => outs
    end.

  (** The side of the closing kernel along an axis of [n] pixels:
      [odd_at_least(std::max(lo, int(std::round(n * frac * kscale))))]. *)
Definition close_kernel (n : Z) (frac : F32.t) (lo : Z) (kscale : F32.t) : Z :=
    odd_at_least
      (Z.max lo (round_to_Z (F32.mul (F32.mul (F32.of_Z n) frac) kscale))).

  (** Steps 3 and 4: the rectangles of the contours of the map. *)
Definition det_rects0 (p : OcrParams) (prob : ProbMap) (H W : Z) : list Rect :=
    let fg_ratio_default := fg_ratio prob (det_bin_thresh p) H W in
    let bin_thr := chosen_bin_thr p prob H W in
    let kscale := kernel_scale fg_ratio_default in
    let kx := close_kernel W (F32.lit 12 1000) 3 kscale in
    let ky := close_kernel H (F32.lit 6 1000) 1 kscale in
    contour_rects (cv_closed_contours prob bin_thr kx ky).

  (** The end of [paddleocr_det]: the detections go to the ROI. *)
Definition det_emit (roi : HailoROI) (p : OcrParams) (outs : list HailoObject)
    : HailoROI :=
    match outs with
    | [] => roi
    | _ :: _ =>
        let roi1 := add_detections roi outs in
        if letterbox_fix p then clear_scaling_bbox roi1 else roi1
    end.

Definition paddleocr_det (roi : HailoROI) (p : OcrParams) : result HailoROI :=
    if negb (has_tensors roi) then Ok roi
    else
      t <- get_tensor_by_name_or_fallback roi (det_output_name p);;
      let '(H, W) := resolve_hw (tensor_shape t) p in
      prob <- tensor_to_probmap_u8_as_float t H W;;
      let rects0 := det_rects0 p prob H W in
      match rects0 with
      | [] => Ok roi
      | _ :: _ =>
          let roi_box :=
            create_flattened_bbox (roi_bbox roi) (roi_scaling_bbox roi) in
          Ok (det_emit roi p (det_outputs p prob W H roi_box rects0))
      end.

End Detector.
(* ================================================================== *)
(** * Predicates and sample inputs used by the properties *)

(** Parameters used by the examples below: the thresholds of the usual
    configuration, no charset file, an empty table before loading. *)
Definition sample_params : OcrParams :=
  {| det_bin_thresh := F32.lit 3 10;
     det_box_thresh := F32.lit 6 10;
     det_max_candidates := 1000;
     det_output_name := "det_out";
     det_map_h := 32;
     det_map_w := 128;
     letterbox_fix := true;
     rec_output_name := "rec_out";
     charset_path := EmptyString;
     charset := [];
     blank_index := 0;
     logits_are_softmax := true |}.

Definition set_charset_path (p : OcrParams) (path : string) : OcrParams :=
  {| det_bin_thresh := det_bin_thresh p;
     det_box_thresh := det_box_thresh p;
     det_max_candidates := det_max_candidates p;
     det_output_name := det_output_name p;
     det_map_h := det_map_h p;
     det_map_w := det_map_w p;
     letterbox_fix := letterbox_fix p;
     rec_output_name := rec_output_name p;
     charset_path := path;
     charset := charset p;
     blank_index := blank_index p;
     logits_are_softmax := logits_are_softmax p |}.

(** A file system with one file, which is empty. *)
Definition fs_one_empty_file : file_system :=
  fun path => if String.eqb path "charset.txt" then Some EmptyString else None.

(** Stand-ins for OpenCV in the closed examples: the pixel conversion
    multiplies by 1/255, and the map has no contour. *)
Definition cv_pixel_by_255 (u8 : Z) : F32.t :=
  F32.mul (F32.of_Z u8) (F32.lit 1 255).

Definition cv_no_contours (_ : ProbMap) (_ : F32.t) (_ _ : Z)
  : list (list (Z * Z)) := [].

Definition cv_mean_zero (_ : ProbMap) (_ : Rect) : F32.t := F32.zero.

Definition cv_rect_of_first_point (c : list (Z * Z)) : Rect :=
  match c with
  | [] => mkRect 0 0 0 0
  | (x, y) :: _ => mkRect x y 1 1
  end.

Definition unit_box : HailoBBox := mkBBox F32.zero F32.zero F32.one F32.one.

Definition roi_without_tensors : HailoROI :=
  mkROI unit_box unit_box [] [].

(** Whether the CTC rule emits the class [idx] after [prev]. *)
Definition ctc_emits (p : OcrParams) (st : ctc_state) (idx : Z) : bool :=
  negb (idx =? blank_index p) && negb (idx =? prev st).

Definition one_hot_row (C k : nat) : list F32.t :=
  map (fun c => if Nat.eqb c k then F32.one else F32.zero) (seq 0 C).

(** The test of [paddleocr_recognize] on the decoded text: it is neither
    empty nor the string made of one space. *)
Definition text_accepted (text : string) : bool :=
  negb (string_empty text) && negb (String.eqb text " ").

(** A recognizer output of 97 timesteps over 96 classes whose arg-max
    sequence is: space, blank, space, then blanks. *)
Definition one_hot_u8 (C k : nat) : list Z :=
  map (fun c => if Nat.eqb c k then 255 else 0) (seq 0 C).

Definition spaces_tensor : HailoTensor :=
  mkTensor "rec_out" [1; 97; 96]
    (Some (flat_map
             (fun t0 => one_hot_u8 96
                          (if Nat.eqb t0 0 || Nat.eqb t0 2 then 95 else 0)%nat)
             (seq 0 97))).

Definition plate : HailoObject :=
  ObjDetection unit_box "text_region" (F32.lit 9 10) [].

Definition roi_two_spaces : HailoROI :=
  mkROI unit_box unit_box [plate] [spaces_tensor].

Definition loaded_params : OcrParams :=
  set_charset sample_params default_charset.

Definition x_le (a b : Rect) : Prop := rect_x a <= rect_x b.

(** No rectangle of the list passes the merge test with the one before
    it, [run] being before the first. *)
Fixpoint chain_unmergeable (max_gap_px : Z) (min_y_overlap_ratio : F32.t)
  (run : Rect) (rects : list Rect) : Prop :=
  match rects with
  | [] => True
  | next :: rest =>
      mergeable max_gap_px min_y_overlap_ratio run next = false
      /\ chain_unmergeable max_gap_px min_y_overlap_ratio next rest
  end.

Definition neighbours_unmergeable (max_gap_px : Z)
  (min_y_overlap_ratio : F32.t) (rects : list Rect) : Prop :=
  match rects with
  | [] => True
  | run :: rest => chain_unmergeable max_gap_px min_y_overlap_ratio run rest
  end.

(** What the standard asks of [std::sort] with the comparison
    [a.x < b.x]: the same rectangles, in order of [x].  The order of
    rectangles of equal [x] is left to the sort. *)
Definition std_sort_by_x (sort : list Rect -> list Rect) : Prop :=
  forall l, Permutation l (sort l) /\ Sorted x_le (sort l).

(** No two rectangles of the list have the same [x]. *)
Definition distinct_x (l : list Rect) : Prop := NoDup (map rect_x l).

(** Another sort that meets the standard: it inserts each rectangle
    after the last one that is not to its right, which reverses the
    order of rectangles of equal [x]. *)
Fixpoint insert_after_x (r : Rect) (sorted : list Rect) : list Rect :=
  match sorted with
  | [] => [r]
  | s :: rest =>
      if rect_x s <=? rect_x r then s :: insert_after_x r rest
      else r :: sorted
  end.

Definition sort_by_x_ties_reversed (rects : list Rect) : list Rect :=
  fold_right insert_after_x [] rects.

(** Three rectangles, the last two with the same [x]: the first
    overlaps the second in height and not the third. *)
Definition tied_boxes : list Rect :=
  [mkRect 0 0 10 10; mkRect 12 0 5 10; mkRect 12 20 5 5].

(** Three pairwise disjoint rectangles: [B] lies below [A], and [C]
    overlaps both in height. *)
Definition three_boxes : list Rect :=
  [mkRect 0 0 10 10; mkRect 12 20 5 5; mkRect 18 5 5 18].

(** A non-empty rectangle inside the [W] by [H] image. *)
Definition inside (W H : Z) (r : Rect) : Prop :=
  0 < rect_width r /\ 0 < rect_height r
  /\ 0 <= rect_x r /\ 0 <= rect_y r
  /\ rect_x r + rect_width r <= W
  /\ rect_y r + rect_height r <= H.

(** [r] is [r0] grown outward: it contains [r0], its left and top edges
    moved by at most [gx] and [gy], and its width and height grew by at
    most [2 * gx] and [2 * gy]. *)
Definition grown_within (r0 r : Rect) (gx gy : Z) : Prop :=
  rect_x r <= rect_x r0 /\ rect_x r0 - gx <= rect_x r
  /\ rect_y r <= rect_y r0 /\ rect_y r0 - gy <= rect_y r
  /\ rect_x r0 + rect_width r0 <= rect_x r + rect_width r
  /\ rect_y r0 + rect_height r0 <= rect_y r + rect_height r
  /\ rect_width r <= rect_width r0 + 2 * gx
  /\ rect_height r <= rect_height r0 + 2 * gy.

(** The caps of the two functions. *)
Definition iter_cap (W H : Z) (max_grow_frac : F32.t) : Z :=
  Z.max 1 (round_scaled (Z.max W H) max_grow_frac).

Definition aniso_cap (n : Z) (max_grow_frac : F32.t) : Z :=
  Z.max 1 (round_scaled n max_grow_frac).

(** The delta of one iteration: [max(1, round(ratio * area / perimeter))]. *)
Definition step_delta (r : Rect) (ratio : F32.t) : Z :=
  Z.max 1 (unclip_delta r ratio).

(** [db_unclip_rect_iter] in the words of the claim, from the rectangle
    [r] with [used] pixels of the cap used and [n] iterations left: it
    ends on [r] when no iteration is left, when the next delta would
    pass the cap, or when the step changes nothing; otherwise it grows
    [r] by the delta on every side, clamps, and goes on. *)
Inductive iso_grows (ratio : F32.t) (W H cap : Z)
  : nat -> Rect -> Z -> Rect -> Prop :=
| iso_iterations_done (r : Rect) (used : Z) :
    iso_grows ratio W H cap 0 r used r
| iso_cap_reached (n : nat) (r : Rect) (used : Z) :
    cap < used + step_delta r ratio ->
    iso_grows ratio W H cap (S n) r used r
| iso_no_change (n : nat) (r : Rect) (used : Z) :
    used + step_delta r ratio <= cap ->
    clamp_rect W H (grow_rect r (step_delta r ratio) (step_delta r ratio)) = r ->
    iso_grows ratio W H cap (S n) r used r
| iso_grow (n : nat) (r : Rect) (used : Z) (out : Rect) :
    used + step_delta r ratio <= cap ->
    clamp_rect W H (grow_rect r (step_delta r ratio) (step_delta r ratio)) <> r ->
    iso_grows ratio W H cap n
      (clamp_rect W H (grow_rect r (step_delta r ratio) (step_delta r ratio)))
      (used + step_delta r ratio) out ->
    iso_grows ratio W H cap (S n) r used out.

(** The delta [db_unclip_rect_iter_aniso] applies along an axis: the
    delta of the iteration, cut to the room left under the cap. *)
Definition cut_delta (r : Rect) (ratio : F32.t) (cap used : Z) : Z :=
  Z.min (step_delta r ratio) (Z.max 0 (cap - used)).

(** [db_unclip_rect_iter_aniso] in the words of the amended claim: it
    ends when no iteration is left or when no room is left on both
    axes; otherwise it grows by the cut deltas, clamps, and goes on. *)
Inductive aniso_grows (ratio_x ratio_y : F32.t) (W H cap_x cap_y : Z)
  : nat -> Rect -> Z -> Z -> Rect -> Prop :=
| aniso_iterations_done (r : Rect) (used_x used_y : Z) :
    aniso_grows ratio_x ratio_y W H cap_x cap_y 0 r used_x used_y r
| aniso_no_room (n : nat) (r : Rect) (used_x used_y : Z) :
    cap_x <= used_x -> cap_y <= used_y ->
    aniso_grows ratio_x ratio_y W H cap_x cap_y (S n) r used_x used_y r
| aniso_grow (n : nat) (r : Rect) (used_x used_y : Z) (out : Rect) :
    used_x < cap_x \/ used_y < cap_y ->
    aniso_grows ratio_x ratio_y W H cap_x cap_y n
      (clamp_rect W H
         (grow_rect r (cut_delta r ratio_x cap_x used_x)
                      (cut_delta r ratio_y cap_y used_y)))
      (used_x + cut_delta r ratio_x cap_x used_x)
      (used_y + cut_delta r ratio_y cap_y used_y) out ->
    aniso_grows ratio_x ratio_y W H cap_x cap_y (S n) r used_x used_y out.

Definition square_20 : Rect := mkRect 40 40 20 20.


(** Stand-ins for OpenCV that hand back two contours, each given by two
    opposite corners, and the box of the two corners. *)
Definition cv_two_contours (_ : ProbMap) (_ : F32.t) (_ _ : Z)
  : list (list (Z * Z)) :=
  [[(10, 10); (49, 19)]; [(60, 12); (69, 17)]].

Definition cv_rect_of_corners (c : list (Z * Z)) : Rect :=
  match c with
  | [(x0, y0); (x1, y1)] => mkRect x0 y0 (x1 - x0 + 1) (y1 - y0 + 1)
  | _ => mkRect 0 0 0 0
  end.

Definition det_tensor : HailoTensor :=
  mkTensor "det_out" [1; 1; 32; 128] (Some (repeat 0 4096)).

Definition roi_with_det_tensor : HailoROI :=
  mkROI unit_box unit_box [] [det_tensor].

Definition zero_map : ProbMap :=
  mkProbMap 32 128 (repeat F32.zero 4096).

(** Three contours on a 32 by 256 map, 10, 50 and 30 pixels wide, and
    an ROI whose tensor gives that map. *)
Definition cv_three_contours (_ : ProbMap) (_ : F32.t) (_ _ : Z)
  : list (list (Z * Z)) :=
  [[(10, 10); (19, 15)]; [(80, 10); (129, 15)]; [(190, 10); (219, 15)]].

Definition wide_det_tensor : HailoTensor :=
  mkTensor "det_out" [1; 1; 32; 256] (Some (repeat 0 (Z.to_nat 8192))).

Definition roi_with_wide_det_tensor : HailoROI :=
  mkROI unit_box unit_box [] [wide_det_tensor].


(* ------------------------------------------------------------------ *)
(** ** binary32 values as integers *)

(** Powers of two are opaque to the linear arithmetic below. *)
Ltac hide_pows :=
  repeat match goal with
         | |- context [Z.pow ?b ?e] =>
             let x := fresh "pw" in set (x := Z.pow b e) in *; clearbody x
         | H : context [Z.pow ?b ?e] |- _ =>
             let x := fresh "pw" in set (x := Z.pow b e) in *; clearbody x
         end.
Ltac pow_lia := hide_pows; lia.
Ltac plia := first [lia | pow_lia].

(** Whether rounding [n / 2^s] to nearest, ties to even, goes up. *)
Definition rnd_up (n s : Z) : bool :=
  (2 ^ s <? 2 * (n mod 2 ^ s))
  || ((2 ^ s =? 2 * (n mod 2 ^ s)) && Z.odd (n / 2 ^ s)).

(** Round to nearest, ties to even, on the binary32 grid. *)
Definition rnd (n : Z) : Z :=
  let s := Z.max (Zdigits2 n - 24) 0 in
  (n / 2 ^ s + (if rnd_up n s then 1 else 0)) * 2 ^ s.

(** The value of a non-negative number, times [2^149]. *)
Definition V (x : spec_float) : Z :=
  match x with
  | S754_finite false m e => Z.pos m * 2 ^ (e + 149)
  | _ => 0
  end.

(** [+0] and the valid positive finite numbers. *)
Definition nonneg (x : spec_float) : Prop :=
  match x with
  | S754_zero false => True
  | S754_finite false m e => bounded 24 128 m e = true
  | _ => False
  end.

(** The value of 1, and the rounding error below it. *)
Definition ONE : Z := 2 ^ 149.

(** The four fields are [float] numbers. *)
Definition valid_box (b : HailoBBox) : Prop :=
  F32.valid (xmin b) = true /\ F32.valid (ymin b) = true
  /\ F32.valid (width b) = true /\ F32.valid (height b) = true.

(** The normalized-frame bounds of a box, evaluated in [float]. *)
Definition box_in_unit (b : HailoBBox) : Prop :=
  F32.leb F32.zero (xmin b) = true
  /\ F32.leb F32.zero (ymin b) = true
  /\ F32.leb (F32.add (xmin b) (width b)) F32.one = true
  /\ F32.leb (F32.add (ymin b) (height b)) F32.one = true.

(** Every detection of the list has a box of valid [float] numbers. *)
Definition detection_boxes_valid (objs : list HailoObject) : Prop :=
  Forall (fun o => match get_bbox o with
                   | Some b => valid_box b
                   | None => True
                   end) objs.

(** [o'] is the detection [o] after the loop body of [crop_text_regions]
    ran to its end on it. *)
Definition processed (img_w img_h : Z) (use_letterbox : bool)
  (o o' : HailoObject) : Prop :=
  exists nb b,
    get_bbox o = Some nb
    /\ get_label o = "text_region"%string
    /\ adjust_box img_w img_h use_letterbox nb = Some b
    /\ o' = set_bbox o b
    /\ get_bbox o' = Some b.

(** The four fields are [+0] or positive finite numbers, and the exact
    sums [xmin + width], [ymin + height] pass 1 by [2^-25] at most. *)
Definition box_sums_near_unit (b : HailoBBox) : Prop :=
  nonneg (xmin b) /\ nonneg (ymin b) /\ nonneg (width b) /\ nonneg (height b)
  /\ V (xmin b) + V (width b) <= ONE + 2 ^ 124
  /\ V (ymin b) + V (height b) <= ONE + 2 ^ 124.

(** The objects of the ROI after the loop, one by one: left as they
    were, or processed, and then the box is in the unit square for the
    sums of [float], and within [2^-25] of it for the exact sums. *)
Definition cropped (img_w img_h : Z) (use_letterbox : bool)
  (o o' : HailoObject) : Prop :=
  o' = o
  \/ (processed img_w img_h use_letterbox o o'
      /\ forall b, get_bbox o' = Some b ->
                   box_in_unit b /\ box_sums_near_unit b).

(** A text region that sticks out of the frame on the right. *)
Definition wide_region : HailoObject :=
  ObjDetection (mkBBox (F32.lit 1 10) (F32.lit 4 10) (F32.lit 95 100) (F32.lit 3 10))
    "text_region" (F32.lit 9 10) [].

(** An ROI carrying that region only. *)
Definition roi_wide_region : HailoROI :=
  mkROI unit_box unit_box [wide_region] [].

(** A text region of width 1 that starts at [xmin = 0.008], and an ROI
    carrying it. *)
Definition unit_width_region : HailoObject :=
  ObjDetection (mkBBox (F32.lit 8 1000) (F32.lit 4 10) F32.one (F32.lit 3 10))
    "text_region" (F32.lit 9 10) [].

Definition roi_unit_width_region : HailoROI :=
  mkROI unit_box unit_box [unit_width_region] [].

(** [p] with another binarization threshold. *)
Definition set_det_bin_thresh (p : OcrParams) (thr : F32.t) : OcrParams :=
  {| det_bin_thresh := thr;
     det_box_thresh := det_box_thresh p;
     det_max_candidates := det_max_candidates p;
     det_output_name := det_output_name p;
     det_map_h := det_map_h p;
     det_map_w := det_map_w p;
     letterbox_fix := letterbox_fix p;
     rec_output_name := rec_output_name p;
     charset_path := charset_path p;
     charset := charset p;
     blank_index := blank_index p;
     logits_are_softmax := logits_are_softmax p |}.

(** [0.15f <= v <= 0.75f], compared as the program compares. *)
Definition in_bin_range (v : F32.t) : Prop :=
  F32.leb (F32.lit 15 100) v = true /\ F32.leb v (F32.lit 75 100) = true.

(** A 32 x 128 map with 100 pixels at 1: a foreground ratio of 2.4%. *)
Definition map_100_ones : ProbMap :=
  mkProbMap 32 128 (repeat F32.one 100 ++ repeat F32.zero 3996).

(* ================================================================== *)
(** * Further predicates and sample inputs *)

(** The content of a file holding the lines [ls], each ended by a
    newline. *)
Definition unlines (ls : list string) : string :=
  fold_right (fun l acc => (l ++ String "010"%char acc)%string) EmptyString ls.

Fixpoint has_newline (s : string) : bool :=
  match s with
  | EmptyString => false
  | String c rest => Ascii.eqb c "010"%char || has_newline rest
  end.

(** A file system holding one file, of two lines. *)
Definition fs_two_lines : file_system :=
  fun path =>
    if String.eqb path "digits.txt"
    then Some (unlines ["0"%string; "1"%string])
    else None.

(** The arg-max class of a row is [k]. *)
Definition argmax_is (row : list F32.t) (k : Z) : Prop :=
  exists i pmax, max_element row = Some (i, pmax) /\ Z.of_nat i = k.

(** Every symbol the decoder can emit from the table is one character
    long: the entries other than the blank one. *)
Definition single_chars (p : OcrParams) : Prop :=
  forall i s,
    nth_error (charset p) i = Some s -> Z.of_nat i <> blank_index p ->
    String.length s = 1%nat.

(** [probs[t0][c]] as [paddleocr_recognize] fills it. *)
Definition prob_entry (layout_is_NCT : bool) (T C : nat) (base : list Z)
  (t0 c : nat) : F32.t :=
  F32.mul
    (F32.of_Z (nth (if layout_is_NCT then c * T + t0 else t0 * C + c)%nat base 0))
    (F32.lit 1 255).

(** A recognizer output of three timesteps over two classes, class 1
    being the arg-max of each, and an ROI that carries it with one
    detection; a table of the blank token and one letter. *)
Definition tiny_rec_tensor : HailoTensor :=
  mkTensor "rec_out" [1; 2; 3] (Some [0; 0; 0; 255; 255; 255]).

Definition roi_tiny_rec : HailoROI :=
  mkROI unit_box unit_box [ObjOther 7; plate; plate] [tiny_rec_tensor].

Definition params_blank_A : OcrParams :=
  set_charset sample_params ["blank"%string; "A"%string].

(** A tensor of rank 2, which the recognizer rejects. *)
Definition roi_rank_2 : HailoROI :=
  mkROI unit_box unit_box [] [mkTensor "rec_out" [2; 3] (Some [0; 0; 0; 0; 0; 0])].

(** [roi_tiny_rec] after the recognizer read the letter. *)
Definition roi_tiny_rec_read : HailoROI :=
  mkROI unit_box unit_box
    [ObjOther 7;
     detection_add_object plate
       (ObjClassification "license_plate" "A" F32.one);
     plate]
    [tiny_rec_tensor].

(** The boxes written by the loop of [crop_text_regions], object by
    object: [Some b] where [set_bbox(b)] was called. *)
Fixpoint apply_picks (objs : list HailoObject) (picks : list (option HailoBBox))
  : list HailoObject :=
  match objs, picks with
  | o :: objs', Some b :: picks' => set_bbox o b :: apply_picks objs' picks'
  | o :: objs', None :: picks' => o :: apply_picks objs' picks'
  | _, _ => objs
  end.

Definition is_some {A : Type} (x : option A) : bool :=
  match x with
  | Some _ => true
  | None => false
  end.

Definition picked (picks : list (option HailoBBox)) : Z :=
  Z.of_nat (List.length (filter is_some picks)).

(** [r] lies within [big]. *)
Definition rect_within (r big : Rect) : Prop :=
  rect_x big <= rect_x r /\ rect_y big <= rect_y r
  /\ rect_x r + rect_width r <= rect_x big + rect_width big
  /\ rect_y r + rect_height r <= rect_y big + rect_height big.

(** [first |= r1; first |= r2; ...]: the running rectangle of the merge
    loop after a run of merges. *)
Definition union_all (block : Rect * list Rect) : Rect :=
  fold_left rect_union (snd block) (fst block).

(** The rectangles of a list of runs, in order. *)
Definition runs_flat (blocks : list (Rect * list Rect)) : list Rect :=
  flat_map (fun block => fst block :: snd block) blocks.

(** Two rectangles on two text lines, the second to the right of the
    first and below it. *)
Definition two_lines : list Rect := [mkRect 0 0 10 10; mkRect 12 20 5 5].

(** A binary map: a [cv::Mat] of bytes. *)
Record BinMap : Type := mkBinMap {
  bin_rows : Z;
  bin_cols : Z;
  bin_data : list Z
}.

(** A literal [n/d] of type [double]. *)
Definition F64_lit (n d : Z) : F64.t := F64.div (F64.of_Z n) (F64.of_Z d).

(** The sides [kx], [ky] of the kernel of [morph_close_horizontal]. *)
Definition morph_kernel (bin : BinMap) : Z * Z :=
  (odd_at_least
     (Z.max 3 (round_to_Z (F64.mul (F64.of_Z (bin_cols bin)) (F64_lit 15 1000)))),
   odd_at_least
     (Z.max 1 (round_to_Z (F64.mul (F64.of_Z (bin_rows bin)) (F64_lit 8 1000))))).

Section MorphClose.

  (** [morphologyEx(bin, bin, MORPH_CLOSE, k)] with a [kx] by [ky]
      rectangle for [k]. *)
  Variable cv_morph_close : BinMap -> Z -> Z -> BinMap.

Definition morph_close_horizontal (bin : BinMap) : BinMap :=
    let '(kx, ky) := morph_kernel bin in
    cv_morph_close bin kx ky.

End MorphClose.

(** The middle and the largest of three dimensions. *)
Definition mid3 (a b c : Z) : Z := Z.max (Z.min a b) (Z.min (Z.max a b) c).
Definition max3 (a b c : Z) : Z := Z.max (Z.max a b) c.

(** A detection as [paddleocr_det] emits it. *)
Definition is_text_region (o : HailoObject) : Prop :=
  exists b score, o = ObjDetection b "text_region" score [].

(** The box [clear_scaling_bbox] leaves. *)
Definition identity_box : HailoBBox :=
  mkBBox F32.zero F32.zero F32.one F32.one.

(** A detector tensor whose data pointer is null, and an ROI with it. *)
Definition roi_null_det_tensor : HailoROI :=
  mkROI unit_box unit_box [] [mkTensor "det_out" [1; 1; 32; 128] None].

(** [p] with another cap on the detections. *)
Definition set_det_max_candidates (p : OcrParams) (n : Z) : OcrParams :=
  {| det_bin_thresh := det_bin_thresh p;
     det_box_thresh := det_box_thresh p;
     det_max_candidates := n;
     det_output_name := det_output_name p;
     det_map_h := det_map_h p;
     det_map_w := det_map_w p;
     letterbox_fix := letterbox_fix p;
     rec_output_name := rec_output_name p;
     charset_path := charset_path p;
     charset := charset p;
     blank_index := blank_index p;
     logits_are_softmax := logits_are_softmax p |}.

(** [roi_with_det_tensor] after the detector ran on the two contours. *)
Definition roi_after_det : HailoROI :=
  match paddleocr_det cv_pixel_by_255 cv_two_contours cv_rect_of_corners
          cv_mean_zero roi_with_det_tensor sample_params with
  | Ok roi' => roi'
  | _ => roi_with_det_tensor
  end.

(** A recognizer output with no class at all. *)
Definition roi_no_classes : HailoROI :=
  mkROI unit_box unit_box [plate] [mkTensor "rec_out" [1; 0; 5] (Some [])].

(** A box that sticks out of the frame on the right. *)
Definition wide_box : HailoBBox :=
  mkBBox (F32.lit 1 10) (F32.lit 4 10) (F32.lit 95 100) (F32.lit 3 10).

Definition wide_box_adjusted : HailoBBox :=
  match adjust_box 640 480 false wide_box with
  | Some b => b
  | None => wide_box
  end.

(* ================================================================== *)
(** * Properties *)

Example round_to_Z_half : round_to_Z (F32.lit 15 2) = 8.
Proof. reflexivity. Qed.

Example round_to_Z_neg_half : round_to_Z (F32.lit (-5) 2) = -3.
Proof. reflexivity. Qed.

Example trunc_to_Z_neg : trunc_to_Z (F32.lit (-7) 2) = -3.
Proof. reflexivity. Qed.

Example F32_lit_075 : F32.lit 75 100 = S754_finite false 12582912 (-24).
Proof. reflexivity. Qed.

Example getlines_two : getlines "ab
c"%string = ["ab"; "c"]%string.
Proof. reflexivity. Qed.

Example getlines_trailing_newline : getlines "ab
"%string = ["ab"]%string.
Proof. reflexivity. Qed.

Example default_charset_size : List.length default_charset = 96%nat.
Proof. reflexivity. Qed.

(* ------------------------------------------------------------------ *)
(** ** Charset loader *)

Lemma getlines_from_nil (s line : string) (pending : bool) :
  getlines_from line pending s = [] -> pending = false /\ s = EmptyString.
Proof.
  revert line pending.
  induction s as [| c rest IH]; intros line pending H; simpl in H.
  - destruct pending; [discriminate | auto].
  - destruct (Ascii.eqb c "010"); [discriminate |].
    apply IH in H. destruct H; discriminate.
Qed.

(** A stream yields no line exactly when it is empty. *)
Lemma getlines_nil_iff (s : string) : getlines s = [] <-> s = EmptyString.
Proof.
  split.
  - intros H. apply getlines_from_nil in H. tauto.
  - intros ->. reflexivity.
Qed.

Lemma string_empty_true (s : string) : string_empty s = true <-> s = EmptyString.
Proof. destruct s; simpl; split; congruence. Qed.

Lemma load_default_charset_from_empty (p : OcrParams) :
  charset p = [] -> charset (load_default_charset p) = default_charset.
Proof. intros H. unfold load_default_charset. simpl. now rewrite H. Qed.

(** The built-in table holds the blank token and the 95 printable ASCII
    characters. *)
Lemma default_charset_length : List.length default_charset = 96%nat.
Proof. reflexivity. Qed.

Lemma default_charset_blank_first : nth_error default_charset 0 = Some "blank"%string.
Proof. reflexivity. Qed.

Lemma default_charset_space_last : nth_error default_charset 95 = Some " "%string.
Proof. reflexivity. Qed.

(** C1 (as amended).  Starting from an empty table, the loader falls back
    to the built-in table, whose index 0 is the blank token, when the
    configured path is empty or the file it names opens and holds no
    line; when the path names a file that cannot be opened the loader
    raises instead of falling back. *)
Theorem load_charset_from_file_fallback (fs : file_system) (p : OcrParams)
  (Hfresh : charset p = []) :
  ((charset_path p = EmptyString
    \/ exists content, fs (charset_path p) = Some content /\ getlines content = [])
   -> exists p', load_charset_from_file fs p = Ok p'
                 /\ charset p' = default_charset
                 /\ nth_error (charset p') 0 = Some "blank"%string)
  /\ (charset_path p <> EmptyString -> fs (charset_path p) = None ->
      load_charset_from_file fs p
      = Raise ("Failed to open charset file: " ++ charset_path p)%string).
Proof.
  unfold load_charset_from_file. split.
  - intros [Hpath | [content [Hopen Hlines]]].
    + rewrite (proj2 (string_empty_true _) Hpath).
      exists (load_default_charset p). split; [reflexivity |].
      rewrite (load_default_charset_from_empty p Hfresh). split; reflexivity.
    + destruct (string_empty (charset_path p)).
      * exists (load_default_charset p). split; [reflexivity |].
        rewrite (load_default_charset_from_empty p Hfresh). split; reflexivity.
      * rewrite Hopen. simpl. rewrite Hfresh, Hlines. simpl.
        eexists. split; [reflexivity |]. simpl.
        rewrite ?Hfresh, ?Hlines. split; reflexivity.
  - intros Hpath Hnone.
    destruct (string_empty (charset_path p)) eqn:E.
    + apply string_empty_true in E. contradiction.
    + now rewrite Hnone.
Qed.

Lemma load_charset_from_file_fallback_witness :
  charset (set_charset_path sample_params "charset.txt") = []
  /\ exists p',
       load_charset_from_file fs_one_empty_file
         (set_charset_path sample_params "charset.txt") = Ok p'
       /\ charset p' = default_charset
       /\ nth_error (charset p') 0 = Some "blank"%string.
Proof.
  split; [reflexivity |].
  apply (proj1 (load_charset_from_file_fallback fs_one_empty_file
                  (set_charset_path sample_params "charset.txt") eq_refl)).
  right. exists EmptyString. split; reflexivity.
Defined.

(** C1 as stated fails twice: a path naming an absent file makes the
    loader raise, and the built-in table has 96 entries. *)
Lemma load_charset_from_file_absent_raises :
  load_charset_from_file (fun _ => None)
    (set_charset_path sample_params "missing.txt")
  = Raise "Failed to open charset file: missing.txt"
  /\ List.length default_charset <> 97%nat.
Proof. split; [reflexivity | discriminate]. Qed.

(* ------------------------------------------------------------------ *)
(** ** crop_text_regions_filter *)

Lemma push_back_all {A : Type} (l acc : list A) :
  fold_left (fun acc x => acc ++ [x]) l acc = acc ++ l.
Proof.
  revert acc. induction l as [| x l IH]; intros acc; simpl.
  - now rewrite app_nil_r.
  - rewrite IH, <- app_assoc. reflexivity.
Qed.

Lemma add_all_objects (l : list HailoObject) (roi : HailoROI) :
  fold_left add_object l roi = set_objects roi (roi_objects roi ++ l).
Proof.
  revert roi. induction l as [| o l IH]; intros roi; simpl.
  - rewrite app_nil_r. destruct roi; reflexivity.
  - rewrite IH. unfold add_object, set_objects. simpl.
    now rewrite <- app_assoc.
Qed.

Lemma type_is_detection (o : HailoObject) :
  type_eqb (get_type o) HAILO_DETECTION = is_detection o.
Proof. destruct o; reflexivity. Qed.

Lemma crop_text_regions_filter_objects (roi : HailoROI) :
  roi_objects (crop_text_regions_filter roi)
  = filter (fun o => negb (is_detection o)) (roi_objects roi)
    ++ filter is_detection (roi_objects roi).
Proof.
  unfold crop_text_regions_filter. rewrite push_back_all, add_all_objects.
  simpl. f_equal. apply filter_ext. intros o. now rewrite type_is_detection.
Qed.

Lemma filter_filter_neg {A : Type} (f : A -> bool) (l : list A) :
  filter f (filter (fun a => negb (f a)) l) = [].
Proof.
  induction l as [| a l IH]; simpl; [reflexivity |].
  destruct (f a) eqn:E; simpl; [assumption |]. now rewrite E.
Qed.

Lemma filter_idem {A : Type} (f : A -> bool) (l : list A) :
  filter f (filter f l) = filter f l.
Proof.
  induction l as [| a l IH]; simpl; [reflexivity |].
  destruct (f a) eqn:E; simpl; [rewrite E; now f_equal | assumption].
Qed.

Lemma filter_partition_perm {A : Type} (f : A -> bool) (l : list A) :
  Permutation l (filter (fun a => negb (f a)) l ++ filter f l).
Proof.
  induction l as [| a l IH]; simpl; [constructor |].
  destruct (f a); simpl.
  - now apply Permutation_cons_app.
  - now constructor.
Qed.

(** C10.  [crop_text_regions_filter] keeps the detections of the ROI:
    after the call the ROI carries the same detections, in the same
    order, whatever their labels; its other objects, tensors and boxes
    are untouched, and the objects are the old ones in a new order (the
    detections last). *)
Theorem crop_text_regions_filter_keeps_detections (roi : HailoROI) :
  get_hailo_detections (crop_text_regions_filter roi) = get_hailo_detections roi
  /\ filter (fun o => negb (is_detection o))
            (roi_objects (crop_text_regions_filter roi))
     = filter (fun o => negb (is_detection o)) (roi_objects roi)
  /\ Permutation (roi_objects roi) (roi_objects (crop_text_regions_filter roi))
  /\ roi_tensors (crop_text_regions_filter roi) = roi_tensors roi
  /\ roi_bbox (crop_text_regions_filter roi) = roi_bbox roi
  /\ roi_scaling_bbox (crop_text_regions_filter roi) = roi_scaling_bbox roi.
Proof.
  unfold get_hailo_detections.
  rewrite crop_text_regions_filter_objects.
  repeat split.
  - rewrite filter_app, filter_filter_neg, filter_idem. reflexivity.
  - rewrite filter_app, filter_idem.
    rewrite (filter_ext_in (fun o => negb (is_detection o)) (fun _ => false)
               (filter is_detection (roi_objects roi))).
    + assert (H : forall l : list HailoObject, filter (fun _ => false) l = []).
      { induction l; simpl; auto. }
      rewrite H, app_nil_r. reflexivity.
    + intros o Ho. apply filter_In in Ho. destruct Ho as [_ ->]. reflexivity.
  - apply filter_partition_perm.
  - unfold crop_text_regions_filter. rewrite add_all_objects. reflexivity.
  - unfold crop_text_regions_filter. rewrite add_all_objects. reflexivity.
  - unfold crop_text_regions_filter. rewrite add_all_objects. reflexivity.
Qed.

(* ------------------------------------------------------------------ *)
(** ** Tensor lookup and the entry of the detector *)


Lemma find_none_forall {A : Type} (f : A -> bool) (l : list A) :
  find f l = None -> forall a, In a l -> f a = false.
Proof. intros H a Ha. now apply (find_none f l H). Qed.

Lemma get_tensor_no_tensors (roi : HailoROI) (desired : string) :
  roi_tensors roi = [] ->
  get_tensor_by_name_or_fallback roi desired = Raise "ROI has no tensors".
Proof. intros H. unfold get_tensor_by_name_or_fallback. now rewrite H. Qed.

(** With a tensor on the ROI the lookup returns the first tensor of the
    wanted name, or else the first tensor. *)
Lemma get_tensor_some_tensor (roi : HailoROI) (desired : string) :
  roi_tensors roi <> [] ->
  exists t, get_tensor_by_name_or_fallback roi desired = Ok t
            /\ In t (roi_tensors roi)
            /\ (tensor_name t = desired
                \/ ((forall t', In t' (roi_tensors roi) -> tensor_name t' <> desired)
                    /\ hd_error (roi_tensors roi) = Some t)).
Proof.
  intros Hne. unfold get_tensor_by_name_or_fallback.
  destruct (find _ (roi_tensors roi)) as [chosen |] eqn:Hfind.
  - exists chosen. apply find_some in Hfind. destruct Hfind as [Hin Heq].
    apply String.eqb_eq in Heq. auto.
  - destruct (roi_tensors roi) as [| front rest] eqn:Hts; [contradiction |].
    exists front. repeat split; [now left |]. right. split; [| reflexivity].
    intros t' Hin Hname.
    pose proof (find_none_forall _ _ Hfind t' Hin) as Hf. simpl in Hf.
    apply String.eqb_neq in Hf. contradiction.
Qed.

Section DetectorEntry.

  Variable cv_convert_pixel : Z -> F32.t.
  Variable cv_closed_contours : ProbMap -> F32.t -> Z -> Z -> list (list (Z * Z)).
  Variable cv_boundingRect : list (Z * Z) -> Rect.
  Variable cv_mean : ProbMap -> Rect -> F32.t.

Lemma paddleocr_det_no_tensors (roi : HailoROI) (p : OcrParams) :
    roi_tensors roi = [] -> paddleocr_det cv_convert_pixel cv_closed_contours cv_boundingRect
      cv_mean roi p = Ok roi.
  Proof.
    intros H. unfold paddleocr_det, has_tensors. now rewrite H.
  Qed.

Lemma paddleocr_det_never_misses_tensor (roi : HailoROI) (p : OcrParams) :
    paddleocr_det cv_convert_pixel cv_closed_contours cv_boundingRect
      cv_mean roi p <> Raise "ROI has no tensors".
  Proof.
    unfold paddleocr_det.
    destruct (has_tensors roi) eqn:Hhas; simpl; [| discriminate].
    assert (Hne : roi_tensors roi <> []).
    { unfold has_tensors in Hhas. destruct (roi_tensors roi); congruence. }
    destruct (get_tensor_some_tensor roi (det_output_name p) Hne)
      as [t [Hget _]].
    rewrite Hget. simpl.
    destruct (resolve_hw (tensor_shape t) p) as [H W].
    unfold tensor_to_probmap_u8_as_float.
    destruct (tensor_data t) as [u8 |]; simpl; [| discriminate].
    destruct (Nat.ltb _ _); simpl; [discriminate |].
    destruct (det_rects0 _ _ _ _ _ _); discriminate.
  Qed.

  (** C4 (as amended).  [get_tensor_by_name_or_fallback] raises when the
      ROI has no tensor, and with a tensor on the ROI it returns the one
      of the configured name or else the first one.  [paddleocr_det]
      tests [has_tensors] before the lookup: on an ROI without tensors
      it returns without raising and leaves the ROI as it was, and it
      never raises the lookup's error. *)
Theorem paddleocr_det_tensor_lookup (roi : HailoROI) (p : OcrParams) :
    (roi_tensors roi = [] ->
       get_tensor_by_name_or_fallback roi (det_output_name p)
       = Raise "ROI has no tensors"
       /\ paddleocr_det cv_convert_pixel cv_closed_contours cv_boundingRect
      cv_mean roi p = Ok roi)
    /\ (roi_tensors roi <> [] ->
        exists t,
          get_tensor_by_name_or_fallback roi (det_output_name p) = Ok t
          /\ In t (roi_tensors roi)
          /\ (tensor_name t = det_output_name p
              \/ ((forall t', In t' (roi_tensors roi) ->
                              tensor_name t' <> det_output_name p)
                  /\ hd_error (roi_tensors roi) = Some t)))
    /\ paddleocr_det cv_convert_pixel cv_closed_contours cv_boundingRect
      cv_mean roi p <> Raise "ROI has no tensors".
  Proof.
    split; [| split].
    - intros H. split.
      + now apply get_tensor_no_tensors.
      + now apply paddleocr_det_no_tensors.
    - apply get_tensor_some_tensor.
    - apply paddleocr_det_never_misses_tensor.
  Qed.

End DetectorEntry.

(** C4 as stated fails on [paddleocr_det]: with no tensor on the ROI the
    configured name matches nothing and the fallback finds nothing (the
    lookup alone raises), yet [paddleocr_det] returns normally. *)
Lemma paddleocr_det_no_tensor_no_raise :
  (forall t, In t (roi_tensors roi_without_tensors) ->
             tensor_name t <> det_output_name sample_params)
  /\ get_tensor_by_name_or_fallback roi_without_tensors
       (det_output_name sample_params) = Raise "ROI has no tensors"
  /\ paddleocr_det cv_pixel_by_255 cv_no_contours cv_rect_of_first_point
       cv_mean_zero roi_without_tensors sample_params
     = Ok roi_without_tensors.
Proof. repeat split. intros t []. Qed.

(* ------------------------------------------------------------------ *)
(** ** CTC decoding *)

Lemma max_element_from_index (v : list F32.t) (best_i i : nat) (best : F32.t) :
  (best_i < i)%nat ->
  (fst (max_element_from best_i best i v) < i + List.length v)%nat.
Proof.
  revert best_i best i. induction v as [| x rest IH]; intros best_i best i Hlt; simpl.
  - lia.
  - destruct (F32.ltb best x).
    + specialize (IH i x (S i)). lia.
    + specialize (IH best_i best (S i)). lia.
Qed.

(** The position [std::max_element] returns lies inside the row. *)
Lemma max_element_in_range (row : list F32.t) (i : nat) (pmax : F32.t) :
  max_element row = Some (i, pmax) -> (i < List.length row)%nat.
Proof.
  destruct row as [| x rest]; simpl; [discriminate |].
  intros H. injection H as H.
  pose proof (max_element_from_index rest 0 1 x ltac:(lia)) as Hi.
  rewrite H in Hi. simpl in Hi. lia.
Qed.

Lemma max_element_nonempty (row : list F32.t) :
  row <> [] -> exists i pmax, max_element row = Some (i, pmax).
Proof.
  destruct row as [| x rest]; [congruence |]. intros _. simpl.
  destruct (max_element_from 0 x 1 rest) as [i pmax]. eauto.
Qed.

(** C8.  Let the arg-max class index [idx] of a timestep lie at or past
    the size [K] of the charset.  The step returns normally, without a
    fault or an exception; when the index is decoded, that is when the
    CTC rule emits it (it is neither the blank index nor the index of
    the previous timestep), the step appends the string "?" and counts
    one more character; otherwise the text is unchanged. *)
Theorem ctc_step_out_of_range (p : OcrParams) (st : ctc_state)
  (row : list F32.t) (i : nat) (pmax : F32.t)
  (Hmax : max_element row = Some (i, pmax))
  (Hrange : (List.length (charset p) <= i)%nat) :
  exists st',
    ctc_step p st row = Ok st'
    /\ prev st' = Z.of_nat i
    /\ (if ctc_emits p st (Z.of_nat i)
        then out_text st' = (out_text st ++ "?")%string
             /\ conf_sum st' = F32.add (conf_sum st) pmax
             /\ conf_count st' = conf_count st + 1
        else out_text st' = out_text st
             /\ conf_sum st' = conf_sum st
             /\ conf_count st' = conf_count st).
Proof.
  unfold ctc_step, ctc_emits. rewrite Hmax.
  destruct (negb (Z.of_nat i =? blank_index p) && negb (Z.of_nat i =? prev st)).
  - assert (Hlt : (Z.of_nat i <? Z.of_nat (List.length (charset p))) = false).
    { apply Z.ltb_ge. lia. }
    rewrite Hlt, andb_false_r.
    eexists. split; [reflexivity |]. simpl. auto.
  - eexists. split; [reflexivity |]. simpl. auto.
Qed.

Lemma ctc_step_out_of_range_witness :
  max_element (one_hot_row 4 3) = Some (3%nat, F32.one)
  /\ (List.length (charset (set_charset sample_params ["blank"; "A"; "B"]%string))
      <= 3)%nat
  /\ exists st',
       ctc_step (set_charset sample_params ["blank"; "A"; "B"]%string)
                ctc_init (one_hot_row 4 3) = Ok st'
       /\ out_text st' = "?"%string.
Proof.
  split; [reflexivity | split; [simpl; lia |]].
  destruct (ctc_step_out_of_range
              (set_charset sample_params ["blank"; "A"; "B"]%string)
              ctc_init (one_hot_row 4 3) 3%nat F32.one eq_refl
              ltac:(simpl; lia)) as [st' [Hstep [_ Hemit]]].
  exists st'. split; [exact Hstep |]. simpl in Hemit. tauto.
Defined.

(** The decode loop returns normally on every sequence of non-empty rows. *)
Lemma ctc_decode_total (p : OcrParams) (probs : list (list F32.t)) :
  Forall (fun row => row <> []) probs ->
  forall st, exists st', ctc_decode p st probs = Ok st'.
Proof.
  induction 1 as [| row rest Hrow _ IH]; intros st; simpl.
  - eauto.
  - destruct (max_element_nonempty row Hrow) as [i [pmax Hmax]].
    unfold ctc_step. rewrite Hmax.
    destruct (negb _ && negb _); simpl; apply IH.
Qed.

(* ------------------------------------------------------------------ *)
(** ** Attaching the decoded text *)

Lemma add_to_first_detection_detections (objs : list HailoObject)
  (o : HailoObject) :
  filter is_detection (add_to_first_detection objs o)
  = match filter is_detection objs with
    | [] => []
    | d :: ds => detection_add_object d o :: ds
    end.
Proof.
  induction objs as [| d rest IH]; simpl; [reflexivity |].
  destruct (is_detection d) eqn:E; simpl.
  - destruct d; simpl in *; try discriminate. reflexivity.
  - rewrite E. exact IH.
Qed.

(** What [attach_text] does to the detections of the ROI: the first one
    receives the classification when the text passes the test; nothing
    changes otherwise, and nothing changes on an ROI without detection. *)
Lemma attach_text_detections (roi : HailoROI) (text : string) (conf : F32.t) :
  get_hailo_detections (attach_text roi text conf)
  = match get_hailo_detections roi with
    | [] => []
    | d :: ds =>
        (if text_accepted text
         then detection_add_object d (ObjClassification "license_plate" text conf)
         else d) :: ds
    end.
Proof.
  unfold attach_text. fold (text_accepted text).
  destruct (text_accepted text).
  - destruct (get_hailo_detections roi) as [| d ds] eqn:E; [now rewrite E |].
    unfold get_hailo_detections in *. simpl.
    now rewrite add_to_first_detection_detections, E.
  - now destruct (get_hailo_detections roi).
Qed.

Lemma attach_text_rejected (roi : HailoROI) (conf : F32.t) :
  attach_text roi EmptyString conf = roi /\ attach_text roi " " conf = roi.
Proof. split; reflexivity. Qed.

(** C3, the code at a failing input.  The arg-max sequence space, blank,
    space decodes to a text of two spaces, which is pure whitespace; the
    test of [paddleocr_recognize] only rejects the empty text and the
    text of one space, so a [license_plate] classification whose value
    is the two spaces is attached to the first detection. *)
Theorem paddleocr_recognize_attaches_whitespace :
  paddleocr_recognize (fun x => x) roi_two_spaces loaded_params
  = Ok (mkROI unit_box unit_box
          [ObjDetection unit_box "text_region" (F32.lit 9 10)
             [ObjClassification "license_plate" "  " F32.one]]
          [spaces_tensor]).
Proof. vm_compute. reflexivity. Qed.

(* ------------------------------------------------------------------ *)
(** ** merge_horizontal_boxes *)

Lemma insert_by_x_length (r : Rect) (l : list Rect) :
  List.length (insert_by_x r l) = S (List.length l).
Proof.
  induction l as [| s rest IH]; simpl; [reflexivity |].
  destruct (rect_x s <? rect_x r); simpl; [now rewrite IH | reflexivity].
Qed.

Lemma sort_by_x_length (l : list Rect) :
  List.length (sort_by_x l) = List.length l.
Proof.
  induction l as [| r rest IH]; simpl; [reflexivity |].
  now rewrite insert_by_x_length, IH.
Qed.

Lemma insert_by_x_hd (r : Rect) (l : list Rect) (bound : Rect) :
  x_le bound r -> HdRel x_le bound l -> HdRel x_le bound (insert_by_x r l).
Proof.
  intros Hr Hl. destruct l as [| s rest]; simpl.
  - now constructor.
  - destruct (rect_x s <? rect_x r).
    + constructor. now inversion Hl.
    + now constructor.
Qed.

Lemma insert_by_x_sorted (r : Rect) (l : list Rect) :
  Sorted x_le l -> Sorted x_le (insert_by_x r l).
Proof.
  induction 1 as [| s rest Hsorted IH Hhd]; simpl.
  - repeat constructor.
  - destruct (rect_x s <? rect_x r) eqn:E.
    + constructor; [assumption |].
      apply insert_by_x_hd; [| assumption].
      apply Z.ltb_lt in E. unfold x_le. lia.
    + apply Z.ltb_ge in E.
      constructor; [now constructor |]. now constructor.
Qed.

Lemma sort_by_x_sorted (l : list Rect) : Sorted x_le (sort_by_x l).
Proof.
  induction l as [| r rest IH]; simpl; [constructor |].
  now apply insert_by_x_sorted.
Qed.

(** Sorting a sorted vector leaves it as it is. *)
Lemma sort_by_x_of_sorted (l : list Rect) : Sorted x_le l -> sort_by_x l = l.
Proof.
  induction 1 as [| r rest Hsorted IH Hhd]; simpl; [reflexivity |].
  rewrite IH. destruct Hhd as [| s rest' Hrs]; simpl; [reflexivity |].
  unfold x_le in Hrs.
  destruct (rect_x s <? rect_x r) eqn:E; [| reflexivity].
  apply Z.ltb_lt in E. lia.
Qed.

Lemma insert_by_x_perm (r : Rect) (l : list Rect) :
  Permutation (r :: l) (insert_by_x r l).
Proof.
  induction l as [| s rest IH]; simpl; [constructor; constructor |].
  destruct (rect_x s <? rect_x r).
  - apply perm_trans with (s :: r :: rest); [apply perm_swap |].
    now constructor.
  - apply Permutation_refl.
Qed.

Lemma sort_by_x_perm (l : list Rect) : Permutation l (sort_by_x l).
Proof.
  induction l as [| r l IH]; simpl; [constructor |].
  apply perm_trans with (r :: sort_by_x l); [now constructor |].
  apply insert_by_x_perm.
Qed.

Section MergeHorizontal.

  Variable max_gap_px : Z.
  Variable min_y_overlap_ratio : F32.t.


Lemma merge_run_length (rects : list Rect) :
    forall run,
      (List.length (merge_run max_gap_px min_y_overlap_ratio run rects)
       <= S (List.length rects))%nat.
  Proof.
    induction rects as [| next rest IH]; intros run; simpl; [lia |].
    destruct (mergeable max_gap_px min_y_overlap_ratio run next); simpl.
    - specialize (IH (rect_union run next)). lia.
    - specialize (IH next). lia.
  Qed.

Lemma merge_run_fixed (rects : list Rect) :
    forall run,
      chain_unmergeable max_gap_px min_y_overlap_ratio run rects ->
      merge_run max_gap_px min_y_overlap_ratio run rects = run :: rects.
  Proof.
    induction rects as [| next rest IH]; intros run H; simpl; [reflexivity |].
    destruct H as [Hno Hrest]. rewrite Hno.
    now rewrite IH.
  Qed.

Lemma merge_run_fixed_inv (rects : list Rect) :
    forall run,
      merge_run max_gap_px min_y_overlap_ratio run rects = run :: rects ->
      chain_unmergeable max_gap_px min_y_overlap_ratio run rects.
  Proof.
    induction rects as [| next rest IH]; intros run H; simpl in *; [exact I |].
   
    destruct (mergeable max_gap_px min_y_overlap_ratio run next) eqn:E.
    - pose proof (merge_run_length rest (rect_union run next)) as Hlen.
      rewrite H in Hlen. simpl in Hlen. lia.
    - split; [reflexivity |]. apply IH. now injection H.
  Qed.

Lemma rect_union_x_lower (bound : Z) (a b : Rect) :
    bound <= rect_x a -> bound <= rect_x b -> bound <= rect_x (rect_union a b).
  Proof.
    intros Ha Hb. unfold rect_union.
    destruct (rect_empty a); [assumption |].
    destruct (rect_empty b); [assumption |]. simpl. lia.
  Qed.

Lemma rect_union_x_upper (a b : Rect) :
    rect_x a <= rect_x b -> rect_x (rect_union a b) <= rect_x b.
  Proof.
    intros H. unfold rect_union.
    destruct (rect_empty a); [lia |].
    destruct (rect_empty b); [assumption |]. simpl. lia.
  Qed.

  (** The left edges of the merged rectangles are left edges or minima
      of left edges of the input: a lower bound of these is one of those. *)
Lemma merge_run_x_lower (bound : Z) (rects : list Rect) :
    forall run,
      bound <= rect_x run ->
      Forall (fun r => bound <= rect_x r) rects ->
      Forall (fun r => bound <= rect_x r)
        (merge_run max_gap_px min_y_overlap_ratio run rects).
  Proof.
    induction rects as [| next rest IH]; intros run Hrun Hall; simpl.
    - now repeat constructor.
    - inversion Hall as [| ? ? Hnext Hrest]; subst.
      destruct (mergeable max_gap_px min_y_overlap_ratio run next).
      + apply IH; [now apply rect_union_x_lower | assumption].
      + constructor; [assumption |]. now apply IH.
  Qed.

Lemma sorted_x_forall (r : Rect) (rects : list Rect) :
    Sorted x_le (r :: rects) -> Forall (fun s => rect_x r <= rect_x s) rects.
  Proof.
    intros H. apply Sorted_StronglySorted in H.
    - inversion H; subst. assumption.
    - intros a b c Hab Hbc. unfold x_le in *. lia.
  Qed.

Lemma forall_hdrel (bound : Rect) (l : list Rect) :
    Forall (fun s => rect_x bound <= rect_x s) l -> HdRel x_le bound l.
  Proof. destruct 1; constructor; assumption. Qed.

  (** The loop keeps the vector sorted by left edge. *)
Lemma merge_run_sorted (rects : list Rect) :
    forall run,
      Sorted x_le (run :: rects) ->
      Sorted x_le (merge_run max_gap_px min_y_overlap_ratio run rects).
  Proof.
    induction rects as [| next rest IH]; intros run Hs; simpl.
    - repeat constructor.
    -
      pose proof (sorted_x_forall _ _ Hs) as Hrun.
      inversion Hs as [| ? ? Htail Hhd]; subst.
      pose proof (sorted_x_forall _ _ Htail) as Hnext.
      inversion Hrun as [| ? ? Hrn Hrrest]; subst.
      destruct (mergeable max_gap_px min_y_overlap_ratio run next).
      + apply IH. inversion Htail as [| ? ? Hrest _]; subst.
        constructor; [assumption |]. apply forall_hdrel.
        apply Forall_forall. intros s Hin.
        rewrite Forall_forall in Hnext.
        pose proof (rect_union_x_upper run next Hrn). specialize (Hnext s Hin). lia.
      + constructor; [now apply IH |].
        apply forall_hdrel. apply merge_run_x_lower; [assumption |].
        apply Forall_forall. intros s Hin.
        rewrite Forall_forall in Hnext. specialize (Hnext s Hin). lia.
  Qed.

Lemma merge_horizontal_boxes_sorted (rects : list Rect) :
    (2 <= List.length rects)%nat ->
    Sorted x_le (merge_horizontal_boxes rects max_gap_px min_y_overlap_ratio).
  Proof.
    intros Hlen. unfold merge_horizontal_boxes.
    destruct rects as [| a [| b rest]]; simpl in Hlen; try lia.
    pose proof (sort_by_x_sorted (a :: b :: rest)) as Hs.
    destruct (sort_by_x (a :: b :: rest)) as [| run tail]; [constructor |].
    now apply merge_run_sorted.
  Qed.

Lemma merge_horizontal_boxes_length (rects : list Rect) :
    (List.length (merge_horizontal_boxes rects max_gap_px min_y_overlap_ratio)
     <= List.length rects)%nat.
  Proof.
    unfold merge_horizontal_boxes.
    destruct rects as [| a [| b rest]]; [simpl; lia | simpl; lia |].
    pose proof (sort_by_x_length (a :: b :: rest)) as Hlen.
    destruct (sort_by_x (a :: b :: rest)) as [| run tail]; [simpl; lia |].
    pose proof (merge_run_length tail run) as H.
    simpl in Hlen. simpl. lia.
  Qed.

  (** On a sorted vector the function is the loop. *)
Lemma merge_horizontal_boxes_of_sorted (out : list Rect) :
    Sorted x_le out ->
    merge_horizontal_boxes out max_gap_px min_y_overlap_ratio = match out with
                | [] => []
                | run :: rest => merge_run max_gap_px min_y_overlap_ratio run rest
                end.
  Proof.
    intros Hs. unfold merge_horizontal_boxes.
    destruct out as [| a [| b rest]]; [reflexivity | reflexivity |].
    now rewrite (sort_by_x_of_sorted _ Hs).
  Qed.

Lemma merge_output_sorted (rects : list Rect) :
    (2 <= List.length rects)%nat \/ Sorted x_le rects ->
    Sorted x_le (merge_horizontal_boxes rects max_gap_px min_y_overlap_ratio).
  Proof.
    intros [Hlen | Hs]; [now apply merge_horizontal_boxes_sorted |].
    rewrite (merge_horizontal_boxes_of_sorted _ Hs).
    destruct rects as [| run rest]; [constructor |]. now apply merge_run_sorted.
  Qed.

End MergeHorizontal.

(* ------------------------------------------------------------------ *)
(** ** Horizontal merge under any sort *)

Lemma merge_horizontal_boxes_by_stable (rects : list Rect) (max_gap_px : Z)
  (min_y_overlap_ratio : F32.t) :
  merge_horizontal_boxes_by sort_by_x rects max_gap_px min_y_overlap_ratio
  = merge_horizontal_boxes rects max_gap_px min_y_overlap_ratio.
Proof. reflexivity. Qed.

Lemma sort_by_x_std : std_sort_by_x sort_by_x.
Proof. intros l. split; [apply sort_by_x_perm | apply sort_by_x_sorted]. Qed.

Lemma sorted_x_head_least (a : Rect) (l : list Rect) :
  Sorted x_le (a :: l) -> forall b, In b (a :: l) -> rect_x a <= rect_x b.
Proof.
  intros Hs b [<- | Hb]; [lia |].
  pose proof (sorted_x_forall a l Hs) as Hall.
  rewrite Forall_forall in Hall. exact (Hall b Hb).
Qed.

Lemma distinct_x_same (l : list Rect) (a b : Rect) :
  distinct_x l -> In a l -> In b l -> rect_x a = rect_x b -> a = b.
Proof.
  unfold distinct_x. induction l as [| c l IH]; intros Hnd Ha Hb E;
    [contradiction |].
  cbn [map] in Hnd. apply NoDup_cons_iff in Hnd. destruct Hnd as [Hc Hnd].
  destruct Ha as [<- | Ha]; destruct Hb as [<- | Hb].
  - reflexivity.
  - exfalso. apply Hc. rewrite E. now apply in_map.
  - exfalso. apply Hc. rewrite <- E. now apply in_map.
  - now apply IH.
Qed.

(** With pairwise distinct [x] there is one arrangement in order of
    [x]: every sort returns it. *)
Lemma sorted_x_unique (l : list Rect) :
  forall l',
    Sorted x_le l -> distinct_x l -> Permutation l l' -> Sorted x_le l' ->
    l' = l.
Proof.
  induction l as [| a l IH]; intros l' Hs Hnd Hperm Hs'.
  - apply Permutation_nil in Hperm. exact Hperm.
  - destruct l' as [| b l'].
    { apply Permutation_sym, Permutation_nil in Hperm. discriminate. }
    assert (Hb : In b (a :: l)).
    { apply (Permutation_in b (Permutation_sym Hperm)). now left. }
    assert (Ha : In a (b :: l')).
    { apply (Permutation_in a Hperm). now left. }
    pose proof (sorted_x_head_least a l Hs b Hb) as H1.
    pose proof (sorted_x_head_least b l' Hs' a Ha) as H2.
    assert (E : a = b).
    { apply (distinct_x_same (a :: l) a b Hnd); [now left | exact Hb | lia]. }
    subst b. f_equal.
    apply IH.
    + now inversion Hs.
    + unfold distinct_x in *. cbn [map] in Hnd. now inversion Hnd.
    + exact (Permutation_cons_inv Hperm).
    + now inversion Hs'.
Qed.

Section MergeAnySort.

  Variable sort : list Rect -> list Rect.
  Hypothesis sort_std : std_sort_by_x sort.
  Variable max_gap_px : Z.
  Variable min_y_overlap_ratio : F32.t.

Lemma merge_by_length (rects : list Rect) :
    (List.length
       (merge_horizontal_boxes_by sort rects max_gap_px min_y_overlap_ratio)
     <= List.length rects)%nat.
  Proof.
    unfold merge_horizontal_boxes_by.
    destruct rects as [| a [| b rest]]; [simpl; lia | simpl; lia |].
    destruct (sort_std (a :: b :: rest)) as [Hperm _].
    apply Permutation_length in Hperm.
    destruct (sort (a :: b :: rest)) as [| run others]; [simpl; lia |].
    pose proof (merge_run_length max_gap_px min_y_overlap_ratio others run).
    simpl in *. lia.
  Qed.

Lemma merge_by_sorted (rects : list Rect) :
    Sorted x_le
      (merge_horizontal_boxes_by sort rects max_gap_px min_y_overlap_ratio).
  Proof.
    unfold merge_horizontal_boxes_by.
    destruct rects as [| a [| b rest]]; [constructor | repeat constructor |].
    destruct (sort_std (a :: b :: rest)) as [_ Hs].
    destruct (sort (a :: b :: rest)) as [| run others]; [constructor |].
    now apply merge_run_sorted.
  Qed.

Lemma merge_by_of_distinct (out : list Rect) :
    Sorted x_le out -> distinct_x out ->
    merge_horizontal_boxes_by sort out max_gap_px min_y_overlap_ratio
    = match out with
      | [] => []
      | run :: rest => merge_run max_gap_px min_y_overlap_ratio run rest
      end.
  Proof.
    intros Hs Hnd. unfold merge_horizontal_boxes_by.
    destruct out as [| a [| b rest]]; [reflexivity | reflexivity |].
    destruct (sort_std (a :: b :: rest)) as [Hperm Hs'].
    now rewrite (sorted_x_unique _ _ Hs Hnd Hperm Hs').
  Qed.

Lemma merge_run_shrinks (rects : list Rect) :
    forall run,
      ~ chain_unmergeable max_gap_px min_y_overlap_ratio run rects ->
      (List.length (merge_run max_gap_px min_y_overlap_ratio run rects)
       <= List.length rects)%nat.
  Proof.
    induction rects as [| next rest IH]; intros run Hno; cbn [merge_run].
    - exfalso. apply Hno. exact I.
    - destruct (mergeable max_gap_px min_y_overlap_ratio run next) eqn:E.
      + apply (merge_run_length max_gap_px min_y_overlap_ratio rest).
      + cbn [List.length]. apply le_n_S. apply IH. intros Hrest.
        apply Hno. split; assumption.
  Qed.

  (** C5 (as amended).  Whatever order [std::sort] gives to rectangles
      of equal [x]: the output of [merge_horizontal_boxes] has no more
      rectangles than its input and is in order of [x].  When the [x] of
      its rectangles are pairwise distinct, running the function again
      on the output returns that output exactly when no rectangle of the
      output passes the merge test with its left neighbour; otherwise
      the second run returns fewer rectangles. *)
Theorem merge_horizontal_boxes_again (rects : list Rect) :
    (List.length
       (merge_horizontal_boxes_by sort rects max_gap_px min_y_overlap_ratio)
     <= List.length rects)%nat
    /\ Sorted x_le
         (merge_horizontal_boxes_by sort rects max_gap_px min_y_overlap_ratio)
    /\ (distinct_x
          (merge_horizontal_boxes_by sort rects max_gap_px min_y_overlap_ratio) ->
        (merge_horizontal_boxes_by sort
           (merge_horizontal_boxes_by sort rects max_gap_px min_y_overlap_ratio)
           max_gap_px min_y_overlap_ratio
         = merge_horizontal_boxes_by sort rects max_gap_px min_y_overlap_ratio
         <-> neighbours_unmergeable max_gap_px min_y_overlap_ratio
               (merge_horizontal_boxes_by sort rects max_gap_px
                  min_y_overlap_ratio))
        /\ (~ neighbours_unmergeable max_gap_px min_y_overlap_ratio
                (merge_horizontal_boxes_by sort rects max_gap_px
                   min_y_overlap_ratio) ->
            (List.length
               (merge_horizontal_boxes_by sort
                  (merge_horizontal_boxes_by sort rects max_gap_px
                     min_y_overlap_ratio)
                  max_gap_px min_y_overlap_ratio)
             < List.length
                 (merge_horizontal_boxes_by sort rects max_gap_px
                    min_y_overlap_ratio))%nat)).
  Proof.
    split; [apply merge_by_length |]. split; [apply merge_by_sorted |].
    intros Hnd.
    rewrite (merge_by_of_distinct _ (merge_by_sorted rects) Hnd).
    destruct (merge_horizontal_boxes_by sort rects max_gap_px
                min_y_overlap_ratio) as [| run rest]; cbn [neighbours_unmergeable].
    - split; [tauto |]. intros Hno. exfalso. apply Hno. exact I.
    - split.
      + split; [apply merge_run_fixed_inv | apply merge_run_fixed].
      + intros Hno. cbn [List.length]. apply Nat.lt_succ_r.
        now apply merge_run_shrinks.
  Qed.

End MergeAnySort.

Lemma merge_horizontal_boxes_again_witness :
  (List.length
     (merge_horizontal_boxes_by sort_by_x three_boxes 3 (F32.lit 45 100))
   <= List.length three_boxes)%nat
  /\ Sorted x_le
       (merge_horizontal_boxes_by sort_by_x three_boxes 3 (F32.lit 45 100))
  /\ (distinct_x
        (merge_horizontal_boxes_by sort_by_x three_boxes 3 (F32.lit 45 100)) ->
      (merge_horizontal_boxes_by sort_by_x
         (merge_horizontal_boxes_by sort_by_x three_boxes 3 (F32.lit 45 100))
         3 (F32.lit 45 100)
       = merge_horizontal_boxes_by sort_by_x three_boxes 3 (F32.lit 45 100)
       <-> neighbours_unmergeable 3 (F32.lit 45 100)
             (merge_horizontal_boxes_by sort_by_x three_boxes 3
                (F32.lit 45 100)))
      /\ (~ neighbours_unmergeable 3 (F32.lit 45 100)
              (merge_horizontal_boxes_by sort_by_x three_boxes 3
                 (F32.lit 45 100)) ->
          (List.length
             (merge_horizontal_boxes_by sort_by_x
                (merge_horizontal_boxes_by sort_by_x three_boxes 3
                   (F32.lit 45 100))
                3 (F32.lit 45 100))
           < List.length
               (merge_horizontal_boxes_by sort_by_x three_boxes 3
                  (F32.lit 45 100)))%nat)).
Proof.
  exact (merge_horizontal_boxes_again sort_by_x sort_by_x_std 3
           (F32.lit 45 100) three_boxes).
Defined.

Lemma three_boxes_sorted_distinct :
  Sorted x_le three_boxes /\ distinct_x three_boxes
  /\ Sorted x_le [mkRect 0 0 10 10; mkRect 12 5 11 20]
  /\ distinct_x [mkRect 0 0 10 10; mkRect 12 5 11 20].
Proof.
  unfold distinct_x, three_boxes, x_le. cbn [map rect_x].
  repeat split;
    repeat first [ apply NoDup_nil
                 | apply NoDup_cons; [simpl; intuition lia |]
                 | apply Sorted_nil | apply HdRel_nil
                 | apply Sorted_cons
                 | apply HdRel_cons; cbn [rect_x]; lia ].
Qed.

(** C5 as stated fails, whatever [std::sort] does with equal [x]: the
    three rectangles have distinct [x]; the first run merges [B] with
    [C] only, and on its output the second run merges the two
    rectangles left. *)
Lemma merge_horizontal_boxes_not_idempotent :
  merge_horizontal_boxes three_boxes 3 (F32.lit 45 100)
  = [mkRect 0 0 10 10; mkRect 12 5 11 20]
  /\ merge_horizontal_boxes
       (merge_horizontal_boxes three_boxes 3 (F32.lit 45 100))
       3 (F32.lit 45 100)
     = [mkRect 0 0 23 25]
  /\ (forall sort,
        std_sort_by_x sort ->
        merge_horizontal_boxes_by sort three_boxes 3 (F32.lit 45 100)
        = [mkRect 0 0 10 10; mkRect 12 5 11 20]
        /\ merge_horizontal_boxes_by sort
             [mkRect 0 0 10 10; mkRect 12 5 11 20] 3 (F32.lit 45 100)
           = [mkRect 0 0 23 25]).
Proof.
  split; [reflexivity |]. split; [reflexivity |].
  intros sort Hstd.
  destruct three_boxes_sorted_distinct as [Hs3 [Hd3 [Hs2 Hd2]]].
  rewrite (merge_by_of_distinct sort Hstd 3 (F32.lit 45 100) _ Hs3 Hd3).
  rewrite (merge_by_of_distinct sort Hstd 3 (F32.lit 45 100) _ Hs2 Hd2).
  split; reflexivity.
Qed.

Lemma insert_after_x_perm (r : Rect) (l : list Rect) :
  Permutation (r :: l) (insert_after_x r l).
Proof.
  induction l as [| s rest IH]; simpl; [constructor; constructor |].
  destruct (rect_x s <=? rect_x r).
  - apply perm_trans with (s :: r :: rest); [apply perm_swap |].
    now constructor.
  - apply Permutation_refl.
Qed.

Lemma insert_after_x_hd (r : Rect) (l : list Rect) (bound : Rect) :
  x_le bound r -> HdRel x_le bound l -> HdRel x_le bound (insert_after_x r l).
Proof.
  intros Hr Hl. destruct l as [| s rest]; simpl; [now constructor |].
  destruct (rect_x s <=? rect_x r); constructor; [| assumption].
  now inversion Hl.
Qed.

Lemma insert_after_x_sorted (r : Rect) (l : list Rect) :
  Sorted x_le l -> Sorted x_le (insert_after_x r l).
Proof.
  induction 1 as [| s rest Hs IH Hhd]; simpl; [repeat constructor |].
  destruct (rect_x s <=? rect_x r) eqn:E.
  - apply Z.leb_le in E. constructor; [exact IH |].
    now apply insert_after_x_hd.
  - apply Z.leb_gt in E. constructor; [now constructor |].
    constructor. unfold x_le. lia.
Qed.

Lemma sort_by_x_ties_reversed_std : std_sort_by_x sort_by_x_ties_reversed.
Proof.
  intros l. unfold sort_by_x_ties_reversed. split.
  - induction l as [| r l IH]; simpl; [constructor |].
    apply perm_trans with (r :: fold_right insert_after_x [] l);
      [now constructor | apply insert_after_x_perm].
  - induction l as [| r l IH]; simpl; [constructor |].
    now apply insert_after_x_sorted.
Qed.

(** With equal [x] the second run depends on the sort.  Under a sort
    that reverses rectangles of equal [x], no rectangle of the first
    output passes the merge test with its left neighbour, and yet the
    second run, which sees the last two in the other order, merges the
    first with the one that now follows it. *)
Lemma merge_horizontal_boxes_equal_x :
  merge_horizontal_boxes_by sort_by_x_ties_reversed tied_boxes 3 (F32.lit 45 100)
  = [mkRect 0 0 10 10; mkRect 12 20 5 5; mkRect 12 0 5 10]
  /\ neighbours_unmergeable 3 (F32.lit 45 100)
       [mkRect 0 0 10 10; mkRect 12 20 5 5; mkRect 12 0 5 10]
  /\ merge_horizontal_boxes_by sort_by_x_ties_reversed
       [mkRect 0 0 10 10; mkRect 12 20 5 5; mkRect 12 0 5 10]
       3 (F32.lit 45 100)
     = [mkRect 0 0 17 10; mkRect 12 20 5 5].
Proof.
  cbn [neighbours_unmergeable chain_unmergeable]. repeat split; reflexivity.
Qed.

(* ------------------------------------------------------------------ *)
(** ** Iterative unclip *)

Lemma rect_eqb_eq (a b : Rect) : rect_eqb a b = true <-> a = b.
Proof.
  unfold rect_eqb. rewrite !andb_true_iff, !Z.eqb_eq.
  destruct a, b; simpl. split.
  - intros [[[-> ->] ->] ->]. reflexivity.
  - intros H. injection H as -> -> -> ->. auto.
Qed.

(** One growth step followed by the clamp, on a rectangle inside the
    image: the result is inside the image and is the rectangle grown by
    at most the deltas. *)
Lemma clamp_grow_step (W H : Z) (r : Rect) (dx dy : Z) :
  inside W H r -> 0 <= dx -> 0 <= dy ->
  inside W H (clamp_rect W H (grow_rect r dx dy))
  /\ grown_within r (clamp_rect W H (grow_rect r dx dy)) dx dy.
Proof.
  unfold inside, grown_within, clamp_rect, grow_rect.
  cbn [rect_x rect_y rect_width rect_height].
  intros [Hw [Hh [Hx [Hy [Hxw Hyh]]]]] Hdx Hdy.
  repeat split; lia.
Qed.

Lemma grown_within_refl (r : Rect) : grown_within r r 0 0.
Proof. unfold grown_within. lia. Qed.

Lemma grown_within_trans (r0 r1 r2 : Rect) (gx gy dx dy : Z) :
  grown_within r0 r1 gx gy -> grown_within r1 r2 dx dy ->
  grown_within r0 r2 (gx + dx) (gy + dy).
Proof. unfold grown_within. lia. Qed.

Lemma grown_within_weaken (r0 r : Rect) (gx gy gx' gy' : Z) :
  grown_within r0 r gx gy -> gx <= gx' -> gy <= gy' ->
  grown_within r0 r gx' gy'.
Proof. unfold grown_within. lia. Qed.

(** The clamp leaves only the whole image unchanged after a growth. *)
Lemma clamp_grow_fixed (W H : Z) (r : Rect) (d : Z) :
  inside W H r -> 1 <= d ->
  (clamp_rect W H (grow_rect r d d) = r <-> r = mkRect 0 0 W H).
Proof.
  unfold inside, clamp_rect, grow_rect. destruct r as [x y w h].
  cbn [rect_x rect_y rect_width rect_height].
  intros [Hw [Hh [Hx [Hy [Hxw Hyh]]]]] Hd. split.
  - intros E.
    pose proof (f_equal rect_x E) as Ex. pose proof (f_equal rect_y E) as Ey.
    pose proof (f_equal rect_width E) as Ew.
    pose proof (f_equal rect_height E) as Eh.
    cbn [rect_x rect_y rect_width rect_height] in Ex, Ey, Ew, Eh.
    f_equal; lia.
  - intros E.
    pose proof (f_equal rect_x E) as Ex. pose proof (f_equal rect_y E) as Ey.
    pose proof (f_equal rect_width E) as Ew.
    pose proof (f_equal rect_height E) as Eh.
    cbn [rect_x rect_y rect_width rect_height] in Ex, Ey, Ew, Eh.
    f_equal; lia.
Qed.

(** The two relations are functions of the start: a run has one
    result. *)
Lemma iso_grows_unique (ratio : F32.t) (W H cap : Z) (n : nat) (r : Rect)
  (used : Z) (out1 out2 : Rect) :
  iso_grows ratio W H cap n r used out1 ->
  iso_grows ratio W H cap n r used out2 -> out1 = out2.
Proof.
  intros H1. revert out2.
  induction H1 as [r used | n r used Hcap | n r used Hcap Hsame
                   | n r used out Hcap Hdiff Hrun IH];
    intros out2 H2; inversion H2; subst;
    try reflexivity; try lia; try contradiction; try congruence.
  now apply IH.
Qed.

Lemma aniso_grows_unique (ratio_x ratio_y : F32.t) (W H cap_x cap_y : Z)
  (n : nat) (r : Rect) (used_x used_y : Z) (out1 out2 : Rect) :
  aniso_grows ratio_x ratio_y W H cap_x cap_y n r used_x used_y out1 ->
  aniso_grows ratio_x ratio_y W H cap_x cap_y n r used_x used_y out2 ->
  out1 = out2.
Proof.
  intros H1. revert out2.
  induction H1 as [r used_x used_y | n r used_x used_y Hx Hy
                   | n r used_x used_y out Hroom Hrun IH];
    intros out2 H2; inversion H2; subst; try reflexivity; try lia.
  now apply IH.
Qed.

Section Unclip.

Variable W H : Z.

(** The loop of [db_unclip_rect_iter] keeps the rectangle inside the
    image and the deltas it applies sum to at most the cap. *)
Lemma unclip_iter_loop_invariant (ratio_step : F32.t) (MAX_GROW : Z)
  (r0 : Rect) (iters : nat) :
  forall (r : Rect) (total : Z),
    inside W H r -> grown_within r0 r total total ->
    0 <= total <= MAX_GROW ->
    inside W H (unclip_iter_loop ratio_step W H MAX_GROW iters r total total)
    /\ grown_within r0
         (unclip_iter_loop ratio_step W H MAX_GROW iters r total total)
         MAX_GROW MAX_GROW.
Proof.
  induction iters as [| n IH]; intros r total Hin Hg Ht;
    cbn [unclip_iter_loop].
  - split; [assumption |]. apply (grown_within_weaken _ _ _ _ _ _ Hg); lia.
  - set (d := Z.max 1 (unclip_delta r ratio_step)).
    assert (Hstay : inside W H r /\ grown_within r0 r MAX_GROW MAX_GROW).
    { split; [assumption |]. apply (grown_within_weaken _ _ _ _ _ _ Hg); lia. }
    destruct (MAX_GROW <? total + d) eqn:Ecap; cbn [orb]; [exact Hstay |].
    apply Z.ltb_ge in Ecap.
    destruct (rect_eqb (clamp_rect W H (grow_rect r d d)) r); [exact Hstay |].
    destruct (clamp_grow_step W H r d d Hin) as [Hin' Hg']; [lia | lia |].
    apply IH; [assumption | | lia].
    exact (grown_within_trans _ _ _ _ _ _ _ Hg Hg').
Qed.

(** The loop of [db_unclip_rect_iter_aniso]: the deltas it applies along
    each axis sum to at most the cap of that axis. *)
Lemma unclip_aniso_loop_invariant (ratio_x ratio_y : F32.t) (max_gx max_gy : Z)
  (r0 : Rect) (iters : nat) :
  forall (r : Rect) (accx accy : Z),
    inside W H r -> grown_within r0 r accx accy ->
    0 <= accx <= max_gx -> 0 <= accy <= max_gy ->
    inside W H (unclip_aniso_loop ratio_x ratio_y W H max_gx max_gy iters
                  r accx accy)
    /\ grown_within r0
         (unclip_aniso_loop ratio_x ratio_y W H max_gx max_gy iters r accx accy)
         max_gx max_gy.
Proof.
  induction iters as [| n IH]; intros r accx accy Hin Hg Hx Hy;
    cbn [unclip_aniso_loop].
  - split; [assumption |]. apply (grown_within_weaken _ _ _ _ _ _ Hg); lia.
  - set (dx := Z.min (Z.max 1 (unclip_delta r ratio_x)) (Z.max 0 (max_gx - accx))).
    set (dy := Z.min (Z.max 1 (unclip_delta r ratio_y)) (Z.max 0 (max_gy - accy))).
    destruct ((dx =? 0) && (dy =? 0)).
    + split; [assumption |]. apply (grown_within_weaken _ _ _ _ _ _ Hg); lia.
    + destruct (clamp_grow_step W H r dx dy Hin) as [Hin' Hg'];
        [unfold dx; lia | unfold dy; lia |].
      apply IH; [assumption | | unfold dx; lia | unfold dy; lia].
      exact (grown_within_trans _ _ _ _ _ _ _ Hg Hg').
Qed.

Lemma grown_within_antisym (a b : Rect) (gx gy gx' gy' : Z) :
  grown_within a b gx gy -> grown_within b a gx' gy' -> a = b.
Proof.
  unfold grown_within. destruct a as [xa ya wa ha], b as [xb yb wb hb].
  cbn [rect_x rect_y rect_width rect_height]. intros Hab Hba. f_equal; lia.
Qed.

(** A growth step with deltas of one pixel at least changes every
    rectangle but the whole image. *)
Lemma clamp_grow_changes (r : Rect) (dx dy : Z) :
  inside W H r -> 1 <= dx -> 1 <= dy ->
  (clamp_rect W H (grow_rect r dx dy) = r <-> r = mkRect 0 0 W H).
Proof.
  unfold inside, clamp_rect, grow_rect. destruct r as [x y w h].
  cbn [rect_x rect_y rect_width rect_height].
  intros [Hw [Hh [Hx [Hy [Hxw Hyh]]]]] Hdx Hdy. split.
  - intros E.
    pose proof (f_equal rect_x E) as Ex. pose proof (f_equal rect_y E) as Ey.
    pose proof (f_equal rect_width E) as Ew.
    pose proof (f_equal rect_height E) as Eh.
    cbn [rect_x rect_y rect_width rect_height] in Ex, Ey, Ew, Eh.
    f_equal; lia.
  - intros E.
    pose proof (f_equal rect_x E) as Ex. pose proof (f_equal rect_y E) as Ey.
    pose proof (f_equal rect_width E) as Ew.
    pose proof (f_equal rect_height E) as Eh.
    cbn [rect_x rect_y rect_width rect_height] in Ex, Ey, Ew, Eh.
    f_equal; lia.
Qed.

Lemma step_delta_pos (r : Rect) (ratio : F32.t) : 1 <= step_delta r ratio.
Proof. unfold step_delta. lia. Qed.

(** The loop of [db_unclip_rect_iter] runs as the claim says. *)
Lemma unclip_iter_loop_grows (ratio_step : F32.t) (cap : Z) (iters : nat) :
  forall (r : Rect) (total : Z),
    iso_grows ratio_step W H cap iters r total
      (unclip_iter_loop ratio_step W H cap iters r total total).
Proof.
  induction iters as [| n IH]; intros r total; cbn [unclip_iter_loop].
  - constructor.
  - fold (step_delta r ratio_step).
    destruct (cap <? total + step_delta r ratio_step) eqn:Ecap; cbn [orb].
    + apply iso_cap_reached. now apply Z.ltb_lt.
    + apply Z.ltb_ge in Ecap.
      destruct (rect_eqb (clamp_rect W H
                            (grow_rect r (step_delta r ratio_step)
                                         (step_delta r ratio_step))) r) eqn:E.
      * apply iso_no_change; [exact Ecap | now apply rect_eqb_eq].
      * apply iso_grow; [exact Ecap | | apply IH].
        intros E'. apply rect_eqb_eq in E'. congruence.
Qed.

Lemma unclip_aniso_loop_grows (ratio_x ratio_y : F32.t) (cap_x cap_y : Z)
  (iters : nat) :
  forall (r : Rect) (accx accy : Z),
    aniso_grows ratio_x ratio_y W H cap_x cap_y iters r accx accy
      (unclip_aniso_loop ratio_x ratio_y W H cap_x cap_y iters r accx accy).
Proof.
  induction iters as [| n IH]; intros r accx accy; cbn [unclip_aniso_loop].
  - constructor.
  - fold (step_delta r ratio_x). fold (step_delta r ratio_y).
    fold (cut_delta r ratio_x cap_x accx). fold (cut_delta r ratio_y cap_y accy).
    pose proof (step_delta_pos r ratio_x) as Px.
    pose proof (step_delta_pos r ratio_y) as Py.
    destruct ((cut_delta r ratio_x cap_x accx =? 0)
              && (cut_delta r ratio_y cap_y accy =? 0)) eqn:E.
    + apply andb_true_iff in E. destruct E as [Ex Ey].
      apply Z.eqb_eq in Ex, Ey. unfold cut_delta in Ex, Ey.
      apply aniso_no_room; lia.
    + apply aniso_grow; [| apply IH].
      apply andb_false_iff in E. unfold cut_delta in E.
      destruct E as [E | E]; apply Z.eqb_neq in E; lia.
Qed.

(** Once a step was taken the result is not the rectangle the loop
    started from. *)
Lemma unclip_iter_loop_moved (ratio_step : F32.t) (cap : Z) (iters : nat)
  (r r1 : Rect) (d : Z) :
  inside W H r -> 1 <= d -> d <= cap ->
  r1 = clamp_rect W H (grow_rect r d d) -> r1 <> r ->
  grown_within r1 (unclip_iter_loop ratio_step W H cap iters r1 d d) cap cap
  /\ unclip_iter_loop ratio_step W H cap iters r1 d d <> r.
Proof.
  intros Hin Hd Hcap -> Hne.
  destruct (clamp_grow_step W H r d d Hin ltac:(lia) ltac:(lia)) as [Hin1 Hg1].
  set (r1 := clamp_rect W H (grow_rect r d d)) in *.
  assert (Hself : grown_within r1 r1 d d)
    by (apply (grown_within_weaken _ _ _ _ _ _ (grown_within_refl r1)); lia).
  destruct (unclip_iter_loop_invariant ratio_step cap r1 iters r1 d Hin1 Hself
              ltac:(lia)) as [_ Hg].
  split; [exact Hg |]. intros E. rewrite E in Hg.
  apply Hne. symmetry. exact (grown_within_antisym _ _ _ _ _ _ Hg1 Hg).
Qed.

Lemma unclip_aniso_loop_moved (ratio_x ratio_y : F32.t) (cap_x cap_y : Z)
  (iters : nat) (r r1 : Rect) (dx dy : Z) :
  inside W H r -> 1 <= dx -> 1 <= dy -> dx <= cap_x -> dy <= cap_y ->
  r1 = clamp_rect W H (grow_rect r dx dy) -> r1 <> r ->
  grown_within r1
    (unclip_aniso_loop ratio_x ratio_y W H cap_x cap_y iters r1 dx dy)
    cap_x cap_y
  /\ unclip_aniso_loop ratio_x ratio_y W H cap_x cap_y iters r1 dx dy <> r.
Proof.
  intros Hin Hdx Hdy Hcx Hcy -> Hne.
  destruct (clamp_grow_step W H r dx dy Hin ltac:(lia) ltac:(lia))
    as [Hin1 Hg1].
  set (r1 := clamp_rect W H (grow_rect r dx dy)) in *.
  assert (Hself : grown_within r1 r1 dx dy)
    by (apply (grown_within_weaken _ _ _ _ _ _ (grown_within_refl r1)); lia).
  destruct (unclip_aniso_loop_invariant ratio_x ratio_y cap_x cap_y r1 iters
              r1 dx dy Hin1 Hself ltac:(lia) ltac:(lia)) as [_ Hg].
  split; [exact Hg |]. intros E. rewrite E in Hg.
  apply Hne. symmetry. exact (grown_within_antisym _ _ _ _ _ _ Hg1 Hg).
Qed.

Lemma unclip_aniso_loop_whole (ratio_x ratio_y : F32.t) (cap_x cap_y : Z)
  (iters : nat) :
  1 <= W -> 1 <= H ->
  forall accx accy,
    unclip_aniso_loop ratio_x ratio_y W H cap_x cap_y iters (mkRect 0 0 W H)
      accx accy
    = mkRect 0 0 W H.
Proof.
  intros HW HH. induction iters as [| n IH]; intros accx accy;
    cbn [unclip_aniso_loop]; [reflexivity |].
  destruct (_ && _); [reflexivity |].
  set (dx := Z.min _ (Z.max 0 (cap_x - accx))).
  set (dy := Z.min _ (Z.max 0 (cap_y - accy))).
  assert (E : clamp_rect W H (grow_rect (mkRect 0 0 W H) dx dy)
              = mkRect 0 0 W H).
  { unfold clamp_rect, grow_rect. cbn [rect_x rect_y rect_width rect_height].
    assert (0 <= dx) by (unfold dx; lia). assert (0 <= dy) by (unfold dy; lia).
    f_equal; lia. }
  rewrite E. apply IH.
Qed.

(** C9 (as amended).  Take a non-empty rectangle inside the [W] by [H]
    image.  Both functions return a rectangle inside the image that
    contains the input, and both run as the amended claim says
    ([iso_grows], [aniso_grows]): each iteration grows the rectangle by
    the delta [max(1, round(ratio * area / perimeter))] and clamps it.
    [db_unclip_rect_iter] uses the same delta on every side; the deltas
    sum to at most [max(1, round(max(W, H) * max_grow_frac))]; it stops
    when the next delta would pass that cap and when a step changes
    nothing.  It returns its argument exactly when no iteration is
    asked for, when the first delta passes the cap, or when the
    argument is the whole image; otherwise the result contains the
    rectangle of the first step.  [db_unclip_rect_iter_aniso] has one
    cap per axis, [max(1, round(W * max_grow_frac_x))] and
    [max(1, round(H * max_grow_frac_y))]; a delta that would pass a cap
    is cut to the room left, and the loop stops only when no room is
    left on both axes.  It returns its argument exactly when no
    iteration is asked for or the argument is the whole image. *)
Theorem db_unclip_rect_growth (r : Rect) (iters : Z) (Hin : inside W H r) :
  (forall ratio_step max_grow_frac,
      let out := db_unclip_rect_iter r ratio_step iters W H max_grow_frac in
      let cap := iter_cap W H max_grow_frac in
      let d := step_delta r ratio_step in
      inside W H out
      /\ grown_within r out cap cap
      /\ iso_grows ratio_step W H cap (Z.to_nat iters) r 0 out
      /\ (out = r <-> iters <= 0 \/ cap < d \/ r = mkRect 0 0 W H)
      /\ (0 < iters -> d <= cap ->
          grown_within (clamp_rect W H (grow_rect r d d)) out cap cap))
  /\ (forall ratio_x ratio_y max_grow_frac_x max_grow_frac_y,
         let out := db_unclip_rect_iter_aniso r ratio_x ratio_y iters W H
                      max_grow_frac_x max_grow_frac_y in
         let cap_x := aniso_cap W max_grow_frac_x in
         let cap_y := aniso_cap H max_grow_frac_y in
         let dx := cut_delta r ratio_x cap_x 0 in
         let dy := cut_delta r ratio_y cap_y 0 in
         inside W H out
         /\ grown_within r out cap_x cap_y
         /\ aniso_grows ratio_x ratio_y W H cap_x cap_y (Z.to_nat iters)
              r 0 0 out
         /\ (out = r <-> iters <= 0 \/ r = mkRect 0 0 W H)
         /\ (0 < iters ->
             grown_within (clamp_rect W H (grow_rect r dx dy)) out cap_x cap_y)).
Proof.
  assert (Hpos := Hin). destruct Hpos as [Hw [Hh [Hx [Hy [Hxw Hyh]]]]].
  assert (HW : 1 <= W) by lia. assert (HH : 1 <= H) by lia.
  assert (Ew : (rect_width r <=? 0) = false) by (apply Z.leb_gt; lia).
  assert (Eh : (rect_height r <=? 0) = false) by (apply Z.leb_gt; lia).
  split.
  - intros ratio_step max_grow_frac out cap d. subst out.
    unfold db_unclip_rect_iter. rewrite Ew, Eh. cbn [orb].
    fold (iter_cap W H max_grow_frac). fold cap.
    assert (Hcap : 1 <= cap) by (unfold cap, iter_cap; lia).
    assert (Hd : 1 <= d) by apply step_delta_pos.
    destruct (unclip_iter_loop_invariant ratio_step cap r (Z.to_nat iters) r 0
                Hin (grown_within_refl r) ltac:(lia)) as [Hi Hg].
    split; [exact Hi |]. split; [exact Hg |].
    split; [apply unclip_iter_loop_grows |].
    assert (Hstep : 0 < iters -> d <= cap ->
              clamp_rect W H (grow_rect r d d) <> r ->
              unclip_iter_loop ratio_step W H cap (Z.to_nat iters) r 0 0
              = unclip_iter_loop ratio_step W H cap (Nat.pred (Z.to_nat iters))
                  (clamp_rect W H (grow_rect r d d)) d d).
    { intros Hit Hle Hne.
      destruct (Z.to_nat iters) as [| n] eqn:En; [lia |].
      cbn [unclip_iter_loop Nat.pred]. fold (step_delta r ratio_step). fold d.
      replace (cap <? 0 + d) with false by (symmetry; apply Z.ltb_ge; lia).
      cbn [orb].
      destruct (rect_eqb (clamp_rect W H (grow_rect r d d)) r) eqn:E.
      - apply rect_eqb_eq in E. contradiction.
      - reflexivity. }
    assert (Hwhole : r = mkRect 0 0 W H ->
              unclip_iter_loop ratio_step W H cap (Z.to_nat iters) r 0 0 = r).
    { intros Hr. destruct (Z.to_nat iters) as [| n]; [reflexivity |].
      cbn [unclip_iter_loop]. destruct (_ || _); [reflexivity |].
      fold (step_delta r ratio_step). fold d.
      rewrite (proj2 (clamp_grow_changes r d d Hin Hd Hd) Hr).
      rewrite (proj2 (rect_eqb_eq r r) eq_refl). reflexivity. }
    split.
    + split.
      * intros Eout.
        destruct (Z_le_gt_dec iters 0) as [Hi0 | Hi0]; [now left |].
        destruct (Z_lt_le_dec cap d) as [Hc | Hc]; [right; now left |].
        right. right.
        destruct (rect_eqb (clamp_rect W H (grow_rect r d d)) r) eqn:E.
        -- apply rect_eqb_eq in E.
           exact (proj1 (clamp_grow_changes r d d Hin Hd Hd) E).
        -- exfalso.
           assert (Hne : clamp_rect W H (grow_rect r d d) <> r).
           { intros E'. apply rect_eqb_eq in E'. congruence. }
           rewrite (Hstep ltac:(lia) Hc Hne) in Eout.
           exact (proj2 (unclip_iter_loop_moved ratio_step cap _ r _ d Hin Hd
                           Hc eq_refl Hne) Eout).
      * intros [Hi0 | [Hc | Hr]].
        -- replace (Z.to_nat iters) with 0%nat by lia. reflexivity.
        -- destruct (Z.to_nat iters) as [| n]; [reflexivity |].
           cbn [unclip_iter_loop]. fold (step_delta r ratio_step). fold d.
           replace (cap <? 0 + d) with true by (symmetry; apply Z.ltb_lt; lia).
           reflexivity.
        -- exact (Hwhole Hr).
    + intros Hit Hle.
      destruct (rect_eqb (clamp_rect W H (grow_rect r d d)) r) eqn:E.
      * apply rect_eqb_eq in E. rewrite E. exact Hg.
      * assert (Hne : clamp_rect W H (grow_rect r d d) <> r).
        { intros E'. apply rect_eqb_eq in E'. congruence. }
        rewrite (Hstep Hit Hle Hne).
        exact (proj1 (unclip_iter_loop_moved ratio_step cap _ r _ d Hin Hd
                        Hle eq_refl Hne)).
  - intros ratio_x ratio_y fx fy out cap_x cap_y dx dy. subst out.
    unfold db_unclip_rect_iter_aniso. rewrite Ew, Eh. cbn [orb].
    fold (aniso_cap W fx). fold (aniso_cap H fy). fold cap_x. fold cap_y.
    assert (Hcx : 1 <= cap_x) by (unfold cap_x, aniso_cap; lia).
    assert (Hcy : 1 <= cap_y) by (unfold cap_y, aniso_cap; lia).
    pose proof (step_delta_pos r ratio_x) as Px.
    pose proof (step_delta_pos r ratio_y) as Py.
    assert (Hdx : 1 <= dx <= cap_x) by (unfold dx, cut_delta; lia).
    assert (Hdy : 1 <= dy <= cap_y) by (unfold dy, cut_delta; lia).
    destruct (unclip_aniso_loop_invariant ratio_x ratio_y cap_x cap_y r
                (Z.to_nat iters) r 0 0 Hin (grown_within_refl r)
                ltac:(lia) ltac:(lia)) as [Hi Hg].
    split; [exact Hi |]. split; [exact Hg |].
    split; [apply unclip_aniso_loop_grows |].
    assert (Hstep : 0 < iters ->
              unclip_aniso_loop ratio_x ratio_y W H cap_x cap_y
                (Z.to_nat iters) r 0 0
              = unclip_aniso_loop ratio_x ratio_y W H cap_x cap_y
                  (Nat.pred (Z.to_nat iters))
                  (clamp_rect W H (grow_rect r dx dy)) dx dy).
    { intros Hit.
      destruct (Z.to_nat iters) as [| n] eqn:En; [lia |].
      cbn [unclip_aniso_loop Nat.pred].
      fold (step_delta r ratio_x). fold (step_delta r ratio_y).
      fold (cut_delta r ratio_x cap_x 0). fold (cut_delta r ratio_y cap_y 0).
      fold dx. fold dy.
      replace (dx =? 0) with false by (symmetry; apply Z.eqb_neq; lia).
      cbn [andb]. reflexivity. }
    split.
    + split.
      * intros Eout.
        destruct (Z_le_gt_dec iters 0) as [Hi0 | Hi0]; [now left |].
        right.
        destruct (rect_eqb (clamp_rect W H (grow_rect r dx dy)) r) eqn:E.
        -- apply rect_eqb_eq in E.
           exact (proj1 (clamp_grow_changes r dx dy Hin ltac:(lia) ltac:(lia)) E).
        -- exfalso.
           assert (Hne : clamp_rect W H (grow_rect r dx dy) <> r).
           { intros E'. apply rect_eqb_eq in E'. congruence. }
           rewrite (Hstep ltac:(lia)) in Eout.
           exact (proj2 (unclip_aniso_loop_moved ratio_x ratio_y cap_x cap_y _
                           r _ dx dy Hin ltac:(lia) ltac:(lia) ltac:(lia)
                           ltac:(lia) eq_refl Hne) Eout).
      * intros [Hi0 | Hr].
        -- replace (Z.to_nat iters) with 0%nat by lia. reflexivity.
        -- rewrite Hr. now apply unclip_aniso_loop_whole.
    + intros Hit.
      destruct (rect_eqb (clamp_rect W H (grow_rect r dx dy)) r) eqn:E.
      * apply rect_eqb_eq in E. rewrite E. exact Hg.
      * assert (Hne : clamp_rect W H (grow_rect r dx dy) <> r).
        { intros E'. apply rect_eqb_eq in E'. congruence. }
        rewrite (Hstep Hit).
        exact (proj1 (unclip_aniso_loop_moved ratio_x ratio_y cap_x cap_y _
                        r _ dx dy Hin ltac:(lia) ltac:(lia) ltac:(lia)
                        ltac:(lia) eq_refl Hne)).
Qed.

End Unclip.

Lemma db_unclip_rect_growth_witness :
  inside 100 100 square_20
  /\ inside 100 100
       (db_unclip_rect_iter square_20 F32.one 3 100 100 default_max_grow_frac)
  /\ iso_grows F32.one 100 100 (iter_cap 100 100 default_max_grow_frac) 3
       square_20 0
       (db_unclip_rect_iter square_20 F32.one 3 100 100 default_max_grow_frac)
  /\ inside 100 100
       (db_unclip_rect_iter_aniso square_20 F32.one F32.one 3 100 100
          default_max_grow_frac_x default_max_grow_frac_y)
  /\ aniso_grows F32.one F32.one 100 100
       (aniso_cap 100 default_max_grow_frac_x)
       (aniso_cap 100 default_max_grow_frac_y) 3 square_20 0 0
       (db_unclip_rect_iter_aniso square_20 F32.one F32.one 3 100 100
          default_max_grow_frac_x default_max_grow_frac_y).
Proof.
  assert (Hin : inside 100 100 square_20) by (unfold inside; simpl; lia).
  split; [exact Hin |].
  destruct (db_unclip_rect_growth 100 100 square_20 3 Hin) as [Hiso Haniso].
  destruct (Hiso F32.one default_max_grow_frac) as [H1 [_ [H2 _]]].
  destruct (Haniso F32.one F32.one default_max_grow_frac_x
              default_max_grow_frac_y) as [H3 [_ [H4 _]]].
  split; [exact H1 |]. split; [exact H2 |]. split; [exact H3 | exact H4].
Defined.

(** C9 as stated fails on [db_unclip_rect_iter_aniso].  In a 100 by 100
    image its caps are 15 and 8 pixels, fractions of the width and of
    the height.  After one iteration on the square, 5 pixels are used on
    each axis and the next delta is 8: the step would pass the cap of
    the y axis, yet the function does not stop; it grows the rectangle
    by 8 and 3 pixels, and once more in x alone in the third iteration. *)
Lemma db_unclip_rect_iter_aniso_truncates :
  aniso_cap 100 default_max_grow_frac_x = 15
  /\ aniso_cap 100 default_max_grow_frac_y = 8
  /\ db_unclip_rect_iter_aniso square_20 F32.one F32.one 1 100 100
       default_max_grow_frac_x default_max_grow_frac_y = mkRect 35 35 30 30
  /\ unclip_delta (mkRect 35 35 30 30) F32.one = 8
  /\ db_unclip_rect_iter_aniso square_20 F32.one F32.one 2 100 100
       default_max_grow_frac_x default_max_grow_frac_y = mkRect 27 32 46 36
  /\ db_unclip_rect_iter_aniso square_20 F32.one F32.one 3 100 100
       default_max_grow_frac_x default_max_grow_frac_y = mkRect 25 32 50 36
  /\ db_unclip_rect_iter square_20 F32.one 3 100 100 default_max_grow_frac
     = mkRect 27 27 46 46.
Proof. repeat split; reflexivity. Qed.

(* ------------------------------------------------------------------ *)
(** ** The fallback of the detector *)

Lemma insert_by_width_perm (r : Rect) (l : list Rect) :
  Permutation (r :: l) (insert_by_width r l).
Proof.
  induction l as [| s rest IH]; simpl; [reflexivity |].
  destruct (rect_width r <? rect_width s); [| reflexivity].
  rewrite perm_swap. now constructor.
Qed.

Lemma sort_by_width_desc_perm (l : list Rect) :
  Permutation l (sort_by_width_desc l).
Proof.
  induction l as [| r rest IH]; simpl; [constructor |].
  rewrite <- insert_by_width_perm. now constructor.
Qed.






Lemma merge_run_nonempty (max_gap_px : Z) (min_y : F32.t) (rects : list Rect) :
  forall run, merge_run max_gap_px min_y run rects <> [].
Proof.
  induction rects as [| next rest IH]; intros run; simpl; [discriminate |].
  destruct (mergeable _ _ _ _); [apply IH | discriminate].
Qed.

Lemma merge_horizontal_boxes_nonempty (max_gap_px : Z) (min_y : F32.t)
  (rects : list Rect) :
  rects <> [] -> merge_horizontal_boxes rects max_gap_px min_y <> [].
Proof.
  intros Hne. unfold merge_horizontal_boxes.
  destruct rects as [| a [| b rest]]; [contradiction | discriminate |].
  pose proof (sort_by_x_length (a :: b :: rest)) as Hlen.
  destruct (sort_by_x (a :: b :: rest)); [discriminate |].
  apply merge_run_nonempty.
Qed.

Lemma inflated_rects_nonempty (W H : Z) (rects0 : list Rect) :
  rects0 <> [] -> inflated_rects W H rects0 <> [].
Proof.
  intros Hne. unfold inflated_rects.
  set (merged := merge_horizontal_boxes _ _ _).
  assert (Hm : merged <> []) by now apply merge_horizontal_boxes_nonempty.
  destruct merged; [contradiction | discriminate].
Qed.

Section DetectorFallback.

Variable cv_convert_pixel : Z -> F32.t.
Variable cv_closed_contours : ProbMap -> F32.t -> Z -> Z -> list (list (Z * Z)).
Variable cv_boundingRect : list (Z * Z) -> Rect.
Variable cv_mean : ProbMap -> Rect -> F32.t.









End DetectorFallback.


(** The same run, computed: of the three inflated rectangles, 26, 66
    and 46 pixels wide, the fallback keeps the second and the third,
    pads each by 1 pixel and clamps it to the map. *)
Example paddleocr_det_fallback_three_contours :
  exists roi',
    paddleocr_det cv_pixel_by_255 cv_three_contours cv_rect_of_corners
      cv_mean_zero roi_with_wide_det_tensor sample_params = Ok roi'
    /\ map get_bbox (roi_objects roi')
       = map (fun r =>
                Some (frame_box (F32.div F32.one (F32.of_Z 256))
                        (F32.div F32.one (F32.of_Z 32)) unit_box r))
             [mkRect 71 5 68 16; mkRect 181 5 48 16]
    /\ map get_label (roi_objects roi')
       = ["text_region"%string; "text_region"%string].
Proof. eexists. split; [vm_compute; reflexivity |]. split; vm_compute; reflexivity. Qed.

(** ** Digits *)

Lemma digits2_pos_bounds (p : positive) :
  2 ^ (Z.pos (digits2_pos p) - 1) <= Z.pos p < 2 ^ Z.pos (digits2_pos p).
Proof.
  induction p as [p IH | p IH |]; cbn [digits2_pos].
  - rewrite Pos2Z.inj_succ, (Pos2Z.inj_xI p).
    replace (Z.succ (Z.pos (digits2_pos p)) - 1)
      with (Z.succ (Z.pos (digits2_pos p) - 1)) by plia.
    rewrite !Z.pow_succ_r by plia. pow_lia.
  - rewrite Pos2Z.inj_succ, (Pos2Z.inj_xO p).
    replace (Z.succ (Z.pos (digits2_pos p)) - 1)
      with (Z.succ (Z.pos (digits2_pos p) - 1)) by plia.
    rewrite !Z.pow_succ_r by plia. pow_lia.
  - simpl. plia.
Qed.

Lemma Zdigits2_bounds (n : Z) :
  0 < n -> 2 ^ (Zdigits2 n - 1) <= n < 2 ^ Zdigits2 n.
Proof.
  destruct n as [| p | p]; try plia. intros _. apply digits2_pos_bounds.
Qed.

Lemma Zdigits2_pos (n : Z) : 0 < n -> 0 < Zdigits2 n.
Proof. destruct n; simpl; plia. Qed.

Lemma Zdigits2_nonneg (n : Z) : 0 <= Zdigits2 n.
Proof. destruct n; simpl; plia. Qed.

Lemma Zdigits2_unique (n d : Z) :
  2 ^ (d - 1) <= n < 2 ^ d -> 0 < n -> Zdigits2 n = d.
Proof.
  intros [Hlo Hhi] Hn.
  pose proof (Zdigits2_bounds n Hn) as [Hlo' Hhi'].
  pose proof (Zdigits2_pos n Hn) as Hd'.
  assert (Hd : 0 < d).
  { destruct (Z.lt_ge_cases 0 d) as [|Hneg]; [assumption |].
    assert (2 ^ d <= 2 ^ 0) by (apply Z.pow_le_mono_r; lia).
    simpl in *. plia. }
  assert (d - 1 < Zdigits2 n).
  { apply (Z.pow_lt_mono_r_iff 2); plia. }
  assert (Zdigits2 n - 1 < d).
  { apply (Z.pow_lt_mono_r_iff 2); plia. }
  plia.
Qed.

Lemma Zdigits2_mono (a b : Z) : 0 < a -> a <= b -> Zdigits2 a <= Zdigits2 b.
Proof.
  intros Ha Hab.
  pose proof (Zdigits2_bounds a Ha). pose proof (Zdigits2_bounds b ltac:(lia)).
  assert (Zdigits2 a - 1 < Zdigits2 b).
  { apply (Z.pow_lt_mono_r_iff 2); [lia | | lia].
    pose proof (Zdigits2_pos b). plia. }
  plia.
Qed.

(** The digits of a quotient by a power of two. *)
Lemma Zdigits2_div_pow2 (n k : Z) :
  0 < n -> 0 <= k -> k < Zdigits2 n -> Zdigits2 (n / 2 ^ k) = Zdigits2 n - k.
Proof.
  intros Hn Hk Hkd.
  pose proof (Zdigits2_bounds n Hn) as [Hlo Hhi].
  assert (Hp : 0 < 2 ^ k) by (apply Z.pow_pos_nonneg; lia).
  assert (Hq : 2 ^ (Zdigits2 n - k - 1) <= n / 2 ^ k < 2 ^ (Zdigits2 n - k)).
  { split.
    - apply Z.div_le_lower_bound; [lia |].
      rewrite <- Z.pow_add_r by plia.
      replace (k + (Zdigits2 n - k - 1)) with (Zdigits2 n - 1) by plia. plia.
    - apply Z.div_lt_upper_bound; [lia |].
      rewrite <- Z.pow_add_r by plia.
      replace (k + (Zdigits2 n - k)) with (Zdigits2 n) by plia. plia. }
  apply Zdigits2_unique; [exact Hq |].
  assert (0 < 2 ^ (Zdigits2 n - k - 1)) by (apply Z.pow_pos_nonneg; lia). plia.
Qed.

Lemma div_pow2_small (n k : Z) :
  0 <= n -> Zdigits2 n <= k -> n / 2 ^ k = 0.
Proof.
  intros Hn Hk. destruct (Z.eq_dec n 0) as [-> | Hne].
  - simpl in Hk. apply Z.div_0_l. apply Z.pow_nonzero; plia.
  - apply Z.div_small. split; [lia |].
    pose proof (Zdigits2_bounds n ltac:(lia)) as [_ Hhi].
    assert (2 ^ Zdigits2 n <= 2 ^ k) by (apply Z.pow_le_mono_r; lia). plia.
Qed.

(** ** Shifts *)

Lemma iter_pos_nat {A : Type} (f : A -> A) (p : positive) (x : A) :
  iter_pos f p x = Nat.iter (Pos.to_nat p) f x.
Proof.
  revert x. induction p as [p IH | p IH |]; intros x; cbn [iter_pos].
  - rewrite !IH, Pos2Nat.inj_xI.
    replace (S (2 * Pos.to_nat p)) with (Pos.to_nat p + (Pos.to_nat p + 1))%nat by plia.
    rewrite !Nat.iter_add. simpl. reflexivity.
  - rewrite !IH, Pos2Nat.inj_xO.
    replace (2 * Pos.to_nat p)%nat with (Pos.to_nat p + Pos.to_nat p)%nat by plia.
    rewrite Nat.iter_add. reflexivity.
  - reflexivity.
Qed.

Lemma shr_1_spec (mrs : shr_record) :
  0 <= shr_m mrs ->
  shr_m (shr_1 mrs) = shr_m mrs / 2
  /\ shr_r (shr_1 mrs) = Z.odd (shr_m mrs)
  /\ shr_s (shr_1 mrs) = shr_r mrs || shr_s mrs.
Proof.
  destruct mrs as [m r s]. cbn [shr_m shr_r shr_s]. intros Hm.
  destruct m as [| p | p]; [| | lia].
  - repeat split.
  - rewrite <- Z.div2_div. destruct p; repeat split.
Qed.

Lemma shr_iter_m (mrs : shr_record) (k : nat) :
  0 <= shr_m mrs ->
  shr_m (Nat.iter k shr_1 mrs) = shr_m mrs / 2 ^ Z.of_nat k.
Proof.
  intros Hm. induction k as [| k IH].
  - simpl. now rewrite Z.div_1_r.
  - change (Nat.iter (S k) shr_1 mrs) with (shr_1 (Nat.iter k shr_1 mrs)).
    assert (Hk : 0 <= shr_m (Nat.iter k shr_1 mrs)).
    { rewrite IH. apply Z.div_pos; [assumption |]. apply Z.pow_pos_nonneg; lia. }
    destruct (shr_1_spec _ Hk) as [-> _]. rewrite IH.
    rewrite Zdiv.Zdiv_Zdiv; [| apply Z.pow_nonneg; lia | lia].
    rewrite Nat2Z.inj_succ, Z.pow_succ_r by lia.
    now rewrite Z.mul_comm.
Qed.

(** [k] steps of [shr_1] from a mantissa [m0] with an exact location. *)
Lemma shr_iter_loc (m0 : Z) (k : nat) :
  0 <= m0 -> (0 < k)%nat ->
  shr_r (Nat.iter k shr_1 (Build_shr_record m0 false false))
  = Z.odd (m0 / 2 ^ (Z.of_nat k - 1))
  /\ shr_s (Nat.iter k shr_1 (Build_shr_record m0 false false))
     = negb (m0 mod 2 ^ (Z.of_nat k - 1) =? 0).
Proof.
  intros Hm Hk. destruct k as [| k]; [lia |]. clear Hk.
  induction k as [| k IH].
  - simpl. rewrite Z.div_1_r, Z.mod_1_r. destruct m0 as [| [p | p |] |]; try lia;
      split; reflexivity.
  - remember (S k) as k1 eqn:Ek1.
    change (Nat.iter (S k1) shr_1 (Build_shr_record m0 false false))
      with (shr_1 (Nat.iter k1 shr_1 (Build_shr_record m0 false false))).
    set (mrs := Nat.iter k1 shr_1 (Build_shr_record m0 false false)) in *.
    assert (Hmrs : shr_m mrs = m0 / 2 ^ Z.of_nat k1).
    { unfold mrs. now rewrite shr_iter_m. }
    assert (Hpos : 0 <= shr_m mrs).
    { rewrite Hmrs. apply Z.div_pos; [assumption |]. apply Z.pow_pos_nonneg; lia. }
    destruct (shr_1_spec mrs Hpos) as [_ [-> ->]].
    destruct IH as [-> ->].
    replace (Z.of_nat (S k1) - 1) with (Z.of_nat k1) by lia.
    split; [now rewrite Hmrs |].
    assert (Hk1 : 1 <= Z.of_nat k1) by lia.
    set (h := 2 ^ (Z.of_nat k1 - 1)).
    assert (Hh : 0 < h) by (apply Z.pow_pos_nonneg; lia).
    assert (H2h : 2 ^ Z.of_nat k1 = h * 2).
    { unfold h. replace (Z.of_nat k1) with (Z.succ (Z.of_nat k1 - 1)) at 1 by lia.
      rewrite Z.pow_succ_r by lia. lia. }
    rewrite H2h, Z.rem_mul_r by lia.
    pose proof (Z.mod_pos_bound m0 h Hh) as Ha.
    pose proof (Z.mod_pos_bound (m0 / h) 2 ltac:(lia)) as Hb.
    rewrite (Zdiv.Zmod_odd (m0 / h)).
    destruct (Z.eqb_spec (m0 mod h) 0) as [Ea | Ea];
      destruct (Z.odd (m0 / h)); cbn [negb orb];
      match goal with
      | |- context [?a =? 0] => destruct (Z.eqb_spec a 0) as [E | E]
      end; cbn [negb]; try reflexivity; exfalso; lia.
Qed.

Lemma Zdigits2_upper (n k : Z) : 0 < n -> n < 2 ^ k -> Zdigits2 n <= k.
Proof.
  intros Hn Hk.
  pose proof (Zdigits2_bounds n Hn) as [Hlo _].
  pose proof (Zdigits2_pos n Hn).
  destruct (Z.lt_ge_cases k 0) as [Hneg | Hk0].
  - rewrite Z.pow_neg_r in Hk by assumption. lia.
  - assert (Zdigits2 n - 1 < k); [| lia].
    apply (Z.pow_lt_mono_r_iff 2); lia.
Qed.

Lemma Zdigits2_lower (n k : Z) : 2 ^ k <= n -> 0 <= k -> k < Zdigits2 n.
Proof.
  intros Hk Hk0.
  assert (Hn : 0 < n).
  { assert (0 < 2 ^ k) by (apply Z.pow_pos_nonneg; lia). lia. }
  pose proof (Zdigits2_bounds n Hn) as [_ Hhi].
  apply (Z.pow_lt_mono_r_iff 2); [lia | | lia].
  pose proof (Zdigits2_pos n Hn). lia.
Qed.


Lemma fexp32 (e : Z) : fexp 24 128 e = Z.max (e - 24) (-149).
Proof. reflexivity. Qed.

Lemma shr_m_of_loc (m : Z) (l : location) : shr_m (shr_record_of_loc m l) = m.
Proof. destruct l as [| []]; reflexivity. Qed.

Lemma round_nearest_even_bounds (m : Z) (l : location) :
  m <= round_nearest_even m l <= m + 1.
Proof.
  destruct l as [| []]; cbn [round_nearest_even]; try lia.
  destruct (Z.even m); lia.
Qed.

(** Rounding after a shift by [k] bits of an exact mantissa. *)
Lemma round_after_shift (m0 : Z) (k : positive) :
  0 <= m0 ->
  let mrs := iter_pos shr_1 k (Build_shr_record m0 false false) in
  round_nearest_even (shr_m mrs) (loc_of_shr_record mrs)
  = m0 / 2 ^ Z.pos k + (if rnd_up m0 (Z.pos k) then 1 else 0).
Proof.
  intros Hm mrs. unfold mrs. clear mrs. rewrite iter_pos_nat.
  pose proof (shr_iter_m (Build_shr_record m0 false false) (Pos.to_nat k) Hm) as Hq.
  destruct (shr_iter_loc m0 (Pos.to_nat k) Hm (Pos2Nat.is_pos k)) as [Hr Hs].
  rewrite positive_nat_Z in Hq, Hr, Hs. cbn [shr_m] in Hq.
  destruct (Nat.iter (Pos.to_nat k) shr_1 (Build_shr_record m0 false false))
    as [m r s].
  cbn [shr_m shr_r shr_s loc_of_shr_record] in *. subst m.
  set (h := 2 ^ (Z.pos k - 1)) in *.
  assert (Hh : 0 < h) by (apply Z.pow_pos_nonneg; lia).
  assert (H2h : 2 ^ Z.pos k = h * 2).
  { unfold h. replace (Z.pos k) with (Z.succ (Z.pos k - 1)) at 1 by lia.
    rewrite Z.pow_succ_r by lia. lia. }
  unfold rnd_up. rewrite H2h.
  assert (Hq2 : m0 / (h * 2) = m0 / h / 2).
  { rewrite Zdiv.Zdiv_Zdiv by lia. reflexivity. }
  rewrite Z.rem_mul_r by lia.
  pose proof (Z.mod_pos_bound m0 h Hh) as Ha.
  rewrite (Zdiv.Zmod_odd (m0 / h)).
  rewrite <- Hr. clear Hr.
  destruct r, s; cbn [round_nearest_even].
  - (* above the middle *)
    symmetry in Hs. apply negb_true_iff, Z.eqb_neq in Hs.
    replace (h * 2 <? 2 * (m0 mod h + h * 1)) with true
      by (symmetry; apply Z.ltb_lt; lia).
    cbn [orb]. lia.
  - (* the middle *)
    symmetry in Hs. apply negb_false_iff, Z.eqb_eq in Hs. rewrite Hs.
    replace (h * 2 <? 2 * (0 + h * 1)) with false
      by (symmetry; apply Z.ltb_ge; lia).
    replace (h * 2 =? 2 * (0 + h * 1)) with true
      by (symmetry; apply Z.eqb_eq; lia).
    cbn [orb andb]. rewrite <- Z.negb_odd.
    destruct (Z.odd (m0 / (h * 2))); cbn [negb]; lia.
  - (* below the middle *)
    replace (h * 2 <? 2 * (m0 mod h + h * 0)) with false
      by (symmetry; apply Z.ltb_ge; lia).
    replace (h * 2 =? 2 * (m0 mod h + h * 0)) with false
      by (symmetry; apply Z.eqb_neq; lia).
    cbn [orb andb]. lia.
  - (* exact *)
    symmetry in Hs. apply negb_false_iff, Z.eqb_eq in Hs. rewrite Hs.
    replace (h * 2 <? 2 * (0 + h * 0)) with false
      by (symmetry; apply Z.ltb_ge; lia).
    replace (h * 2 =? 2 * (0 + h * 0)) with false
      by (symmetry; apply Z.eqb_neq; lia).
    cbn [orb andb]. lia.
Qed.

(** The first step of rounding: the mantissa is cut to the exponent
    [fexp (digits + e)]. *)
Lemma shr_fexp_spec (m e : Z) (l : location) :
  0 <= m -> e <= fexp 24 128 (Zdigits2 m + e) ->
  snd (shr_fexp 24 128 m e l) = fexp 24 128 (Zdigits2 m + e)
  /\ shr_m (fst (shr_fexp 24 128 m e l))
     = m / 2 ^ (fexp 24 128 (Zdigits2 m + e) - e).
Proof.
  intros Hm He. unfold shr_fexp, shr.
  set (n := fexp 24 128 (Zdigits2 m + e) - e).
  assert (Hn : 0 <= n) by (unfold n; lia).
  destruct n as [| p | p] eqn:En; [| | lia]; cbn [fst snd].
  - split; [unfold n in En; lia |].
    rewrite shr_m_of_loc. simpl. now rewrite Z.div_1_r.
  - split; [unfold n in En; lia |].
    rewrite iter_pos_nat, shr_iter_m, shr_m_of_loc, positive_nat_Z;
      [reflexivity | now rewrite shr_m_of_loc].
Qed.

(** From an exact mantissa the first step rounds as [rnd_up] says. *)
Lemma shr_fexp_round_exact (m e : Z) :
  0 <= m -> e <= fexp 24 128 (Zdigits2 m + e) ->
  let s := fexp 24 128 (Zdigits2 m + e) - e in
  round_nearest_even (shr_m (fst (shr_fexp 24 128 m e loc_Exact)))
    (loc_of_shr_record (fst (shr_fexp 24 128 m e loc_Exact)))
  = m / 2 ^ s + (if rnd_up m s then 1 else 0).
Proof.
  intros Hm He s. unfold shr_fexp, shr. fold s.
  assert (Hs : 0 <= s) by (unfold s; lia).
  destruct s as [| p | p] eqn:Es; [| | lia]; cbn [fst snd].
  - cbn [shr_record_of_loc shr_m loc_of_shr_record round_nearest_even].
    unfold rnd_up. change (2 ^ 0) with 1.
    rewrite Z.mod_1_r, Z.div_1_r. simpl. lia.
  - cbn [shr_record_of_loc]. now apply round_after_shift.
Qed.

Lemma shr_fexp_pair (m e : Z) (l : location) :
  shr_fexp 24 128 m e l
  = (fst (shr_fexp 24 128 m e l), snd (shr_fexp 24 128 m e l)).
Proof. now destruct (shr_fexp 24 128 m e l). Qed.

(** After the first step the mantissa has at most 24 digits, so the
    second step applies too. *)
Lemma round_second_step (m e m1 : Z) :
  0 <= m -> e <= fexp 24 128 (Zdigits2 m + e) ->
  m / 2 ^ (fexp 24 128 (Zdigits2 m + e) - e) <= m1 ->
  fexp 24 128 (Zdigits2 m + e)
  <= fexp 24 128 (Zdigits2 m1 + fexp 24 128 (Zdigits2 m + e)).
Proof.
  intros Hm He Hm1. rewrite !fexp32 in *.
  destruct (Z.le_gt_cases (Zdigits2 m + e - 24) (-149)) as [Hsub | Hnorm]; [lia |].
  assert (Hd : 24 <= Zdigits2 m) by lia.
  assert (Hmpos : 0 < m) by (destruct m; simpl in Hd; lia).
  replace (Z.max (Zdigits2 m + e - 24) (-149)) with (Zdigits2 m + e - 24) in * by lia.
  replace (Zdigits2 m + e - 24 - e) with (Zdigits2 m - 24) in Hm1 by lia.
  pose proof (Zdigits2_div_pow2 m (Zdigits2 m - 24) Hmpos ltac:(lia) ltac:(lia)) as Hq.
  assert (Hqpos : 0 < m / 2 ^ (Zdigits2 m - 24)).
  { assert (0 <= m / 2 ^ (Zdigits2 m - 24)).
    { apply Z.div_pos; [lia |]. apply Z.pow_pos_nonneg; lia. }
    destruct (m / 2 ^ (Zdigits2 m - 24)) eqn:E; simpl in Hq; lia. }
  pose proof (Zdigits2_mono _ _ Hqpos Hm1). lia.
Qed.

(** The result of rounding is a valid binary32 number. *)
Lemma binary_round_aux_valid (sx : bool) (m e : Z) (l : location) :
  0 <= m -> e <= fexp 24 128 (Zdigits2 m + e) ->
  valid_binary 24 128 (binary_round_aux 24 128 sx m e l) = true.
Proof.
  intros Hm He. unfold binary_round_aux.
  rewrite (shr_fexp_pair m e l).
  destruct (shr_fexp_spec m e l Hm He) as [He1 Hm1].
  set (mrs1 := fst (shr_fexp 24 128 m e l)) in *.
  set (e1 := snd (shr_fexp 24 128 m e l)) in *.
  set (m1 := round_nearest_even (shr_m mrs1) (loc_of_shr_record mrs1)).
  pose proof (round_nearest_even_bounds (shr_m mrs1) (loc_of_shr_record mrs1))
    as Hb. fold m1 in Hb.
  assert (Hq0 : 0 <= shr_m mrs1).
  { rewrite Hm1. apply Z.div_pos; [assumption |]. apply Z.pow_pos_nonneg; lia. }
  assert (Hm1pos : 0 <= m1) by lia.
  assert (He2 : e1 <= fexp 24 128 (Zdigits2 m1 + e1)).
  { rewrite He1. apply round_second_step; try assumption. rewrite <- Hm1. lia. }
  rewrite (shr_fexp_pair m1 e1 loc_Exact).
  destruct (shr_fexp_spec m1 e1 loc_Exact Hm1pos He2) as [He3 Hm3].
  set (mrs2 := fst (shr_fexp 24 128 m1 e1 loc_Exact)) in *.
  set (e2 := snd (shr_fexp 24 128 m1 e1 loc_Exact)) in *.
  destruct (shr_m mrs2) as [| p | p] eqn:Ep; [reflexivity | | reflexivity].
  destruct (e2 <=? 128 - 24) eqn:Ele; [| reflexivity].
  cbn [valid_binary]. unfold bounded, canonical_mantissa.
  rewrite Ele, andb_true_r. apply Z.eqb_eq.
  change (Z.pos (digits2_pos p)) with (Zdigits2 (Z.pos p)).
  assert (Hlt : fexp 24 128 (Zdigits2 m1 + e1) - e1 < Zdigits2 m1).
  { destruct (Z.lt_ge_cases (fexp 24 128 (Zdigits2 m1 + e1) - e1) (Zdigits2 m1))
      as [| Hge]; [assumption |].
    rewrite (div_pow2_small m1 _ Hm1pos Hge) in Hm3. discriminate. }
  assert (Hm1p : 0 < m1).
  { destruct (Z.eq_dec m1 0) as [E0 | ]; [| lia].
    rewrite E0, Zdiv.Zdiv_0_l in Hm3. discriminate. }
  rewrite Hm3, Zdigits2_div_pow2 by lia.
  rewrite He3.
  replace (Zdigits2 m1 - (fexp 24 128 (Zdigits2 m1 + e1) - e1)
           + fexp 24 128 (Zdigits2 m1 + e1)) with (Zdigits2 m1 + e1) by lia.
  reflexivity.
Qed.

(** The value of rounding an exact positive mantissa whose exponent is
    not below [emin], when the result does not overflow: the mantissa
    [m / 2^s], one more when [rnd_up] says so, at the exponent [e + s]. *)
Lemma binary_round_aux_exact (m e : Z) :
  0 < m -> -149 <= e -> e <= fexp 24 128 (Zdigits2 m + e) ->
  Zdigits2 m + e <= 127 ->
  let s := fexp 24 128 (Zdigits2 m + e) - e in
  let m1 := m / 2 ^ s + (if rnd_up m s then 1 else 0) in
  exists (m2 : positive) (e2 : Z),
    binary_round_aux 24 128 false m e loc_Exact = S754_finite false m2 e2
    /\ e + s <= e2
    /\ Z.pos m2 * 2 ^ (e2 - (e + s)) = m1
    /\ bounded 24 128 m2 e2 = true.
Proof.
  intros Hm He HP Hov s m1.
  pose proof (binary_round_aux_valid false m e loc_Exact ltac:(lia) HP) as Hvalid.
  revert Hvalid. unfold binary_round_aux.
  rewrite (shr_fexp_pair m e loc_Exact).
  destruct (shr_fexp_spec m e loc_Exact ltac:(lia) HP) as [He1 _].
  rewrite (shr_fexp_round_exact m e ltac:(lia) HP). fold s. fold m1.
  set (e1 := snd (shr_fexp 24 128 m e loc_Exact)) in *.
  assert (Hs0 : 0 <= s) by (unfold s; lia).
  assert (Hsd : s < Zdigits2 m /\ Zdigits2 m - s <= 24).
  { unfold s. rewrite fexp32. pose proof (Zdigits2_pos m Hm). lia. }
  assert (He1s : e1 = e + s) by (unfold s; lia).
  pose proof (Zdigits2_div_pow2 m s Hm Hs0 (proj1 Hsd)) as Hdq.
  assert (Hq : 1 <= m / 2 ^ s < 2 ^ 24).
  { assert (Hq0 : 0 <= m / 2 ^ s).
    { apply Z.div_pos; [lia |]. apply Z.pow_pos_nonneg; lia. }
    assert (Hqp : 0 < m / 2 ^ s).
    { destruct (m / 2 ^ s) eqn:E; simpl in Hdq; lia. }
    split; [lia |].
    pose proof (Zdigits2_bounds _ Hqp) as [_ Hhi].
    assert (2 ^ Zdigits2 (m / 2 ^ s) <= 2 ^ 24) by (apply Z.pow_le_mono_r; lia).
    lia. }
  assert (Hm1 : m / 2 ^ s <= m1 <= m / 2 ^ s + 1).
  { unfold m1. destruct (rnd_up m s); lia. }
  assert (He2 : e1 <= fexp 24 128 (Zdigits2 m1 + e1)).
  { rewrite He1. apply round_second_step; [lia | assumption | ].
    fold s. lia. }
  rewrite (shr_fexp_pair m1 e1 loc_Exact).
  destruct (shr_fexp_spec m1 e1 loc_Exact ltac:(lia) He2) as [He3 Hm3].
  set (mrs2 := fst (shr_fexp 24 128 m1 e1 loc_Exact)) in *.
  set (e2 := snd (shr_fexp 24 128 m1 e1 loc_Exact)) in *.
  assert (Hcase : (e2 = e1 /\ shr_m mrs2 = m1)
                  \/ (e2 = e1 + 1 /\ shr_m mrs2 = 2 ^ 23 /\ m1 = 2 ^ 24)).
  { destruct (Z.eq_dec m1 (2 ^ 24)) as [E24 | N24].
    - right. rewrite fexp32 in He3, Hm3. rewrite E24 in He3, Hm3.
      change (Zdigits2 (2 ^ 24)) with 25 in He3, Hm3.
      assert (Hmax : Z.max (25 + e1 - 24) (-149) = e1 + 1) by lia.
      rewrite Hmax in He3, Hm3.
      replace (e1 + 1 - e1) with 1 in Hm3 by lia.
      repeat split; [exact He3 | exact Hm3 | exact E24].
    - left. assert (Hlt : m1 < 2 ^ 24) by lia.
      pose proof (Zdigits2_upper m1 24 ltac:(lia) Hlt) as Hd1.
      rewrite fexp32 in He3, Hm3, He2.
      assert (He21 : e2 = e1) by lia.
      split; [exact He21 |].
      rewrite Hm3. rewrite <- He3, He21, Z.sub_diag. simpl. apply Z.div_1_r. }
  assert (He2ov : e2 <= 104).
  { rewrite fexp32 in He1. lia. }
  replace (e2 <=? 128 - 24) with true by (symmetry; apply Z.leb_le; lia).
  destruct Hcase as [[He21 Hm2] | [He21 [Hm2 E24]]]; rewrite Hm2.
  - destruct m1 as [| p | p] eqn:Ep; [lia | | lia].
    intros Hvalid. exists p, e2. repeat split.
    + lia.
    + rewrite He21, He1s, Z.sub_diag. simpl. lia.
    + exact Hvalid.
  - change (2 ^ 23) with (Z.pos 8388608).
    intros Hvalid. exists 8388608%positive, e2. repeat split.
    + lia.
    + rewrite He21, He1s. replace (e + s + 1 - (e + s)) with 1 by lia.
      rewrite E24. reflexivity.
    + exact Hvalid.
Qed.


(** ** Alignment *)

Lemma pos_iter_xO (m d : positive) :
  Z.pos (Pos.iter xO m d) = Z.pos m * 2 ^ Z.pos d.
Proof.
  induction d as [| d IH] using Pos.peano_ind.
  - simpl. lia.
  - rewrite Pos.iter_succ, Pos2Z.inj_succ, Z.pow_succ_r by lia.
    rewrite (Pos2Z.inj_xO (Pos.iter xO m d)), IH. lia.
Qed.

Lemma shl_align_spec (m : positive) (e e' : Z) :
  snd (shl_align m e e') = Z.min e e'
  /\ Z.pos (fst (shl_align m e e')) = Z.pos m * 2 ^ (e - Z.min e e').
Proof.
  unfold shl_align. destruct (e' - e) as [| d | d] eqn:E; cbn [fst snd].
  - split; [lia |]. replace (e - Z.min e e') with 0 by lia. simpl. lia.
  - split; [lia |]. replace (e - Z.min e e') with 0 by lia. simpl. lia.
  - split; [lia |]. rewrite pos_iter_xO.
    replace (e - Z.min e e') with (Z.pos d) by lia. reflexivity.
Qed.

Lemma Zdigits2_mul_pow2 (m k : Z) :
  0 < m -> 0 <= k -> Zdigits2 (m * 2 ^ k) = Zdigits2 m + k.
Proof.
  intros Hm Hk.
  pose proof (Zdigits2_bounds m Hm) as [Hlo Hhi].
  pose proof (Zdigits2_pos m Hm) as Hd.
  assert (Hp : 0 < 2 ^ k) by (apply Z.pow_pos_nonneg; lia).
  apply Zdigits2_unique; [| nia].
  replace (Zdigits2 m + k - 1) with (Zdigits2 m - 1 + k) by lia.
  rewrite !Z.pow_add_r by lia. split; nia.
Qed.

(** ** Rounding a positive integer times a power of two *)

Lemma binary_round_P (m : positive) (e : Z) :
  let mz := fst (shl_align m e (fexp 24 128 (Z.pos (digits2_pos m) + e))) in
  let ez := snd (shl_align m e (fexp 24 128 (Z.pos (digits2_pos m) + e))) in
  ez <= fexp 24 128 (Zdigits2 (Z.pos mz) + ez)
  /\ Zdigits2 (Z.pos mz) + ez = Zdigits2 (Z.pos m) + e
  /\ Z.pos mz * 2 ^ (ez - Z.min e (-149)) = Z.pos m * 2 ^ (e - Z.min e (-149))
  /\ Z.min e (-149) <= ez.
Proof.
  intros mz ez.
  destruct (shl_align_spec m e (fexp 24 128 (Z.pos (digits2_pos m) + e)))
    as [Hez Hmz]. fold mz in Hmz. fold ez in Hez.
  change (Z.pos (digits2_pos m)) with (Zdigits2 (Z.pos m)) in *.
  assert (Hk : 0 <= e - ez) by lia.
  assert (Hd : Zdigits2 (Z.pos mz) = Zdigits2 (Z.pos m) + (e - ez)).
  { rewrite Hmz, <- Hez. apply Zdigits2_mul_pow2; lia. }
  rewrite fexp32 in *.
  repeat split; try lia.
  rewrite Hmz, <- Hez, <- Z.mul_assoc, <- Z.pow_add_r by lia.
  f_equal. f_equal. lia.
Qed.

Lemma binary_round_valid (sx : bool) (m : positive) (e : Z) :
  valid_binary 24 128 (binary_round 24 128 sx m e) = true.
Proof.
  unfold binary_round.
  destruct (binary_round_P m e) as [HP _].
  destruct (shl_align m e (fexp 24 128 (Z.pos (digits2_pos m) + e))) as [mz ez].
  cbn [fst snd] in HP. apply binary_round_aux_valid; [lia | exact HP].
Qed.

Lemma binary_normalize_valid (n e : Z) (szero : bool) :
  valid_binary 24 128 (binary_normalize 24 128 n e szero) = true.
Proof. destruct n; [reflexivity | |]; apply binary_round_valid. Qed.

(** ** Validity of the four operations *)

Lemma SFadd_valid (x y : spec_float) :
  valid_binary 24 128 x = true -> valid_binary 24 128 y = true ->
  valid_binary 24 128 (SFadd 24 128 x y) = true.
Proof.
  intros Hx Hy.
  destruct x as [sx | sx | | sx mx ex], y as [sy | sy | | sy my ey];
    cbn [SFadd]; try assumption; try reflexivity;
    try (destruct sx, sy; reflexivity).
  apply binary_normalize_valid.
Qed.

Lemma SFsub_valid (x y : spec_float) :
  valid_binary 24 128 x = true -> valid_binary 24 128 y = true ->
  valid_binary 24 128 (SFsub 24 128 x y) = true.
Proof.
  intros Hx Hy.
  destruct x as [sx | sx | | sx mx ex], y as [sy | sy | | sy my ey];
    cbn [SFsub]; try assumption; try reflexivity;
    try (destruct sx, sy; reflexivity).
  apply binary_normalize_valid.
Qed.

Lemma canonical_bounds (m : positive) (e : Z) :
  canonical_mantissa 24 128 m e = true ->
  -149 <= e /\ Zdigits2 (Z.pos m) <= 24
  /\ (Zdigits2 (Z.pos m) = 24 \/ e = -149).
Proof.
  unfold canonical_mantissa. intros H. apply Z.eqb_eq in H.
  rewrite fexp32 in H. change (Z.pos (digits2_pos m)) with (Zdigits2 (Z.pos m)) in H.
  lia.
Qed.

Lemma bounded_bounds (m : positive) (e : Z) :
  bounded 24 128 m e = true ->
  -149 <= e <= 104 /\ Zdigits2 (Z.pos m) <= 24
  /\ (Zdigits2 (Z.pos m) = 24 \/ e = -149).
Proof.
  unfold bounded. intros H. apply andb_true_iff in H. destruct H as [Hc He].
  apply Z.leb_le in He. apply canonical_bounds in Hc. lia.
Qed.

Lemma Zdigits2_mul_lower (a b : Z) :
  0 < a -> 0 < b -> Zdigits2 a + Zdigits2 b - 1 <= Zdigits2 (a * b).
Proof.
  intros Ha Hb.
  pose proof (Zdigits2_bounds a Ha) as [Hla _].
  pose proof (Zdigits2_bounds b Hb) as [Hlb _].
  pose proof (Zdigits2_pos a Ha). pose proof (Zdigits2_pos b Hb).
  assert (Hprod : 2 ^ (Zdigits2 a - 1 + (Zdigits2 b - 1)) <= a * b).
  { rewrite Z.pow_add_r by lia.
    assert (0 < 2 ^ (Zdigits2 a - 1)) by (apply Z.pow_pos_nonneg; lia).
    assert (0 < 2 ^ (Zdigits2 b - 1)) by (apply Z.pow_pos_nonneg; lia).
    nia. }
  pose proof (Zdigits2_lower _ _ Hprod ltac:(lia)). lia.
Qed.

Lemma SFmul_P (mx my : positive) (ex ey : Z) :
  bounded 24 128 mx ex = true -> bounded 24 128 my ey = true ->
  ex + ey <= fexp 24 128 (Zdigits2 (Z.pos (mx * my)) + (ex + ey)).
Proof.
  intros Hx Hy. apply bounded_bounds in Hx, Hy.
  pose proof (Zdigits2_mul_lower (Z.pos mx) (Z.pos my) ltac:(lia) ltac:(lia)) as Hd.
  pose proof (Zdigits2_pos (Z.pos mx) ltac:(lia)).
  pose proof (Zdigits2_pos (Z.pos my) ltac:(lia)).
  rewrite Pos2Z.inj_mul, fexp32. lia.
Qed.

Lemma SFmul_valid (x y : spec_float) :
  valid_binary 24 128 x = true -> valid_binary 24 128 y = true ->
  valid_binary 24 128 (SFmul 24 128 x y) = true.
Proof.
  intros Hx Hy.
  destruct x as [sx | sx | | sx mx ex], y as [sy | sy | | sy my ey];
    cbn [SFmul]; try reflexivity.
  apply binary_round_aux_valid; [lia |]. now apply SFmul_P.
Qed.

Lemma SFdiv_core_P (m1 m2 : positive) (e1 e2 : Z) :
  let qel := SFdiv_core_binary 24 128 (Z.pos m1) e1 (Z.pos m2) e2 in
  0 <= fst (fst qel)
  /\ snd (fst qel) <= fexp 24 128 (Zdigits2 (fst (fst qel)) + snd (fst qel)).
Proof.
  unfold SFdiv_core_binary.
  set (d1 := Zdigits2 (Z.pos m1)). set (d2 := Zdigits2 (Z.pos m2)).
  set (e' := Z.min (fexp 24 128 (d1 + e1 - (d2 + e2))) (e1 - e2)).
  set (s := e1 - e2 - e').
  assert (Hs : 0 <= s) by (unfold s, e'; lia).
  set (m' := match s with
             | 0 => Z.pos m1
             | Z.pos _ => Z.shiftl (Z.pos m1) s
             | Z.neg _ => 0
             end).
  assert (Hm' : m' = Z.pos m1 * 2 ^ s).
  { unfold m'. destruct s as [| p | p] eqn:Es; [simpl; lia | | lia].
    now rewrite Z.shiftl_mul_pow2 by lia. }
  assert (Hq : fst (Z.div_eucl m' (Z.pos m2)) = m' / Z.pos m2).
  { unfold Z.div. now destruct (Z.div_eucl m' (Z.pos m2)). }
  destruct (Z.div_eucl m' (Z.pos m2)) as [q r]. cbn [fst snd] in *.
  assert (Hp : 0 < 2 ^ s) by (apply Z.pow_pos_nonneg; lia).
  assert (Hq0 : 0 <= q).
  { rewrite Hq. apply Z.div_pos; [rewrite Hm' |]; lia. }
  split; [exact Hq0 |].
  rewrite fexp32. unfold e' at 1. rewrite fexp32.
  destruct (Z.le_gt_cases (d1 + e1 - (d2 + e2) - 24) (-149)) as [Hsub | Hnorm];
    [lia |].
  assert (He' : e' <= d1 + e1 - (d2 + e2) - 24).
  { unfold e'. rewrite fexp32. lia. }
  assert (Hd1 : 0 < d1) by (apply Zdigits2_pos; lia).
  assert (Hd2 : 0 < d2) by (apply Zdigits2_pos; lia).
  assert (Hk : 0 <= d1 + s - 1 - d2) by (unfold s; lia).
  assert (Hlow : 2 ^ (d1 + s - 1 - d2) <= q).
  { rewrite Hq. apply Z.div_le_lower_bound; [lia |].
    pose proof (Zdigits2_bounds (Z.pos m1) ltac:(lia)) as [Hl1 _].
    pose proof (Zdigits2_bounds (Z.pos m2) ltac:(lia)) as [_ Hh2].
    fold d1 in Hl1. fold d2 in Hh2.
    assert (E : 2 ^ (d1 + s - 1) = 2 ^ d2 * 2 ^ (d1 + s - 1 - d2)).
    { rewrite <- Z.pow_add_r by lia. f_equal. lia. }
    assert (E2 : 2 ^ (d1 + s - 1) = 2 ^ (d1 - 1) * 2 ^ s).
    { rewrite <- Z.pow_add_r by lia. f_equal. lia. }
    assert (0 < 2 ^ (d1 + s - 1 - d2)) by (apply Z.pow_pos_nonneg; lia).
    rewrite Hm'. nia. }
  pose proof (Zdigits2_lower _ _ Hlow Hk) as Hdq.
  unfold s in Hdq. lia.
Qed.

Lemma SFdiv_valid (x y : spec_float) :
  valid_binary 24 128 (SFdiv 24 128 x y) = true.
Proof.
  destruct x as [sx | sx | | sx mx ex], y as [sy | sy | | sy my ey];
    cbn [SFdiv]; try reflexivity.
  pose proof (SFdiv_core_P mx my ex ey) as HP. cbv zeta in HP.
  destruct (SFdiv_core_binary 24 128 (Z.pos mx) ex (Z.pos my) ey) as [[q e'] l].
  cbn [fst snd] in HP. destruct HP as [Hq HP].
  now apply binary_round_aux_valid.
Qed.


(** ** Values as integers, in units of [2^-149] *)

Lemma nonneg_valid (x : spec_float) : nonneg x -> valid_binary 24 128 x = true.
Proof. destruct x as [[] | | | [] m e]; simpl; tauto. Qed.

Lemma V_nonneg (x : spec_float) : 0 <= V x.
Proof.
  destruct x as [| | | [] m e]; cbn [V]; try lia.
  all: apply Z.mul_nonneg_nonneg; [lia |]; apply Z.pow_nonneg; lia.
Qed.

Lemma V_finite_pos (m : positive) (e : Z) :
  -149 <= e -> 0 < V (S754_finite false m e).
Proof.
  intros He. cbn [V]. apply Z.mul_pos_pos; [lia |]. apply Z.pow_pos_nonneg; lia.
Qed.

Lemma rnd_up_scale (a i j : Z) :
  0 <= i -> 0 <= j -> rnd_up (a * 2 ^ j) (i + j) = rnd_up a i.
Proof.
  intros Hi Hj. unfold rnd_up.
  assert (Hpi : 0 < 2 ^ i) by (apply Z.pow_pos_nonneg; lia).
  assert (Hpj : 0 < 2 ^ j) by (apply Z.pow_pos_nonneg; lia).
  rewrite Z.pow_add_r by lia.
  rewrite Z.mul_mod_distr_r by lia.
  rewrite Z.div_mul_cancel_r by lia.
  f_equal; [| f_equal].
  - destruct (Z.ltb_spec (2 ^ i) (2 * (a mod 2 ^ i)));
      destruct (Z.ltb_spec (2 ^ i * 2 ^ j) (2 * (a mod 2 ^ i * 2 ^ j)));
      try reflexivity; exfalso; nia.
  - destruct (Z.eqb_spec (2 ^ i) (2 * (a mod 2 ^ i)));
      destruct (Z.eqb_spec (2 ^ i * 2 ^ j) (2 * (a mod 2 ^ i * 2 ^ j)));
      try reflexivity; exfalso; nia.
Qed.

(** Rounding a positive mantissa at an exponent not below [emin]: the
    result is a valid positive number whose value is [rnd] of the value. *)
Lemma round_aux_value (m e : Z) :
  0 < m -> -149 <= e -> e <= fexp 24 128 (Zdigits2 m + e) ->
  Zdigits2 m + e <= 127 ->
  exists (m2 : positive) (e2 : Z),
    binary_round_aux 24 128 false m e loc_Exact = S754_finite false m2 e2
    /\ bounded 24 128 m2 e2 = true
    /\ Z.pos m2 * 2 ^ (e2 + 149) = rnd (m * 2 ^ (e + 149)).
Proof.
  intros Hm He HP Hov.
  destruct (binary_round_aux_exact m e Hm He HP Hov)
    as [m2 [e2 [Heq [He2 [Hval Hb]]]]].
  exists m2, e2. split; [exact Heq |]. split; [exact Hb |].
  set (s := fexp 24 128 (Zdigits2 m + e) - e) in *.
  assert (Hs : 0 <= s) by (unfold s; lia).
  unfold rnd.
  rewrite Zdigits2_mul_pow2 by lia.
  assert (Hsn : Z.max (Zdigits2 m + (e + 149) - 24) 0 = s + (e + 149)).
  { unfold s. rewrite fexp32. lia. }
  rewrite Hsn, rnd_up_scale by lia.
  rewrite (Z.pow_add_r 2 s (e + 149)) at 1 by lia.
  rewrite Z.div_mul_cancel_r;
    [| apply Z.pow_nonzero; lia | apply Z.pow_nonzero; lia].
  rewrite <- Hval.
  replace (e2 + 149) with (e2 - (e + s) + (s + (e + 149))) by lia.
  rewrite Z.pow_add_r by lia. lia.
Qed.

Lemma binary_round_value (m : positive) (e : Z) :
  -149 <= e -> Zdigits2 (Z.pos m) + e <= 127 ->
  exists (m2 : positive) (e2 : Z),
    binary_round 24 128 false m e = S754_finite false m2 e2
    /\ bounded 24 128 m2 e2 = true
    /\ Z.pos m2 * 2 ^ (e2 + 149) = rnd (Z.pos m * 2 ^ (e + 149)).
Proof.
  intros He Hov. unfold binary_round.
  destruct (binary_round_P m e) as [HP [Hd [Hv Hez]]].
  destruct (shl_align m e (fexp 24 128 (Z.pos (digits2_pos m) + e))) as [mz ez].
  cbn [fst snd] in *.
  replace (Z.min e (-149)) with (-149) in * by lia.
  destruct (round_aux_value (Z.pos mz) ez ltac:(lia) Hez HP ltac:(lia))
    as [m2 [e2 [Heq [Hb Hval]]]].
  exists m2, e2. split; [exact Heq |]. split; [exact Hb |].
  rewrite Hval. f_equal.
  replace (ez + 149) with (ez - -149) by lia.
  replace (e + 149) with (e - -149) by lia. exact Hv.
Qed.

(** A valid number rounds to itself. *)
Lemma rnd_repr (m : positive) (e : Z) :
  bounded 24 128 m e = true ->
  rnd (Z.pos m * 2 ^ (e + 149)) = Z.pos m * 2 ^ (e + 149).
Proof.
  intros Hb. apply bounded_bounds in Hb. unfold rnd.
  rewrite Zdigits2_mul_pow2 by lia.
  assert (Hs : Z.max (Zdigits2 (Z.pos m) + (e + 149) - 24) 0 = e + 149) by lia.
  rewrite Hs. unfold rnd_up.
  assert (Hp : 0 < 2 ^ (e + 149)) by (apply Z.pow_pos_nonneg; lia).
  rewrite Z.mod_mul, Z.div_mul by lia.
  replace (2 ^ (e + 149) <? 2 * 0) with false by (symmetry; apply Z.ltb_ge; lia).
  replace (2 ^ (e + 149) =? 2 * 0) with false by (symmetry; apply Z.eqb_neq; lia).
  cbn [orb andb]. lia.
Qed.

Lemma rnd_V (x : spec_float) : nonneg x -> rnd (V x) = V x.
Proof.
  destruct x as [[] | | | [] m e]; cbn [V nonneg]; try tauto; intros H;
    try reflexivity.
  exact (rnd_repr m e H).
Qed.

Lemma V_bound_digits (m : Z) (e : Z) (k : Z) :
  0 < m -> -149 <= e -> m * 2 ^ (e + 149) <= 2 ^ k -> 0 <= k ->
  Zdigits2 m + e <= k + 1 - 149.
Proof.
  intros Hm He Hle Hk.
  pose proof (Zdigits2_bounds m Hm) as [Hlo _].
  pose proof (Zdigits2_pos m Hm) as Hd.
  assert (Hp : 0 < 2 ^ (e + 149)) by (apply Z.pow_pos_nonneg; lia).
  assert (H1 : 2 ^ (Zdigits2 m - 1 + (e + 149)) <= 2 ^ k).
  { rewrite Z.pow_add_r by lia. nia. }
  apply Z.pow_le_mono_r_iff in H1; lia.
Qed.


(** ** Sums and differences of non-negative numbers *)

Lemma aligned_value (m : positive) (e ez : Z) :
  -149 <= ez -> ez <= e ->
  Z.pos (fst (shl_align m e ez)) * 2 ^ (ez + 149) = Z.pos m * 2 ^ (e + 149).
Proof.
  intros Hez Hle. destruct (shl_align_spec m e ez) as [_ ->].
  replace (Z.min e ez) with ez by lia.
  rewrite <- Z.mul_assoc, <- Z.pow_add_r by lia. do 2 f_equal. lia.
Qed.

Lemma SFadd_value (x y : spec_float) :
  nonneg x -> nonneg y -> V x + V y <= 2 ^ 160 ->
  nonneg (SFadd 24 128 x y) /\ V (SFadd 24 128 x y) = rnd (V x + V y).
Proof.
  intros Hx Hy Hsmall.
  destruct x as [[] | | | [] mx ex]; cbn [nonneg] in Hx; try contradiction;
    destruct y as [[] | | | [] my ey]; cbn [nonneg] in Hy; try contradiction.
  - split; reflexivity.
  - cbn [SFadd nonneg]. split; [exact Hy |].
    change (V (S754_zero false)) with 0. rewrite Z.add_0_l.
    symmetry. apply (rnd_V (S754_finite false my ey)). exact Hy.
  - cbn [SFadd nonneg]. split; [exact Hx |].
    change (V (S754_zero false)) with 0. rewrite Z.add_0_r.
    symmetry. apply (rnd_V (S754_finite false mx ex)). exact Hx.
  - pose proof (bounded_bounds _ _ Hx) as Bx.
    pose proof (bounded_bounds _ _ Hy) as By.
    cbn [SFadd cond_Zopp V] in *.
    set (ez := Z.min ex ey) in *.
    pose proof (aligned_value mx ex ez ltac:(lia) ltac:(lia)) as Ha.
    pose proof (aligned_value my ey ez ltac:(lia) ltac:(lia)) as Hb.
    set (a := fst (shl_align mx ex ez)) in *.
    set (b := fst (shl_align my ey ez)) in *.
    change (Z.pos a + Z.pos b) with (Z.pos (a + b)).
    cbn [binary_normalize].
    assert (Hsum : Z.pos (a + b) * 2 ^ (ez + 149)
                   = Z.pos mx * 2 ^ (ex + 149) + Z.pos my * 2 ^ (ey + 149)).
    { rewrite Pos2Z.inj_add, Z.mul_add_distr_r. lia. }
    assert (Hd : Zdigits2 (Z.pos (a + b)) + ez <= 127).
    { pose proof (V_bound_digits (Z.pos (a + b)) ez 160 ltac:(lia) ltac:(lia)
                    ltac:(rewrite Hsum; exact Hsmall) ltac:(lia)). lia. }
    destruct (binary_round_value (a + b) ez ltac:(lia) Hd)
      as [m2 [e2 [-> [Hb2 Hv]]]].
    cbn [nonneg V]. split; [exact Hb2 |]. now rewrite Hv, Hsum.
Qed.

Lemma negative_not_above_zero (x : spec_float) :
  match x with
  | S754_zero _ | S754_nan | S754_infinity true | S754_finite true _ _ => True
  | _ => False
  end ->
  SFltb (S754_zero false) x = false.
Proof. destruct x as [[] | [] | | [] m e]; simpl; tauto. Qed.

Lemma binary_round_negative (m : positive) (e : Z) :
  SFltb (S754_zero false) (binary_round 24 128 true m e) = false.
Proof.
  apply negative_not_above_zero.
  unfold binary_round. destruct (shl_align _ _ _) as [mz ez].
  unfold binary_round_aux.
  destruct (shr_fexp 24 128 (Z.pos mz) ez loc_Exact) as [mrs1 e1].
  destruct (shr_fexp 24 128 _ e1 loc_Exact) as [mrs2 e2].
  destruct (shr_m mrs2); [exact I | | exact I].
  destruct (e2 <=? 128 - 24); exact I.
Qed.

(** [x - y] for non-negative [x] and [y]: the rounded difference when
    [y < x], and nothing above zero otherwise. *)
Lemma SFsub_value (x y : spec_float) :
  nonneg x -> nonneg y -> V x <= 2 ^ 160 ->
  (V y < V x ->
   nonneg (SFsub 24 128 x y) /\ V (SFsub 24 128 x y) = rnd (V x - V y))
  /\ (V x <= V y -> SFltb (S754_zero false) (SFsub 24 128 x y) = false).
Proof.
  intros Hx Hy Hsmall.
  destruct x as [[] | | | [] mx ex]; cbn [nonneg] in Hx; try contradiction;
    destruct y as [[] | | | [] my ey]; cbn [nonneg] in Hy; try contradiction.
  - split; [cbn [V]; lia | reflexivity].
  - split; [| reflexivity].
    pose proof (V_finite_pos my ey ltac:(apply bounded_bounds in Hy; lia)).
    change (V (S754_zero false)) with 0. lia.
  - pose proof (V_finite_pos mx ex ltac:(apply bounded_bounds in Hx; lia)).
    change (V (S754_zero false)) with 0. split; [| lia].
    intros _. cbn [SFsub nonneg]. split; [exact Hx |].
    rewrite Z.sub_0_r. symmetry.
    apply (rnd_V (S754_finite false mx ex)). exact Hx.
  - pose proof (bounded_bounds _ _ Hx) as Bx.
    pose proof (bounded_bounds _ _ Hy) as By.
    cbn [SFsub cond_Zopp V] in *.
    set (ez := Z.min ex ey) in *.
    pose proof (aligned_value mx ex ez ltac:(lia) ltac:(lia)) as Ha.
    pose proof (aligned_value my ey ez ltac:(lia) ltac:(lia)) as Hb.
    set (a := fst (shl_align mx ex ez)) in *.
    set (b := fst (shl_align my ey ez)) in *.
    assert (Hp : 0 < 2 ^ (ez + 149)) by (apply Z.pow_pos_nonneg; lia).
    assert (Hdiff : (Z.pos a - Z.pos b) * 2 ^ (ez + 149)
                    = Z.pos mx * 2 ^ (ex + 149) - Z.pos my * 2 ^ (ey + 149)).
    { rewrite Z.mul_sub_distr_r. lia. }
    destruct (Z.pos a - Z.pos b) as [| d | d] eqn:Ed; cbn [binary_normalize].
    + split; [lia | reflexivity].
    + split; [| intros Hle; exfalso; nia].
      intros _.
      assert (Hd : Zdigits2 (Z.pos d) + ez <= 127).
      { assert (Z.pos d * 2 ^ (ez + 149) <= 2 ^ 160).
        { rewrite Hdiff.
          assert (0 < Z.pos my * 2 ^ (ey + 149)).
          { apply Z.mul_pos_pos; [lia |]. apply Z.pow_pos_nonneg; lia. }
          lia. }
        pose proof (V_bound_digits (Z.pos d) ez 160 ltac:(lia) ltac:(lia)
                      ltac:(assumption) ltac:(lia)). lia. }
      destruct (binary_round_value d ez ltac:(lia) Hd)
        as [m2 [e2 [-> [Hb2 Hv]]]].
      cbn [nonneg V]. split; [exact Hb2 |]. now rewrite Hv, Hdiff.
    + split; [intros Hlt; exfalso; nia |].
      intros _. apply binary_round_negative.
Qed.

(** ** Comparisons *)

Lemma V_lt_exponent (m1 m2 : positive) (e1 e2 : Z) :
  bounded 24 128 m1 e1 = true -> bounded 24 128 m2 e2 = true ->
  e1 < e2 -> Z.pos m1 * 2 ^ (e1 + 149) < Z.pos m2 * 2 ^ (e2 + 149).
Proof.
  intros H1 H2 Hlt. apply bounded_bounds in H1, H2.
  pose proof (Zdigits2_bounds (Z.pos m1) ltac:(lia)) as [_ Hhi].
  pose proof (Zdigits2_bounds (Z.pos m2) ltac:(lia)) as [Hlo _].
  assert (Hd2 : Zdigits2 (Z.pos m2) = 24) by lia. rewrite Hd2 in Hlo.
  assert (Hm1 : Z.pos m1 < 2 ^ 24).
  { assert (2 ^ Zdigits2 (Z.pos m1) <= 2 ^ 24) by (apply Z.pow_le_mono_r; lia).
    lia. }
  assert (Hp1 : 0 < 2 ^ (e1 + 149)) by (apply Z.pow_pos_nonneg; lia).
  assert (Hstep : 2 ^ (e2 + 149) = 2 ^ (e2 - e1 - 1) * (2 * 2 ^ (e1 + 149))).
  { rewrite <- Z.pow_succ_r, <- Z.pow_add_r by lia. f_equal. lia. }
  assert (Hp2 : 1 <= 2 ^ (e2 - e1 - 1)).
  { assert (0 < 2 ^ (e2 - e1 - 1)) by (apply Z.pow_pos_nonneg; lia). lia. }
  rewrite Hstep. change (2 ^ 24) with 16777216 in *.
  change (2 ^ (24 - 1)) with 8388608 in *. nia.
Qed.

Lemma SFcompare_V (x y : spec_float) :
  nonneg x -> nonneg y -> SFcompare x y = Some (V x ?= V y).
Proof.
  intros Hx Hy.
  destruct x as [[] | | | [] mx ex]; cbn [nonneg] in Hx; try contradiction;
    destruct y as [[] | | | [] my ey]; cbn [nonneg] in Hy; try contradiction.
  - reflexivity.
  - pose proof (V_finite_pos my ey ltac:(apply bounded_bounds in Hy; lia)) as Hp.
    cbn [SFcompare]. change (V (S754_zero false)) with 0.
    symmetry. f_equal. apply Z.compare_lt_iff. exact Hp.
  - pose proof (V_finite_pos mx ex ltac:(apply bounded_bounds in Hx; lia)) as Hp.
    cbn [SFcompare]. change (V (S754_zero false)) with 0.
    symmetry. f_equal. apply Z.compare_gt_iff. exact Hp.
  - cbn [SFcompare V]. f_equal.
    destruct (Z.compare_spec ex ey) as [E | E | E].
    + subst ey. change (Pos.compare_cont Eq mx my) with (Z.pos mx ?= Z.pos my).
      assert (Hp : 0 < 2 ^ (ex + 149)).
      { apply Z.pow_pos_nonneg; [lia |]. apply bounded_bounds in Hx. lia. }
      apply Zcompare.Zmult_compare_compat_r. lia.
    + symmetry. apply Z.compare_lt_iff. now apply V_lt_exponent.
    + symmetry. apply Z.compare_gt_iff. now apply V_lt_exponent.
Qed.

Lemma SFltb_V (x y : spec_float) :
  nonneg x -> nonneg y -> SFltb x y = (V x <? V y).
Proof.
  intros Hx Hy. unfold SFltb, Z.ltb. rewrite (SFcompare_V x y Hx Hy).
  reflexivity.
Qed.

Lemma SFleb_V (x y : spec_float) :
  nonneg x -> nonneg y -> SFleb x y = (V x <=? V y).
Proof.
  intros Hx Hy. unfold SFleb, Z.leb. rewrite (SFcompare_V x y Hx Hy).
  reflexivity.
Qed.


(** ** Bounds on the rounding function *)

Lemma rnd_cases (n : Z) :
  0 <= n ->
  let s := Z.max (Zdigits2 n - 24) 0 in
  n = n / 2 ^ s * 2 ^ s + n mod 2 ^ s
  /\ 0 <= n mod 2 ^ s < 2 ^ s
  /\ (rnd n = n / 2 ^ s * 2 ^ s
      \/ (rnd n = (n / 2 ^ s + 1) * 2 ^ s /\ 2 ^ s <= 2 * (n mod 2 ^ s))).
Proof.
  intros Hn s.
  assert (Hp : 0 < 2 ^ s) by (apply Z.pow_pos_nonneg; unfold s; lia).
  split; [rewrite Z.mul_comm; apply Z.div_mod; lia |].
  split; [apply Z.mod_pos_bound; lia |].
  unfold rnd. fold s. unfold rnd_up.
  destruct (Z.ltb_spec (2 ^ s) (2 * (n mod 2 ^ s))) as [Hlt | Hge]; cbn [orb].
  - right. split; [reflexivity | lia].
  - destruct (Z.eqb_spec (2 ^ s) (2 * (n mod 2 ^ s))) as [Heq | Hne];
      cbn [andb].
    + destruct (Z.odd (n / 2 ^ s)).
      * right. split; [reflexivity | lia].
      * left. f_equal. lia.
    + left. f_equal. lia.
Qed.

Lemma rnd_0 : rnd 0 = 0.
Proof. reflexivity. Qed.

Lemma repr_shift (m : positive) (e : Z) :
  bounded 24 128 m e = true ->
  Z.max (Zdigits2 (Z.pos m * 2 ^ (e + 149)) - 24) 0 = e + 149.
Proof.
  intros Hb. apply bounded_bounds in Hb.
  rewrite Zdigits2_mul_pow2 by lia. lia.
Qed.

(** Rounding does not pass a valid number above the argument. *)
Lemma rnd_le_repr (n : Z) (m : positive) (e : Z) :
  0 <= n -> bounded 24 128 m e = true ->
  n <= Z.pos m * 2 ^ (e + 149) -> rnd n <= Z.pos m * 2 ^ (e + 149).
Proof.
  intros Hn Hb Hle.
  destruct (Z.eq_dec n 0) as [-> | Hn0]; [rewrite rnd_0; lia |].
  pose proof (repr_shift m e Hb) as Hsr.
  pose proof (bounded_bounds m e Hb) as Bb.
  destruct (rnd_cases n Hn) as [Hdm [Hr [-> | [-> Hup]]]].
  - set (s := Z.max (Zdigits2 n - 24) 0) in *. lia.
  - set (s := Z.max (Zdigits2 n - 24) 0) in *.
    assert (Hs : 0 <= s <= e + 149).
    { pose proof (Zdigits2_mono n _ ltac:(lia) Hle). unfold s. lia. }
    assert (Hp : 0 < 2 ^ s) by (apply Z.pow_pos_nonneg; lia).
    assert (HR : Z.pos m * 2 ^ (e + 149)
                 = Z.pos m * 2 ^ (e + 149 - s) * 2 ^ s).
    { rewrite <- Z.mul_assoc, <- Z.pow_add_r by lia. do 2 f_equal. lia. }
    rewrite HR in *.
    set (k := Z.pos m * 2 ^ (e + 149 - s)) in *.
    set (q := n / 2 ^ s) in *. set (r := n mod 2 ^ s) in *.
    assert (q < k) by nia. nia.
Qed.

(** Rounding does not pass a valid number below the argument. *)
Lemma rnd_ge_repr (n : Z) (m : positive) (e : Z) :
  bounded 24 128 m e = true ->
  Z.pos m * 2 ^ (e + 149) <= n -> Z.pos m * 2 ^ (e + 149) <= rnd n.
Proof.
  intros Hb Hle.
  pose proof (repr_shift m e Hb) as Hsr.
  pose proof (bounded_bounds m e Hb) as Bb.
  assert (HRpos : 0 < Z.pos m * 2 ^ (e + 149)).
  { apply Z.mul_pos_pos; [lia |]. apply Z.pow_pos_nonneg; lia. }
  assert (Hn : 0 < n) by lia.
  assert (Hlow : Z.pos m * 2 ^ (e + 149)
                 <= n / 2 ^ Z.max (Zdigits2 n - 24) 0
                    * 2 ^ Z.max (Zdigits2 n - 24) 0).
  { set (s := Z.max (Zdigits2 n - 24) 0).
    assert (Hp : 0 < 2 ^ s) by (apply Z.pow_pos_nonneg; unfold s; lia).
    pose proof (Zdigits2_mono _ n HRpos Hle) as Hmono.
    pose proof (Zdigits2_pos n Hn) as Hdn.
    destruct (Z.eq_dec (Zdigits2 (Z.pos m * 2 ^ (e + 149))) (Zdigits2 n))
      as [Heq | Hne].
    - assert (Hs : s = e + 149) by (unfold s; lia).
      rewrite Hs in *.
      assert (Z.pos m <= n / 2 ^ (e + 149)).
      { apply Z.div_le_lower_bound; lia. }
      nia.
    - pose proof (Zdigits2_bounds _ HRpos) as [_ HhiR].
      pose proof (Zdigits2_bounds n Hn) as [Hlon _].
      assert (Hpow : 2 ^ Zdigits2 (Z.pos m * 2 ^ (e + 149))
                     <= 2 ^ (Zdigits2 n - 1)).
      { apply Z.pow_le_mono_r; lia. }
      assert (Hsplit : 2 ^ (Zdigits2 n - 1) = 2 ^ (Zdigits2 n - 1 - s) * 2 ^ s).
      { rewrite <- Z.pow_add_r by (unfold s; lia). f_equal. lia. }
      assert (Hq : 2 ^ (Zdigits2 n - 1 - s) <= n / 2 ^ s).
      { apply Z.div_le_lower_bound; [lia |]. rewrite Z.mul_comm, <- Hsplit.
        exact Hlon. }
      assert (0 < 2 ^ (Zdigits2 n - 1 - s))
        by (apply Z.pow_pos_nonneg; unfold s; lia).
      nia. }
  destruct (rnd_cases n ltac:(lia)) as [_ [_ [-> | [-> _]]]]; [exact Hlow |].
  set (s := Z.max (Zdigits2 n - 24) 0) in *.
  assert (Hp : 0 < 2 ^ s) by (apply Z.pow_pos_nonneg; unfold s; lia).
  nia.
Qed.

Lemma rnd_error_below_one (n : Z) :
  0 <= n <= ONE -> rnd n <= n + 2 ^ 124.
Proof.
  unfold ONE. intros [Hn Hle].
  destruct (rnd_cases n Hn) as [Hdm [Hr [-> | [-> Hup]]]].
  - assert (0 < 2 ^ 124) by (apply Z.pow_pos_nonneg; lia). lia.
  - set (s := Z.max (Zdigits2 n - 24) 0) in *.
    assert (Hn0 : 0 < n).
    { destruct (Z.eq_dec n 0) as [E | ]; [| lia]. subst n.
      change (0 mod 2 ^ s) with (0 mod 2 ^ s) in Hup.
      rewrite Z.mod_0_l in Hup by lia.
      assert (0 < 2 ^ s) by (apply Z.pow_pos_nonneg; unfold s; lia). lia. }
    destruct (Z.eq_dec n (2 ^ 149)) as [E | Hne].
    + exfalso. subst n. change (Zdigits2 (2 ^ 149)) with 150 in s.
      change s with 126 in Hup.
      change (2 ^ 149 mod 2 ^ 126) with 0 in Hup.
      change (2 ^ 126) with 85070591730234615865843651857942052864 in Hup. lia.
    + pose proof (Zdigits2_upper n 149 Hn0 ltac:(lia)) as Hd.
      assert (Hs : 0 <= s <= 125) by (unfold s; lia).
      assert (Hps : 2 ^ s <= 2 ^ 125) by (apply Z.pow_le_mono_r; lia).
      change (2 ^ 125) with (2 * 2 ^ 124) in Hps.
      set (q := n / 2 ^ s) in *. set (r := n mod 2 ^ s) in *.
      nia.
Qed.

Lemma rnd_at_most_one (n : Z) :
  0 <= n <= ONE + 2 ^ 125 -> rnd n <= ONE.
Proof.
  unfold ONE. intros [Hn Hle].
  destruct (Z.le_gt_cases n (2 ^ 149)) as [Hsmall | Hbig].
  - apply (rnd_le_repr n 8388608%positive (-23) Hn eq_refl).
    change (Z.pos 8388608 * 2 ^ (-23 + 149)) with (2 ^ 149). exact Hsmall.
  - assert (Hd : Zdigits2 n = 150).
    { apply Zdigits2_unique; [| lia]. split; [simpl in *; lia |].
      change (2 ^ 150) with (2 ^ 149 + 2 ^ 149).
      assert (2 ^ 125 < 2 ^ 149) by reflexivity. lia. }
    unfold rnd. rewrite Hd. change (Z.max (150 - 24) 0) with 126.
    assert (Hq : n / 2 ^ 126 = 2 ^ 23).
    { symmetry. apply (Z.div_unique n (2 ^ 126) (2 ^ 23) (n - 2 ^ 149)).
      - left. split; [lia |].
        assert (2 ^ 125 < 2 ^ 126) by reflexivity. lia.
      - change (2 ^ 126 * 2 ^ 23) with (2 ^ 149). lia. }
    assert (Hr : n mod 2 ^ 126 = n - 2 ^ 149).
    { symmetry. apply (Z.mod_unique n (2 ^ 126) (2 ^ 23) (n - 2 ^ 149)).
      - left. split; [lia |].
        assert (2 ^ 125 < 2 ^ 126) by reflexivity. lia.
      - change (2 ^ 126 * 2 ^ 23) with (2 ^ 149). lia. }
    unfold rnd_up. rewrite Hq, Hr.
    change (Z.odd (2 ^ 23)) with false. rewrite andb_false_r, orb_false_r.
    replace (2 ^ 126 <? 2 * (n - 2 ^ 149)) with false.
    + change ((2 ^ 23 + 0) * 2 ^ 126) with (2 ^ 149). lia.
    + symmetry. apply Z.ltb_ge. change (2 ^ 126) with (2 * 2 ^ 125). lia.
Qed.


(** ** binary32 operations of the model *)

Lemma F32_one_eq : F32.one = S754_finite false 8388608 (-23).
Proof. reflexivity. Qed.

Lemma F32_add_valid (x y : F32.t) :
  F32.valid x = true -> F32.valid y = true -> F32.valid (F32.add x y) = true.
Proof. apply SFadd_valid. Qed.

Lemma F32_sub_valid (x y : F32.t) :
  F32.valid x = true -> F32.valid y = true -> F32.valid (F32.sub x y) = true.
Proof. apply SFsub_valid. Qed.

Lemma F32_mul_valid (x y : F32.t) :
  F32.valid x = true -> F32.valid y = true -> F32.valid (F32.mul x y) = true.
Proof. apply SFmul_valid. Qed.

Lemma F32_div_valid (x y : F32.t) : F32.valid (F32.div x y) = true.
Proof. apply SFdiv_valid. Qed.

Lemma F32_of_Z_valid (n : Z) : F32.valid (F32.of_Z n) = true.
Proof. apply binary_normalize_valid. Qed.

Lemma F32_max_valid (x y : F32.t) :
  F32.valid x = true -> F32.valid y = true -> F32.valid (F32.max x y) = true.
Proof. intros Hx Hy. unfold F32.max. now destruct (F32.ltb x y). Qed.

Lemma F32_min_valid (x y : F32.t) :
  F32.valid x = true -> F32.valid y = true -> F32.valid (F32.min x y) = true.
Proof. intros Hx Hy. unfold F32.min. now destruct (F32.ltb y x). Qed.

(** [clamp01] returns [+0], 1 or a valid number between them. *)
Lemma clamp01_range (v : F32.t) :
  F32.valid v = true -> nonneg (clamp01 v) /\ V (clamp01 v) <= ONE.
Proof.
  intros Hv. unfold clamp01, F32.max, F32.min, F32.ltb.
  assert (Hone : nonneg F32.one /\ V F32.one = ONE) by (split; reflexivity).
  destruct (SFltb v F32.one) eqn:E1.
  - destruct (SFltb F32.zero v) eqn:E2.
    + assert (Hnn : nonneg v).
      { destruct v as [[] | [] | | [] m e]; try discriminate E2;
          try discriminate E1. exact Hv. }
      split; [exact Hnn |].
      rewrite (SFltb_V v F32.one Hnn (proj1 Hone)) in E1.
      apply Z.ltb_lt in E1. rewrite (proj2 Hone) in E1. lia.
    + split; [exact I |]. change (V F32.zero) with 0. unfold ONE.
      apply Z.pow_nonneg. lia.
  - change (SFltb F32.zero F32.one) with true. cbv iota.
    split; [apply Hone |]. rewrite (proj2 Hone). lia.
Qed.

Lemma clamp01_valid (v : F32.t) :
  F32.valid v = true -> F32.valid (clamp01 v) = true.
Proof. intros Hv. apply nonneg_valid. now apply clamp01_range. Qed.

(** The span from [x0] to [x1], both in [0, 1]: the width
    [max(0, x1 - x0)] added to [x0] does not pass 1. *)
Lemma unit_span (x0 x1 : F32.t) :
  nonneg x0 -> V x0 <= ONE -> nonneg x1 -> V x1 <= ONE ->
  F32.leb F32.zero x0 = true
  /\ F32.leb (F32.add x0 (F32.max F32.zero (F32.sub x1 x0))) F32.one = true.
Proof.
  intros H0 B0 H1 B1.
  assert (Hone : nonneg F32.one /\ V F32.one = ONE) by (split; reflexivity).
  assert (Hzero : nonneg F32.zero) by exact I.
  assert (HONE : ONE = 2 ^ 149) by reflexivity.
  assert (Hbig : 2 ^ 149 + 2 ^ 149 <= 2 ^ 160) by (vm_compute; discriminate).
  assert (H124 : 0 < 2 ^ 124 /\ 2 * 2 ^ 124 = 2 ^ 125) by (split; reflexivity).
  pose proof (V_nonneg x0) as P0. pose proof (V_nonneg x1) as P1.
  split.
  - unfold F32.leb. rewrite (SFleb_V _ _ Hzero H0).
    change (V F32.zero) with 0. apply Z.leb_le. exact P0.
  - assert (Hadd0 : F32.add x0 (S754_zero false) = x0).
    { destruct x0 as [[] | | | [] m e]; cbn [nonneg] in H0; try contradiction;
        reflexivity. }
    assert (Hx0 : F32.leb x0 F32.one = true).
    { unfold F32.leb. rewrite (SFleb_V _ _ H0 (proj1 Hone)), (proj2 Hone).
      apply Z.leb_le. exact B0. }
    destruct (SFsub_value x1 x0 H1 H0 ltac:(lia)) as [Hpos Hneg].
    unfold F32.max, F32.ltb.
    destruct (Z.le_gt_cases (V x1) (V x0)) as [Hle | Hlt].
    + unfold F32.sub, F32.prec, F32.emax, F32.zero. rewrite (Hneg Hle).
      rewrite Hadd0. exact Hx0.
    + destruct (Hpos Hlt) as [Hnn Hval].
      unfold F32.sub, F32.prec, F32.emax, F32.zero.
      destruct (SFltb (S754_zero false) (SFsub 24 128 x1 x0));
        [| now rewrite Hadd0].
      pose proof (rnd_error_below_one (V x1 - V x0) ltac:(lia)) as Herr.
      destruct (SFadd_value x0 (SFsub 24 128 x1 x0) H0 Hnn
                  ltac:(rewrite Hval; lia)) as [Hs Hsv].
      unfold F32.leb, F32.add, F32.prec, F32.emax.
      rewrite (SFleb_V _ _ Hs (proj1 Hone)), (proj2 Hone), Hsv, Hval.
      apply Z.leb_le. apply rnd_at_most_one.
      pose proof (V_nonneg (SFsub 24 128 x1 x0)) as Pw. rewrite Hval in Pw.
      lia.
Qed.

Lemma undo_letterbox_valid (img_w img_h : Z) (nb : HailoBBox) :
  valid_box (undo_letterbox img_w img_h nb).
Proof.
  unfold undo_letterbox, valid_box. cbn [xmin ymin width height].
  repeat split;
    repeat first [ apply clamp01_valid | apply F32_div_valid
                 | apply F32_max_valid | apply F32_sub_valid
                 | reflexivity ].
Qed.

Lemma some_eq {A : Type} (a b : A) : Some a = Some b -> a = b.
Proof. congruence. Qed.

(** The box [adjust_box] writes lies in the unit square. *)
Lemma adjust_box_in_unit (img_w img_h : Z) (use_letterbox : bool)
  (nb0 b : HailoBBox) :
  valid_box nb0 ->
  adjust_box img_w img_h use_letterbox nb0 = Some b -> box_in_unit b.
Proof.
  intros Hnb0. unfold adjust_box.
  set (nb := if use_letterbox then undo_letterbox img_w img_h nb0 else nb0).
  assert (Hnb : valid_box nb).
  { unfold nb. destruct use_letterbox; [apply undo_letterbox_valid | exact Hnb0]. }
  destruct Hnb as [Vx [Vy [Vw Vh]]].
  destruct (_ || _); [discriminate |].
  intros Hb. apply some_eq in Hb. rewrite <- Hb. clear Hb b.
  set (grow := F32.ltb _ TARGET_MIN_H_PX).
  set (new_h_n := F32.div TARGET_MIN_H_PX (F32.of_Z img_h)).
  set (new_y := F32.sub _ (F32.mul new_h_n half)).
  set (ny := if grow then clamp01 new_y else ymin nb).
  set (nh := if grow then F32.min (F32.sub F32.one ny) new_h_n else height nb).
  assert (Vhalf : F32.valid half = true) by reflexivity.
  assert (Vone : F32.valid F32.one = true) by reflexivity.
  assert (Vnewh : F32.valid new_h_n = true) by apply F32_div_valid.
  assert (Vnewy : F32.valid new_y = true).
  { unfold new_y. apply F32_sub_valid; [apply F32_add_valid; [exact Vy |] |];
      apply F32_mul_valid; assumption. }
  assert (Vny : F32.valid ny = true).
  { unfold ny. destruct grow; [now apply clamp01_valid | exact Vy]. }
  assert (Vnh : F32.valid nh = true).
  { unfold nh. destruct grow; [| exact Vh].
    apply F32_min_valid; [now apply F32_sub_valid | exact Vnewh]. }
  set (pad_x_n := F32.div PAD_X_PX (F32.of_Z img_w)).
  set (pad_y_n := F32.div PAD_Y_PX (F32.of_Z img_h)).
  assert (Vpx : F32.valid pad_x_n = true) by apply F32_div_valid.
  assert (Vpy : F32.valid pad_y_n = true) by apply F32_div_valid.
  destruct (clamp01_range (F32.sub (xmin nb) pad_x_n)
              (F32_sub_valid _ _ Vx Vpx)) as [Nx0 Bx0].
  destruct (clamp01_range (F32.add (F32.add (xmin nb) (width nb)) pad_x_n)
              (F32_add_valid _ _ (F32_add_valid _ _ Vx Vw) Vpx)) as [Nx1 Bx1].
  destruct (clamp01_range (F32.sub ny pad_y_n)
              (F32_sub_valid _ _ Vny Vpy)) as [Ny0 By0].
  destruct (clamp01_range (F32.add (F32.add ny nh) pad_y_n)
              (F32_add_valid _ _ (F32_add_valid _ _ Vny Vnh) Vpy)) as [Ny1 By1].
  destruct (unit_span _ _ Nx0 Bx0 Nx1 Bx1) as [Hx0 Hx1].
  destruct (unit_span _ _ Ny0 By0 Ny1 By1) as [Hy0 Hy1].
  unfold box_in_unit. cbn [xmin ymin width height]. auto.
Qed.

Lemma Forall2_same {A : Type} (R : A -> A -> Prop) (l : list A) :
  (forall a, R a a) -> Forall2 R l l.
Proof. intros HR. induction l; constructor; auto. Qed.


(* ------------------------------------------------------------------ *)
(** ** The adaptive threshold of paddleocr_det *)

(** *** Multiplication *)

Lemma SFmul_value (mx my : positive) (ex ey : Z) :
  bounded 24 128 mx ex = true -> bounded 24 128 my ey = true ->
  -149 <= ex + ey ->
  Z.pos mx * Z.pos my * 2 ^ (ex + ey + 149) <= 2 ^ 160 ->
  nonneg (SFmul 24 128 (S754_finite false mx ex) (S754_finite false my ey))
  /\ V (SFmul 24 128 (S754_finite false mx ex) (S754_finite false my ey))
     = rnd (Z.pos mx * Z.pos my * 2 ^ (ex + ey + 149)).
Proof.
  intros Hx Hy He Hsmall.
  pose proof (SFmul_P mx my ex ey Hx Hy) as HP.
  assert (Hov : Zdigits2 (Z.pos (mx * my)) + (ex + ey) <= 127).
  { rewrite Pos2Z.inj_mul.
    pose proof (V_bound_digits (Z.pos mx * Z.pos my) (ex + ey) 160
                  ltac:(lia) He) as Hd.
    replace (ex + ey + 149) with (ex + ey + 149) in Hd by lia.
    specialize (Hd Hsmall ltac:(lia)). lia. }
  destruct (round_aux_value (Z.pos (mx * my)) (ex + ey) ltac:(lia) He HP Hov)
    as [m2 [e2 [Heq [Hb Hval]]]].
  cbn [SFmul xorb]. rewrite Heq. cbn [nonneg V].
  split; [exact Hb |]. rewrite Hval, Pos2Z.inj_mul. reflexivity.
Qed.

(** *** The three branches *)

Lemma lit_15_100 : F32.lit 15 100 = S754_finite false 10066330 (-26).
Proof. reflexivity. Qed.

Lemma lit_75_100 : F32.lit 75 100 = S754_finite false 12582912 (-24).
Proof. reflexivity. Qed.

Lemma lit_8_10 : F32.lit 8 10 = S754_finite false 13421773 (-24).
Proof. reflexivity. Qed.

Lemma lit_12_10 : F32.lit 12 10 = S754_finite false 10066330 (-23).
Proof. reflexivity. Qed.

Lemma SFltb_SFleb (x y : spec_float) : SFltb x y = true -> SFleb x y = true.
Proof.
  unfold SFltb, SFleb. destruct (SFcompare x y) as [[] |]; congruence.
Qed.

(** A valid number in the range is positive and finite. *)
Lemma in_bin_range_V (t : F32.t) :
  F32.valid t = true -> in_bin_range t ->
  exists (m : positive) (e : Z),
    t = S754_finite false m e /\ bounded 24 128 m e = true
    /\ 10066330 * 2 ^ 123 <= Z.pos m * 2 ^ (e + 149) <= 12582912 * 2 ^ 125.
Proof.
  intros Hv [Hlo Hhi]. rewrite lit_15_100 in Hlo. rewrite lit_75_100 in Hhi.
  unfold F32.leb in Hlo, Hhi.
  destruct t as [[] | [] | | [] m e];
    try (unfold SFleb in Hlo; cbn [SFcompare] in Hlo; discriminate Hlo);
    try (unfold SFleb in Hhi; cbn [SFcompare] in Hhi; discriminate Hhi).
  - exists m, e. split; [reflexivity |]. split; [exact Hv |].
    rewrite SFleb_V in Hlo, Hhi by (try exact Hv; reflexivity).
    apply Z.leb_le in Hlo, Hhi. cbn [V] in Hlo, Hhi.
    change (-26 + 149) with 123 in Hlo. change (-24 + 149) with 125 in Hhi.
    split; assumption.
Qed.

Lemma in_bin_range_of_V (r : F32.t) :
  nonneg r -> 10066330 * 2 ^ 123 <= V r <= 12582912 * 2 ^ 125 ->
  in_bin_range r.
Proof.
  intros Hn [Hlo Hhi]. unfold in_bin_range, F32.leb.
  rewrite lit_15_100, lit_75_100.
  rewrite !SFleb_V by (try exact Hn; reflexivity).
  cbn [V]. change (-26 + 149) with 123. change (-24 + 149) with 125.
  split; apply Z.leb_le; assumption.
Qed.

(** [t * 0.8f] for [t] in the range: not above [0.75f]. *)
Lemma mul_8_10_below (m : positive) (e : Z) :
  bounded 24 128 m e = true ->
  10066330 * 2 ^ 123 <= Z.pos m * 2 ^ (e + 149) <= 12582912 * 2 ^ 125 ->
  nonneg (F32.mul (S754_finite false m e) (F32.lit 8 10))
  /\ V (F32.mul (S754_finite false m e) (F32.lit 8 10)) <= 12582912 * 2 ^ 125.
Proof.
  intros Hb [Hlo Hhi]. rewrite lit_8_10. unfold F32.mul, F32.prec, F32.emax.
  pose proof (bounded_bounds m e Hb) as Bb.
  pose proof (Zdigits2_bounds (Z.pos m) ltac:(lia)) as [_ Hm].
  assert (Hm24 : Z.pos m < 2 ^ 24).
  { eapply Z.lt_le_trans; [exact Hm |]. apply Z.pow_le_mono_r; lia. }
  assert (He : -27 <= e).
  { destruct (Z_lt_le_dec e (-27)) as [Hlt | Hge]; [exfalso | exact Hge].
    assert (H1 : 2 ^ (e + 149) <= 2 ^ 121) by (apply Z.pow_le_mono_r; lia).
    assert (H2 : 0 < 2 ^ (e + 149)) by (apply Z.pow_pos_nonneg; lia).
    change (2 ^ 24) with 16777216 in Hm24.
    change (2 ^ 123) with (4 * 2 ^ 121) in Hlo.
    assert (H3 : 0 < 2 ^ 121) by (apply Z.pow_pos_nonneg; lia).
    nia. }
  assert (Hsplit : 2 ^ (e + 149) = 2 ^ (e + -24 + 149) * 2 ^ 24).
  { rewrite <- Z.pow_add_r by lia. f_equal. lia. }
  assert (Hq : 0 < 2 ^ (e + -24 + 149)) by (apply Z.pow_pos_nonneg; lia).
  assert (Hprod : Z.pos m * 13421773 * 2 ^ (e + -24 + 149)
                  <= Z.pos m * 2 ^ (e + 149)).
  { rewrite Hsplit. change (2 ^ 24) with 16777216. nia. }
  assert (H125 : 12582912 * 2 ^ 125 <= 2 ^ 160).
  { change (2 ^ 160) with (2 ^ 35 * 2 ^ 125).
    apply Z.mul_le_mono_nonneg_r; [apply Z.pow_nonneg; lia |].
    change (2 ^ 35) with 34359738368. lia. }
  destruct (SFmul_value m 13421773 e (-24) Hb eq_refl ltac:(lia) ltac:(lia))
    as [Hn Hval].
  split; [exact Hn |]. rewrite Hval.
  change (12582912 * 2 ^ 125) with (Z.pos 12582912 * 2 ^ (-24 + 149)).
  apply rnd_le_repr; [lia | reflexivity |].
  change (Z.pos 12582912 * 2 ^ (-24 + 149)) with (12582912 * 2 ^ 125). lia.
Qed.

(** [t * 1.2f] for [t] in the range: not below [0.15f]. *)
Lemma mul_12_10_above (m : positive) (e : Z) :
  bounded 24 128 m e = true ->
  10066330 * 2 ^ 123 <= Z.pos m * 2 ^ (e + 149) <= 12582912 * 2 ^ 125 ->
  nonneg (F32.mul (S754_finite false m e) (F32.lit 12 10))
  /\ 10066330 * 2 ^ 123 <= V (F32.mul (S754_finite false m e) (F32.lit 12 10)).
Proof.
  intros Hb [Hlo Hhi]. rewrite lit_12_10. unfold F32.mul, F32.prec, F32.emax.
  pose proof (bounded_bounds m e Hb) as Bb.
  pose proof (Zdigits2_bounds (Z.pos m) ltac:(lia)) as [_ Hm].
  assert (Hm24 : Z.pos m < 2 ^ 24).
  { eapply Z.lt_le_trans; [exact Hm |]. apply Z.pow_le_mono_r; lia. }
  assert (He : -27 <= e).
  { destruct (Z_lt_le_dec e (-27)) as [Hlt | Hge]; [exfalso | exact Hge].
    assert (H1 : 2 ^ (e + 149) <= 2 ^ 121) by (apply Z.pow_le_mono_r; lia).
    assert (H2 : 0 < 2 ^ (e + 149)) by (apply Z.pow_pos_nonneg; lia).
    change (2 ^ 24) with 16777216 in Hm24.
    change (2 ^ 123) with (4 * 2 ^ 121) in Hlo.
    assert (H3 : 0 < 2 ^ 121) by (apply Z.pow_pos_nonneg; lia).
    nia. }
  assert (Hsplit : 2 ^ (e + 149) = 2 ^ (e + -23 + 149) * 2 ^ 23).
  { rewrite <- Z.pow_add_r by lia. f_equal. lia. }
  assert (Hq : 0 < 2 ^ (e + -23 + 149)) by (apply Z.pow_pos_nonneg; lia).
  assert (Hprod : Z.pos m * 2 ^ (e + 149)
                  <= Z.pos m * 10066330 * 2 ^ (e + -23 + 149)
                  <= 2 * (Z.pos m * 2 ^ (e + 149))).
  { rewrite Hsplit. change (2 ^ 23) with 8388608. nia. }
  assert (H125 : 2 * (12582912 * 2 ^ 125) <= 2 ^ 160).
  { change (2 ^ 160) with (2 ^ 35 * 2 ^ 125).
    rewrite Z.mul_assoc.
    apply Z.mul_le_mono_nonneg_r; [apply Z.pow_nonneg; lia |].
    change (2 ^ 35) with 34359738368. lia. }
  destruct (SFmul_value m 10066330 e (-23) Hb eq_refl ltac:(lia) ltac:(lia))
    as [Hn Hval].
  split; [exact Hn |]. rewrite Hval.
  change (10066330 * 2 ^ 123) with (Z.pos 10066330 * 2 ^ (-26 + 149)).
  apply rnd_ge_repr; [reflexivity |].
  change (Z.pos 10066330 * 2 ^ (-26 + 149)) with (10066330 * 2 ^ 123). lia.
Qed.

(** The three branches of the adaptive step, for every configured
    threshold: only one side is clamped in each. *)
Lemma adaptive_bin_thr_branches (t f : F32.t) :
  (F32.ltb f (F32.lit 3 1000) = true ->
     F32.leb (F32.lit 15 100) (adaptive_bin_thr t f) = true)
  /\ (F32.ltb f (F32.lit 3 1000) = false ->
      F32.gtb f (F32.lit 8 100) = true ->
        F32.leb (adaptive_bin_thr t f) (F32.lit 75 100) = true)
  /\ (F32.ltb f (F32.lit 3 1000) = false ->
      F32.gtb f (F32.lit 8 100) = false -> adaptive_bin_thr t f = t).
Proof.
  unfold adaptive_bin_thr. repeat split.
  - intros ->. unfold F32.max, F32.ltb, F32.leb.
    destruct (SFltb (F32.lit 15 100) (F32.mul t (F32.lit 8 10))) eqn:E.
    + apply SFltb_SFleb. exact E.
    + reflexivity.
  - intros -> ->. unfold F32.min, F32.ltb, F32.leb.
    destruct (SFltb (F32.mul t (F32.lit 12 10)) (F32.lit 75 100)) eqn:E.
    + apply SFltb_SFleb. exact E.
    + reflexivity.
  - intros -> ->. reflexivity.
Qed.

Lemma adaptive_bin_thr_in_range (t f : F32.t) :
  F32.valid t = true -> in_bin_range t -> in_bin_range (adaptive_bin_thr t f).
Proof.
  intros Hv Hr.
  destruct (in_bin_range_V t Hv Hr) as [m [e [-> [Hb HV]]]].
  unfold adaptive_bin_thr.
  destruct (F32.ltb f (F32.lit 3 1000)).
  - destruct (mul_8_10_below m e Hb HV) as [Hn Hle].
    unfold F32.max, F32.ltb.
    destruct (SFltb (F32.lit 15 100) _) eqn:E.
    + apply in_bin_range_of_V; [exact Hn |]. split; [| exact Hle].
      rewrite lit_15_100, SFltb_V in E by (try exact Hn; reflexivity).
      apply Z.ltb_lt in E. cbn [V] in E. change (-26 + 149) with 123 in E.
      lia.
    + split; reflexivity.
  - destruct (F32.gtb f (F32.lit 8 100)); [| exact Hr].
    destruct (mul_12_10_above m e Hb HV) as [Hn Hge].
    unfold F32.min, F32.ltb.
    destruct (SFltb _ (F32.lit 75 100)) eqn:E.
    + apply in_bin_range_of_V; [exact Hn |]. split; [exact Hge |].
      rewrite lit_75_100, SFltb_V in E by (try exact Hn; reflexivity).
      apply Z.ltb_lt in E. cbn [V] in E. change (-24 + 149) with 125 in E.
      lia.
    + split; reflexivity.
Qed.

(** C2 (as amended).  When the configured [det_bin_thresh] lies in
    [0.15f, 0.75f], so does the threshold the adaptive step chooses,
    for every probability map and every map size. *)
Theorem chosen_bin_thr_in_range (p : OcrParams) (prob : ProbMap) (H W : Z) :
  F32.valid (det_bin_thresh p) = true ->
  in_bin_range (det_bin_thresh p) ->
  in_bin_range (chosen_bin_thr p prob H W).
Proof.
  intros Hv Hr. unfold chosen_bin_thr.
  apply adaptive_bin_thr_in_range; assumption.
Qed.

Lemma chosen_bin_thr_in_range_witness :
  F32.valid (det_bin_thresh sample_params) = true
  /\ in_bin_range (det_bin_thresh sample_params)
  /\ in_bin_range (chosen_bin_thr sample_params zero_map 32 128).
Proof.
  assert (Hv : F32.valid (det_bin_thresh sample_params) = true) by reflexivity.
  assert (Hr : in_bin_range (det_bin_thresh sample_params))
    by (split; reflexivity).
  split; [exact Hv |]. split; [exact Hr |].
  exact (chosen_bin_thr_in_range sample_params zero_map 32 128 Hv Hr).
Defined.

(* ------------------------------------------------------------------ *)
(** ** The exact sums of the boxes of crop_text_regions *)

Lemma unit_span_exact (x0 x1 : F32.t) :
  nonneg x0 -> V x0 <= ONE -> nonneg x1 -> V x1 <= ONE ->
  nonneg (F32.max F32.zero (F32.sub x1 x0))
  /\ V x0 + V (F32.max F32.zero (F32.sub x1 x0)) <= ONE + 2 ^ 124.
Proof.
  intros H0 B0 H1 B1.
  assert (HONE : ONE = 2 ^ 149) by reflexivity.
  assert (Hbig : 2 ^ 149 <= 2 ^ 160) by (vm_compute; discriminate).
  assert (H124 : 0 < 2 ^ 124) by reflexivity.
  pose proof (V_nonneg x0) as P0. pose proof (V_nonneg x1) as P1.
  destruct (SFsub_value x1 x0 H1 H0 ltac:(lia)) as [Hpos Hneg].
  unfold F32.max, F32.ltb, F32.sub, F32.prec, F32.emax, F32.zero.
  destruct (Z.le_gt_cases (V x1) (V x0)) as [Hle | Hlt].
  - rewrite (Hneg Hle). cbn [nonneg V]. split; [exact I | lia].
  - destruct (Hpos Hlt) as [Hnn Hval].
    destruct (SFltb (S754_zero false) (SFsub 24 128 x1 x0)).
    + split; [exact Hnn |]. rewrite Hval.
      pose proof (rnd_error_below_one (V x1 - V x0) ltac:(lia)) as Herr.
      lia.
    + cbn [nonneg V]. split; [exact I | lia].
Qed.

Lemma adjust_box_sums_near_unit (img_w img_h : Z) (use_letterbox : bool)
  (nb0 b : HailoBBox) :
  valid_box nb0 ->
  adjust_box img_w img_h use_letterbox nb0 = Some b -> box_sums_near_unit b.
Proof.
  intros Hnb0. unfold adjust_box.
  set (nb := if use_letterbox then undo_letterbox img_w img_h nb0 else nb0).
  assert (Hnb : valid_box nb).
  { unfold nb. destruct use_letterbox; [apply undo_letterbox_valid | exact Hnb0]. }
  destruct Hnb as [Vx [Vy [Vw Vh]]].
  destruct (_ || _); [discriminate |].
  intros Hb. apply some_eq in Hb. rewrite <- Hb. clear Hb b.
  set (grow := F32.ltb _ TARGET_MIN_H_PX).
  set (new_h_n := F32.div TARGET_MIN_H_PX (F32.of_Z img_h)).
  set (new_y := F32.sub _ (F32.mul new_h_n half)).
  set (ny := if grow then clamp01 new_y else ymin nb).
  set (nh := if grow then F32.min (F32.sub F32.one ny) new_h_n else height nb).
  assert (Vhalf : F32.valid half = true) by reflexivity.
  assert (Vone : F32.valid F32.one = true) by reflexivity.
  assert (Vnewh : F32.valid new_h_n = true) by apply F32_div_valid.
  assert (Vnewy : F32.valid new_y = true).
  { unfold new_y. apply F32_sub_valid; [apply F32_add_valid; [exact Vy |] |];
      apply F32_mul_valid; assumption. }
  assert (Vny : F32.valid ny = true).
  { unfold ny. destruct grow; [now apply clamp01_valid | exact Vy]. }
  assert (Vnh : F32.valid nh = true).
  { unfold nh. destruct grow; [| exact Vh].
    apply F32_min_valid; [now apply F32_sub_valid | exact Vnewh]. }
  set (pad_x_n := F32.div PAD_X_PX (F32.of_Z img_w)).
  set (pad_y_n := F32.div PAD_Y_PX (F32.of_Z img_h)).
  assert (Vpx : F32.valid pad_x_n = true) by apply F32_div_valid.
  assert (Vpy : F32.valid pad_y_n = true) by apply F32_div_valid.
  destruct (clamp01_range (F32.sub (xmin nb) pad_x_n)
              (F32_sub_valid _ _ Vx Vpx)) as [Nx0 Bx0].
  destruct (clamp01_range (F32.add (F32.add (xmin nb) (width nb)) pad_x_n)
              (F32_add_valid _ _ (F32_add_valid _ _ Vx Vw) Vpx)) as [Nx1 Bx1].
  destruct (clamp01_range (F32.sub ny pad_y_n)
              (F32_sub_valid _ _ Vny Vpy)) as [Ny0 By0].
  destruct (clamp01_range (F32.add (F32.add ny nh) pad_y_n)
              (F32_add_valid _ _ (F32_add_valid _ _ Vny Vnh) Vpy)) as [Ny1 By1].
  destruct (unit_span_exact _ _ Nx0 Bx0 Nx1 Bx1) as [Hw Hxs].
  destruct (unit_span_exact _ _ Ny0 By0 Ny1 By1) as [Hh Hys].
  unfold box_sums_near_unit. cbn [xmin ymin width height]. auto 8.
Qed.

(** The bound [1] itself is passed by the exact sum: a box of width 1
    at [xmin = 0.008] on a 640 x 480 frame. *)
Example adjust_box_exact_sum_above_one :
  exists b,
    adjust_box 640 480 false
      (mkBBox (F32.lit 8 1000) (F32.lit 4 10) F32.one (F32.lit 3 10)) = Some b
    /\ ONE < V (xmin b) + V (width b)
    /\ F32.leb (F32.add (xmin b) (width b)) F32.one = true.
Proof. eexists. split; [vm_compute; reflexivity |]. split; reflexivity. Qed.

(** C2 as stated fails on both sides.  A configured threshold of 0.95
    on an empty map: the sparse branch gives [0.95f * 0.8f], above
    [0.75f].  A configured threshold of 0.1 on a map of ordinary density
    (100 pixels of 4096) is left as it is, below [0.15f]. *)
Lemma chosen_bin_thr_out_of_range :
  F32.leb
    (chosen_bin_thr (set_det_bin_thresh sample_params (F32.lit 95 100))
       zero_map 32 128)
    (F32.lit 75 100) = false
  /\ F32.leb (F32.lit 15 100)
       (chosen_bin_thr (set_det_bin_thresh sample_params (F32.lit 1 10))
          map_100_ones 32 128) = false.
Proof. split; vm_compute; reflexivity. Qed.


(* ------------------------------------------------------------------ *)
(** ** crop_text_regions *)

Lemma crop_loop_cropped (img_w img_h : Z) (use_letterbox : bool)
  (objs : list HailoObject) :
  detection_boxes_valid objs ->
  forall count,
    Forall2 (cropped img_w img_h use_letterbox) objs
      (fst (crop_loop img_w img_h use_letterbox count objs)).
Proof.
  induction 1 as [| o rest Ho Hrest IH]; intros count; cbn [crop_loop].
  - constructor.
  - assert (Hskip : Forall2 (cropped img_w img_h use_letterbox) (o :: rest)
                      (fst (let (rest1, n) :=
                              crop_loop img_w img_h use_letterbox count rest in
                            (o :: rest1, n)))).
    { specialize (IH count).
      destruct (crop_loop img_w img_h use_letterbox count rest) as [rest1 n].
      constructor; [now left | exact IH]. }
    destruct o as [nb label conf objs0 | |]; try exact Hskip.
    destruct (MAX_TEXT_REGIONS <=? count).
    { cbn [fst]. apply Forall2_same. intros a. now left. }
    destruct (String.eqb label "text_region") eqn:El; cbn [negb];
      [| exact Hskip].
    destruct (adjust_box img_w img_h use_letterbox nb) as [b |] eqn:Eb;
      [| exact Hskip].
    specialize (IH (count + 1)).
    destruct (crop_loop img_w img_h use_letterbox (count + 1) rest)
      as [rest1 n].
    cbn [fst] in *. constructor; [| exact IH].
    right. split.
    + exists nb, b. cbn [get_bbox get_label set_bbox].
      apply String.eqb_eq in El. repeat split; auto.
    + cbn [set_bbox get_bbox]. intros b' Hb'. injection Hb' as <-.
      cbn [get_bbox] in Ho. split.
      * exact (adjust_box_in_unit _ _ _ _ _ Ho Eb).
      * exact (adjust_box_sums_near_unit _ _ _ _ _ Ho Eb).
Qed.

Lemma crop_loop_first (img_w img_h : Z) (use_letterbox : bool)
  (nb b : HailoBBox) (label : string) (conf : F32.t)
  (subs : list HailoObject) (rest : list HailoObject) :
  label = "text_region"%string ->
  adjust_box img_w img_h use_letterbox nb = Some b ->
  fst (crop_loop img_w img_h use_letterbox 0
         (ObjDetection nb label conf subs :: rest))
  = ObjDetection b label conf subs
    :: fst (crop_loop img_w img_h use_letterbox 1 rest).
Proof.
  intros -> Hb. cbn [crop_loop]. rewrite Hb.
  change (MAX_TEXT_REGIONS <=? 0) with false.
  change (negb ("text_region" =? "text_region")%string) with false.
  cbn iota. change (0 + 1) with 1.
  destruct (crop_loop img_w img_h use_letterbox 1 rest) as [rest1 n].
  reflexivity.
Qed.

(** C6.  After [crop_text_regions] ran on a frame of any size, the
    objects of the ROI are the old ones, one by one, each left as it was
    or processed: a [text_region] detection whose box was replaced by the
    box the loop body computes.  Every processed box has four finite
    fields, none negative, and [xmin + width <= 1] and
    [ymin + height <= 1] hold for the sums that [float] arithmetic
    gives; the exact sums pass 1 by [2^-25] at most.  A [text_region]
    detection at the head of the list is processed whenever the loop
    body gives it a box.  The boxes of the ROI are any [float] numbers,
    infinities and NaN included. *)
Theorem crop_text_regions_boxes_in_unit (img_w img_h : Z) (roi : HailoROI)
  (use_letterbox : bool) :
  detection_boxes_valid (roi_objects roi) ->
  Forall2 (cropped img_w img_h use_letterbox) (roi_objects roi)
    (roi_objects
       (fst (crop_text_regions (Some (img_w, img_h)) roi use_letterbox)))
  /\ forall nb b conf subs rest,
       roi_objects roi = ObjDetection nb "text_region" conf subs :: rest ->
       adjust_box img_w img_h use_letterbox nb = Some b ->
       exists rest',
         roi_objects
           (fst (crop_text_regions (Some (img_w, img_h)) roi use_letterbox))
         = ObjDetection b "text_region" conf subs :: rest'
         /\ box_in_unit b /\ box_sums_near_unit b.
Proof.
  intros Hv. split.
  - unfold crop_text_regions.
    pose proof (crop_loop_cropped img_w img_h use_letterbox (roi_objects roi)
                  Hv 0) as Hc.
    destruct (crop_loop img_w img_h use_letterbox 0 (roi_objects roi))
      as [objs count].
    exact Hc.
  - intros nb b conf subs rest Hobjs Hb.
    exists (fst (crop_loop img_w img_h use_letterbox 1 rest)).
    assert (Hnb : valid_box nb).
    { rewrite Hobjs in Hv. inversion Hv as [| o l Ho Hl]. exact Ho. }
    split; [| split].
    + unfold crop_text_regions.
      pose proof (crop_loop_first img_w img_h use_letterbox nb b "text_region"
                    conf subs rest eq_refl Hb) as Hfirst.
      rewrite <- Hobjs in Hfirst.
      destruct (crop_loop img_w img_h use_letterbox 0 (roi_objects roi))
        as [objs count].
      exact Hfirst.
    + exact (adjust_box_in_unit _ _ _ _ _ Hnb Hb).
    + exact (adjust_box_sums_near_unit _ _ _ _ _ Hnb Hb).
Qed.

Lemma crop_text_regions_boxes_in_unit_witness :
  detection_boxes_valid (roi_objects roi_wide_region)
  /\ Forall2 (cropped 640 480 false) (roi_objects roi_wide_region)
       (roi_objects
          (fst (crop_text_regions (Some (640, 480)) roi_wide_region false)))
  /\ exists b rest',
       roi_objects
         (fst (crop_text_regions (Some (640, 480)) roi_wide_region false))
       = ObjDetection b "text_region" (F32.lit 9 10) [] :: rest'
       /\ box_in_unit b /\ box_sums_near_unit b.
Proof.
  assert (Hv : detection_boxes_valid (roi_objects roi_wide_region)).
  { repeat constructor. }
  split; [exact Hv |].
  destruct (crop_text_regions_boxes_in_unit 640 480 roi_wide_region false Hv)
    as [Hall Hfirst].
  split; [exact Hall |].
  destruct (Hfirst _ _ _ _ _ eq_refl eq_refl) as [rest' Hrest].
  eexists. exists rest'. exact Hrest.
Defined.

(** C6 as stated fails for the exact sum.  A text region of width 1 at
    [xmin = 0.008] on a 640 x 480 frame, no letterbox: the region is
    processed, and the box written has [xmin + width] above 1; the sum
    that [float] arithmetic gives is 1. *)
Lemma crop_text_regions_exact_sum_above_one :
  detection_boxes_valid (roi_objects roi_unit_width_region)
  /\ exists o b,
       roi_objects
         (fst (crop_text_regions (Some (640, 480)) roi_unit_width_region false))
       = [o]
       /\ processed 640 480 false unit_width_region o
       /\ get_bbox o = Some b
       /\ ONE < V (xmin b) + V (width b)
       /\ F32.add (xmin b) (width b) = F32.one.
Proof.
  split; [repeat constructor |].
  eexists. eexists.
  split; [vm_compute; reflexivity |].
  split.
  { eexists. eexists. split; [reflexivity |]. split; [reflexivity |].
    split; [vm_compute; reflexivity |]. split; reflexivity. }
  split; [reflexivity |]. split; [reflexivity | vm_compute; reflexivity].
Qed.

(* ================================================================== *)
(** * Further properties of the code *)

(* ------------------------------------------------------------------ *)
(** ** Charset files *)

Lemma append_empty_r (s : string) : (s ++ EmptyString)%string = s.
Proof. induction s as [| c s IH]; simpl; [reflexivity | now rewrite IH]. Qed.

Lemma append_assoc (a b c : string) :
  ((a ++ b) ++ c)%string = (a ++ (b ++ c))%string.
Proof. induction a as [| x a IH]; simpl; [reflexivity | now rewrite IH]. Qed.

(** A line and its newline, read with [line] already extracted. *)
Lemma getlines_from_line (l line rest : string) (pending : bool) :
  has_newline l = false ->
  getlines_from line pending (l ++ String "010"%char rest)
  = (line ++ l)%string :: getlines_from EmptyString false rest.
Proof.
  revert line pending. induction l as [| c l IH]; intros line pending Hl.
  - simpl. now rewrite append_empty_r.
  - simpl in Hl. apply orb_false_iff in Hl. destruct Hl as [Hc Hl].
    simpl. rewrite Hc. rewrite (IH _ true Hl).
    unfold string_of_char. now rewrite append_assoc.
Qed.

Lemma getlines_unlines (ls : list string) :
  Forall (fun l => has_newline l = false) ls -> getlines (unlines ls) = ls.
Proof.
  unfold getlines. induction 1 as [| l ls Hl Hls IH]; [reflexivity |].
  simpl. rewrite (getlines_from_line l EmptyString _ false Hl). simpl.
  now rewrite IH.
Qed.

(** X1.  A charset file of one or more lines, each ended by a newline,
    loaded into an empty table: the table is the lines of the file, in
    order and as they are.  No blank token is added and the built-in
    table is not used. *)
Theorem load_charset_from_file_lines (fs : file_system) (p : OcrParams)
  (ls : list string) :
  charset p = [] ->
  charset_path p <> EmptyString ->
  ls <> [] ->
  Forall (fun l => has_newline l = false) ls ->
  fs (charset_path p) = Some (unlines ls) ->
  load_charset_from_file fs p = Ok (set_charset p ls).
Proof.
  intros Hfresh Hpath Hne Hls Hfs. unfold load_charset_from_file.
  destruct (string_empty (charset_path p)) eqn:E.
  { apply string_empty_true in E. contradiction. }
  rewrite Hfs, (getlines_unlines ls Hls), Hfresh. cbn [app set_charset charset].
  destruct ls as [| l ls']; [contradiction | reflexivity].
Qed.

Lemma load_charset_from_file_lines_witness :
  load_charset_from_file fs_two_lines
    (set_charset_path sample_params "digits.txt")
  = Ok (set_charset (set_charset_path sample_params "digits.txt")
          ["0"%string; "1"%string]).
Proof.
  apply (load_charset_from_file_lines fs_two_lines
           (set_charset_path sample_params "digits.txt")
           ["0"%string; "1"%string]).
  - reflexivity.
  - discriminate.
  - discriminate.
  - repeat constructor.
  - reflexivity.
Defined.

(** X2.  A successful load never shrinks the table: the entries held
    before are kept in front of the new ones, the table is not empty
    afterwards, and no other parameter is touched. *)
Theorem load_charset_from_file_extends (fs : file_system) (p p' : OcrParams) :
  load_charset_from_file fs p = Ok p' ->
  (exists added, charset p' = charset p ++ added)
  /\ charset p' <> []
  /\ p' = set_charset p (charset p').
Proof.
  unfold load_charset_from_file, load_default_charset.
  destruct (string_empty (charset_path p)).
  - intros E. injection E as <-. cbn [set_charset charset].
    split; [eexists; reflexivity |]. split; [| reflexivity].
    intros E. apply (f_equal (@List.length string)) in E.
    rewrite length_app, default_charset_length in E. simpl in E. lia.
  - destruct (fs (charset_path p)) as [content |]; [| discriminate].
    cbn [set_charset charset].
    destruct (charset p ++ getlines content) as [| l ls] eqn:El.
    + intros E. injection E as <-. cbn [set_charset charset app].
      split.
      * exists default_charset. apply app_eq_nil in El. destruct El as [-> _].
        reflexivity.
      * split; [discriminate | reflexivity].
    + intros E. injection E as <-. cbn [set_charset charset].
      split; [exists (getlines content); now rewrite El |].
      split; [discriminate | reflexivity].
Qed.

Lemma load_charset_from_file_extends_witness :
  (exists added,
     charset (load_default_charset sample_params)
     = charset sample_params ++ added)
  /\ charset (load_default_charset sample_params) <> []
  /\ load_default_charset sample_params
     = set_charset sample_params (charset (load_default_charset sample_params)).
Proof.
  apply (load_charset_from_file_extends (fun _ => None) sample_params).
  reflexivity.
Defined.

(** X3.  The built-in table holds every printable ASCII character, from
    the space to the tilde, exactly once, after the blank token: 96
    entries, no two equal. *)
Theorem default_charset_printable (n : nat) :
  (32 <= n <= 126)%nat ->
  count_occ string_dec default_charset (string_of_char (ascii_of_nat n)) = 1%nat
  /\ hd_error default_charset = Some "blank"%string
  /\ List.length default_charset = 96%nat
  /\ NoDup default_charset.
Proof.
  intros Hn.
  assert (Hall : forallb
            (fun k => Nat.eqb (count_occ string_dec default_charset
                                 (string_of_char (ascii_of_nat k))) 1)
            (seq 32 95) = true) by (vm_compute; reflexivity).
  rewrite forallb_forall in Hall.
  split.
  - apply Nat.eqb_eq. apply Hall. apply in_seq. lia.
  - split; [reflexivity |]. split; [reflexivity |].
    apply (NoDup_count_occ string_dec). intros x.
    assert (Hb : forallb
              (fun y => Nat.leb (count_occ string_dec default_charset y) 1)
              default_charset = true) by (vm_compute; reflexivity).
    rewrite forallb_forall in Hb.
    destruct (in_dec string_dec x default_charset) as [Hin | Hnin].
    + apply Nat.leb_le. now apply Hb.
    + apply (count_occ_not_In string_dec) in Hnin. lia.
Qed.

Lemma default_charset_printable_witness :
  count_occ string_dec default_charset (string_of_char (ascii_of_nat 65)) = 1%nat
  /\ hd_error default_charset = Some "blank"%string
  /\ List.length default_charset = 96%nat
  /\ NoDup default_charset.
Proof. apply (default_charset_printable 65). lia. Defined.

(* ------------------------------------------------------------------ *)
(** ** Recognizer: the probability rows *)

Lemma mapM_ok_map {A B : Type} (f : A -> result B) (g : A -> B) (l : list A) :
  (forall a, In a l -> f a = Ok (g a)) -> mapM f l = Ok (map g l).
Proof.
  induction l as [| a rest IH]; intros Hf; simpl; [reflexivity |].
  rewrite (Hf a (or_introl eq_refl)). simpl.
  rewrite IH by (intros b Hb; apply Hf; now right). reflexivity.
Qed.

Lemma mapM_ok_inv {A B : Type} (f : A -> result B) (l : list A) (bs : list B) :
  mapM f l = Ok bs -> Forall2 (fun a b => f a = Ok b) l bs.
Proof.
  revert bs. induction l as [| a rest IH]; intros bs; simpl.
  - intros E. injection E as <-. constructor.
  - destruct (f a) as [b | |] eqn:Ea; simpl; try discriminate.
    destruct (mapM f rest) as [bs' | |]; simpl; try discriminate.
    intros E. injection E as <-. constructor; [exact Ea | now apply IH].
Qed.

Lemma forall2_in_left {A B : Type} (R : A -> B -> Prop) (l : list A)
  (bs : list B) (a : A) :
  Forall2 R l bs -> In a l -> exists b, In b bs /\ R a b.
Proof.
  induction 1 as [| x y l' bs' Hxy _ IH]; intros Hin; [contradiction |].
  destruct Hin as [-> | Hin].
  - exists y. split; [now left | exact Hxy].
  - destruct (IH Hin) as [b [Hb Hab]]. exists b. split; [now right | exact Hab].
Qed.

Lemma mapM_no_raise {A B : Type} (f : A -> result B) (l : list A) :
  (forall a msg, In a l -> f a <> Raise msg) ->
  forall msg, mapM f l <> Raise msg.
Proof.
  induction l as [| a rest IH]; intros Hf msg; simpl; [discriminate |].
  pose proof (IH (fun x m Hx => Hf x m (or_intror Hx)) msg) as Hrest.
  destruct (f a) as [b | m |] eqn:Ea; simpl.
  - destruct (mapM f rest) as [bs | m |]; simpl; try discriminate.
    intros E. injection E as ->. now apply Hrest.
  - exfalso. apply (Hf a m (or_introl eq_refl)). exact Ea.
  - discriminate.
Qed.

Lemma prob_at_ok (nct : bool) (T C : nat) (base : list Z) (t0 c : nat) :
  (T * C <= List.length base)%nat -> (t0 < T)%nat -> (c < C)%nat ->
  prob_at nct T C base t0 c = Ok (prob_entry nct T C base t0 c).
Proof.
  intros Hlen Ht Hc. unfold prob_at, prob_entry, read_u8.
  set (i := (if nct then c * T + t0 else t0 * C + c)%nat).
  assert (Hi : (i < List.length base)%nat).
  { unfold i. destruct nct; nia. }
  rewrite (nth_error_nth' base 0 Hi). reflexivity.
Qed.

Lemma prob_at_no_raise (nct : bool) (T C : nat) (base : list Z) (t0 c : nat)
  (msg : string) : prob_at nct T C base t0 c <> Raise msg.
Proof.
  unfold prob_at, read_u8.
  destruct (nth_error base _); simpl; discriminate.
Qed.

Lemma build_probs_no_raise (nct : bool) (T C : nat) (base : list Z)
  (msg : string) : build_probs nct T C base <> Raise msg.
Proof.
  unfold build_probs. apply mapM_no_raise. intros t0 m _.
  apply mapM_no_raise. intros c m' _. apply prob_at_no_raise.
Qed.

Lemma build_probs_ok (layout_is_NCT : bool) (T C : nat) (base : list Z) :
  (T * C <= List.length base)%nat ->
  build_probs layout_is_NCT T C base
  = Ok (map (fun t0 => map (prob_entry layout_is_NCT T C base t0) (seq 0 C))
            (seq 0 T)).
Proof.
  intros Hlen. unfold build_probs. apply mapM_ok_map. intros t0 Ht0.
  apply in_seq in Ht0. apply mapM_ok_map. intros c Hc. apply in_seq in Hc.
  apply prob_at_ok; lia.
Qed.

(** X4.  When the buffer holds at least [T * C] bytes the rows are built
    without a fault: [T] rows of [C] entries, the entry of timestep [t0]
    and class [c] being the byte at [c * T + t0] in the class-major
    layout and at [t0 * C + c] in the other, times [1.0f / 255.0f]. *)
Theorem build_probs_entries (layout_is_NCT : bool) (T C : nat) (base : list Z) :
  (T * C <= List.length base)%nat ->
  exists probs,
    build_probs layout_is_NCT T C base = Ok probs
    /\ List.length probs = T
    /\ Forall (fun row => List.length row = C) probs
    /\ forall t0 c, (t0 < T)%nat -> (c < C)%nat ->
         nth c (nth t0 probs []) F32.zero
         = prob_entry layout_is_NCT T C base t0 c.
Proof.
  intros Hlen. eexists. split; [exact (build_probs_ok _ _ _ _ Hlen) |].
  split; [now rewrite length_map, length_seq |]. split.
  - apply Forall_forall. intros row Hrow. apply in_map_iff in Hrow.
    destruct Hrow as [t0 [<- _]]. now rewrite length_map, length_seq.
  - intros t0 c Ht0 Hc.
    rewrite (nth_indep _ [] (map (prob_entry layout_is_NCT T C base 0) (seq 0 C)))
      by (rewrite length_map, length_seq; lia).
    rewrite (map_nth (fun t => map (prob_entry layout_is_NCT T C base t) (seq 0 C))
               (seq 0 T) 0%nat t0).
    rewrite seq_nth by lia. cbn [Nat.add].
    rewrite (nth_indep _ F32.zero (prob_entry layout_is_NCT T C base t0 0))
      by (rewrite length_map, length_seq; lia).
    rewrite (map_nth (prob_entry layout_is_NCT T C base t0) (seq 0 C) 0%nat c).
    rewrite seq_nth by lia. reflexivity.
Qed.

Lemma build_probs_entries_witness :
  exists probs,
    build_probs true 3 2 [0; 0; 0; 255; 255; 255] = Ok probs
    /\ List.length probs = 3%nat
    /\ Forall (fun row => List.length row = 2%nat) probs
    /\ forall t0 c, (t0 < 3)%nat -> (c < 2)%nat ->
         nth c (nth t0 probs []) F32.zero
         = prob_entry true 3 2 [0; 0; 0; 255; 255; 255] t0 c.
Proof.
  apply (build_probs_entries true 3 2 [0; 0; 0; 255; 255; 255]). simpl. lia.
Defined.

(** X5.  When the buffer is shorter than [T * C] bytes the copy loop
    reads past its end, in either layout: the size of the buffer is not
    checked against the shape. *)
Theorem build_probs_short_buffer (layout_is_NCT : bool) (T C : nat)
  (base : list Z) :
  (List.length base < T * C)%nat ->
  build_probs layout_is_NCT T C base = Fault.
Proof.
  intros Hlen.
  destruct (build_probs layout_is_NCT T C base) as [probs | msg |] eqn:E.
  - exfalso. unfold build_probs in E. apply mapM_ok_inv in E.
    assert (HT : (0 < T)%nat) by nia. assert (HC : (0 < C)%nat) by nia.
    assert (Hin : In (T - 1)%nat (seq 0 T)) by (apply in_seq; lia).
    destruct (forall2_in_left _ _ _ _ E Hin) as [row [_ Hrow]].
    apply mapM_ok_inv in Hrow.
    assert (Hinc : In (C - 1)%nat (seq 0 C)) by (apply in_seq; lia).
    destruct (forall2_in_left _ _ _ _ Hrow Hinc) as [v [_ Hv]].
    unfold prob_at, read_u8 in Hv.
    set (i := (if layout_is_NCT then (C - 1) * T + (T - 1)
               else (T - 1) * C + (C - 1))%nat) in Hv.
    assert (Hi : (List.length base <= i)%nat).
    { unfold i. destruct layout_is_NCT; nia. }
    apply nth_error_None in Hi. rewrite Hi in Hv. discriminate.
  - exfalso. exact (build_probs_no_raise _ _ _ _ _ E).
  - reflexivity.
Qed.

Lemma build_probs_short_buffer_witness :
  build_probs false 3 2 [0; 0; 0; 255; 255] = Fault.
Proof. apply build_probs_short_buffer. simpl. lia. Defined.

(* ------------------------------------------------------------------ *)
(** ** Recognizer: the decode loop *)

Lemma ctc_step_again (p : OcrParams) (st st1 : ctc_state) (row : list F32.t) :
  ctc_step p st row = Ok st1 -> ctc_step p st1 row = Ok st1.
Proof.
  unfold ctc_step. destruct (max_element row) as [[i pmax] |]; [| discriminate].
  destruct (negb (Z.of_nat i =? blank_index p) && negb (Z.of_nat i =? prev st));
    intros E; injection E as <-; cbn [prev out_text conf_sum conf_count];
    rewrite Z.eqb_refl, andb_false_r; reflexivity.
Qed.

(** X6.  A timestep whose row is repeated is decoded once: the loop
    gives the same text, confidence sum and count whether a row occurs
    once or several times in a row. *)
Theorem ctc_decode_repeated_row (p : OcrParams) (st : ctc_state)
  (row : list F32.t) (n : nat) (rest : list (list F32.t)) :
  ctc_decode p st (repeat row (S n) ++ rest) = ctc_decode p st (row :: rest).
Proof.
  induction n as [| n IH]; [reflexivity |].
  rewrite <- IH. cbn [repeat app ctc_decode].
  destruct (ctc_step p st row) as [st1 | msg |] eqn:E; simpl; try reflexivity.
  rewrite (ctc_step_again p st st1 row E). reflexivity.
Qed.

Lemma ctc_step_blank (p : OcrParams) (st : ctc_state) (row : list F32.t) :
  argmax_is row (blank_index p) ->
  ctc_step p st row
  = Ok (mkCtc (out_text st) (conf_sum st) (conf_count st) (blank_index p)).
Proof.
  intros [i [pmax [Hmax Hi]]]. unfold ctc_step. rewrite Hmax, Hi, Z.eqb_refl.
  reflexivity.
Qed.

(** X7.  When the arg-max of every timestep is the blank class, the
    decoded text is empty, nothing is counted, the confidence is 0 and
    no classification is attached: the ROI is left as it is. *)
Theorem ctc_decode_all_blank (p : OcrParams) (probs : list (list F32.t)) :
  Forall (fun row => argmax_is row (blank_index p)) probs ->
  exists st,
    ctc_decode p ctc_init probs = Ok st
    /\ out_text st = EmptyString
    /\ conf_count st = 0
    /\ ctc_conf st = F32.zero
    /\ forall roi, attach_text roi (out_text st) (ctc_conf st) = roi.
Proof.
  intros Hall.
  assert (Hgen : forall st0,
             out_text st0 = EmptyString -> conf_count st0 = 0 ->
             exists st, ctc_decode p st0 probs = Ok st
                        /\ out_text st = EmptyString /\ conf_count st = 0).
  { induction Hall as [| row rest Hrow _ IH]; intros st0 Ht Hc.
    - exists st0. auto.
    - cbn [ctc_decode]. rewrite (ctc_step_blank p st0 row Hrow). cbn [bind].
      apply IH; assumption. }
  destruct (Hgen ctc_init eq_refl eq_refl) as [st [Hdec [Ht Hc]]].
  exists st. split; [exact Hdec |]. split; [exact Ht |]. split; [exact Hc |].
  assert (Hconf : ctc_conf st = F32.zero).
  { unfold ctc_conf. rewrite Hc. reflexivity. }
  split; [exact Hconf |]. intros roi. rewrite Ht. reflexivity.
Qed.

Lemma ctc_decode_all_blank_witness :
  exists st,
    ctc_decode (set_charset sample_params ["blank"; "A"; "B"]%string) ctc_init
      [one_hot_row 4 0; one_hot_row 4 0] = Ok st
    /\ out_text st = EmptyString
    /\ conf_count st = 0
    /\ ctc_conf st = F32.zero
    /\ forall roi, attach_text roi (out_text st) (ctc_conf st) = roi.
Proof.
  apply (ctc_decode_all_blank
           (set_charset sample_params ["blank"; "A"; "B"]%string)
           [one_hot_row 4 0; one_hot_row 4 0]).
  repeat constructor; exists 0%nat, F32.one; split; reflexivity.
Defined.

Lemma string_length_append (a b : string) :
  String.length (a ++ b) = (String.length a + String.length b)%nat.
Proof. induction a as [| c a IH]; simpl; [reflexivity | now rewrite IH]. Qed.

Lemma ctc_step_counts (p : OcrParams) (st st1 : ctc_state) (row : list F32.t) :
  single_chars p ->
  ctc_step p st row = Ok st1 ->
  conf_count st <= conf_count st1 <= conf_count st + 1
  /\ Z.of_nat (String.length (out_text st1))
     = Z.of_nat (String.length (out_text st))
       + (conf_count st1 - conf_count st).
Proof.
  intros Hsingle. unfold ctc_step.
  destruct (max_element row) as [[i pmax] |]; [| discriminate].
  destruct (negb (Z.of_nat i =? blank_index p)) eqn:Eb; cbn [andb].
  - destruct (negb (Z.of_nat i =? prev st)).
    + intros E. injection E as <-.
      cbn [conf_count out_text]. split; [lia |].
      rewrite string_length_append.
      assert (Hsym : String.length
                (if (0 <=? Z.of_nat i)
                    && (Z.of_nat i <? Z.of_nat (List.length (charset p)))
                 then nth i (charset p) EmptyString else "?"%string) = 1%nat).
      { destruct ((0 <=? Z.of_nat i)
                  && (Z.of_nat i <? Z.of_nat (List.length (charset p)))) eqn:Er;
          [| reflexivity].
        apply andb_true_iff in Er. destruct Er as [_ Hlt].
        apply Z.ltb_lt in Hlt.
        apply (Hsingle i).
        - apply nth_error_nth'. lia.
        - apply negb_true_iff in Eb. apply Z.eqb_neq in Eb. exact Eb. }
      rewrite Hsym. lia.
    + intros E. injection E as <-. cbn [conf_count out_text]. lia.
  - intros E. injection E as <-. cbn [conf_count out_text]. lia.
Qed.

(** X8.  With a table whose symbols are one character long, the
    decoded text has one character for each counted timestep, and at
    most one character is counted for each timestep. *)
Theorem ctc_decode_counts (p : OcrParams) (probs : list (list F32.t))
  (st st' : ctc_state) :
  single_chars p ->
  ctc_decode p st probs = Ok st' ->
  conf_count st <= conf_count st'
                <= conf_count st + Z.of_nat (List.length probs)
  /\ Z.of_nat (String.length (out_text st'))
     = Z.of_nat (String.length (out_text st))
       + (conf_count st' - conf_count st).
Proof.
  intros Hsingle. revert st.
  induction probs as [| row rest IH]; intros st; cbn [ctc_decode].
  - intros E. injection E as <-. simpl. lia.
  - destruct (ctc_step p st row) as [st1 | |] eqn:E1; cbn [bind];
      try discriminate.
    intros E. destruct (ctc_step_counts p st st1 row Hsingle E1) as [Hc Hl].
    destruct (IH st1 E) as [Hc' Hl'].
    cbn [List.length]. lia.
Qed.

Lemma default_charset_single_chars : single_chars loaded_params.
Proof.
  unfold single_chars. intros i s Hnth Hi.
  assert (Hlt : (i < 96)%nat).
  { pose proof (nth_error_Some (charset loaded_params) i) as [Hs _].
    rewrite Hnth in Hs. specialize (Hs ltac:(discriminate)). exact Hs. }
  assert (Hall : forallb (fun s => Nat.eqb (String.length s) 1)
                   (tl (charset loaded_params)) = true)
    by (vm_compute; reflexivity).
  rewrite forallb_forall in Hall.
  destruct i as [| i]; [exfalso; apply Hi; reflexivity |].
  apply Nat.eqb_eq. apply Hall.
  change (charset loaded_params) with default_charset in *.
  apply nth_error_In with (n := i).
  destruct default_charset as [| b cs]; [discriminate |]. exact Hnth.
Qed.

Lemma ctc_decode_counts_witness :
  conf_count ctc_init
  <= conf_count (mkCtc "1" F32.one 1 2)
  <= conf_count ctc_init + Z.of_nat (List.length [one_hot_row 4 2; one_hot_row 4 2])
  /\ Z.of_nat (String.length (out_text (mkCtc "1" F32.one 1 2)))
     = Z.of_nat (String.length (out_text ctc_init))
       + (conf_count (mkCtc "1" F32.one 1 2) - conf_count ctc_init).
Proof.
  apply (ctc_decode_counts loaded_params [one_hot_row 4 2; one_hot_row 4 2]
           ctc_init (mkCtc "1" F32.one 1 2) default_charset_single_chars).
  reflexivity.
Defined.

(* ------------------------------------------------------------------ *)
(** ** Recognizer: the whole filter *)

Lemma add_to_first_detection_split (objs : list HailoObject) (o : HailoObject) :
  add_to_first_detection objs o = objs
  \/ exists pre b l c os post,
       objs = pre ++ ObjDetection b l c os :: post
       /\ Forall (fun x => is_detection x = false) pre
       /\ add_to_first_detection objs o
          = pre ++ ObjDetection b l c (os ++ [o]) :: post.
Proof.
  induction objs as [| d rest IH]; [now left |].
  cbn [add_to_first_detection].
  destruct d as [b l c os | ct l c | tag]; cbn [is_detection].
  - right. exists [], b, l, c, os, rest. repeat split. constructor.
  - destruct IH as [IH | [pre [b [l' [c' [os [post [E [Hpre Hadd]]]]]]]]].
    + left. now rewrite IH.
    + right. exists (ObjClassification ct l c :: pre), b, l', c', os, post.
      rewrite E at 1. rewrite Hadd. repeat split. now constructor.
  - destruct IH as [IH | [pre [b [l' [c' [os [post [E [Hpre Hadd]]]]]]]]].
    + left. now rewrite IH.
    + right. exists (ObjOther tag :: pre), b, l', c', os, post.
      rewrite E at 1. rewrite Hadd. repeat split. now constructor.
Qed.

Section RecognizerFilter.

Variable exp64 : F64.t -> F64.t.

Lemma softmax1d_ok (v : list F32.t) :
  v <> [] ->
  exists w, softmax1d exp64 v = Ok w /\ List.length w = List.length v.
Proof.
  intros Hv. unfold softmax1d.
  destruct (max_element_nonempty v Hv) as [i [m Hmax]]. rewrite Hmax.
  eexists. split; [reflexivity |]. now rewrite length_map.
Qed.

Lemma softmax1d_no_raise (v : list F32.t) (msg : string) :
  softmax1d exp64 v <> Raise msg.
Proof.
  unfold softmax1d. destruct (max_element v) as [[i m] |]; discriminate.
Qed.

Lemma softmax_rows_ok (probs : list (list F32.t)) :
  Forall (fun row => row <> []) probs ->
  exists probs', mapM (softmax1d exp64) probs = Ok probs'
                 /\ Forall (fun row => row <> []) probs'.
Proof.
  induction 1 as [| row rest Hrow _ [rest' [E Hrest']]]; simpl.
  - exists []. split; [reflexivity | constructor].
  - destruct (softmax1d_ok row Hrow) as [w [Ew Hlen]]. rewrite Ew, E. simpl.
    exists (w :: rest'). split; [reflexivity |]. constructor; [| exact Hrest'].
    intros ->. destruct row; [contradiction | discriminate].
Qed.

Lemma ctc_step_no_raise (p : OcrParams) (st : ctc_state) (row : list F32.t)
  (msg : string) : ctc_step p st row <> Raise msg.
Proof.
  unfold ctc_step. destruct (max_element row) as [[i m] |]; [| discriminate].
  destruct (negb _ && negb _); discriminate.
Qed.

Lemma ctc_decode_no_raise (p : OcrParams) (probs : list (list F32.t))
  (st : ctc_state) (msg : string) : ctc_decode p st probs <> Raise msg.
Proof.
  revert st. induction probs as [| row rest IH]; intros st; simpl;
    [discriminate |].
  destruct (ctc_step p st row) as [st1 | m |] eqn:E; simpl.
  - apply IH.
  - exfalso. exact (ctc_step_no_raise p st row m E).
  - discriminate.
Qed.

(** X9.  What [paddleocr_recognize] changes when it returns: the
    tensors and the boxes of the ROI are kept, and the objects are
    either all kept or kept but for the first detection, which receives
    one classification of type "license_plate" at the end of its own
    objects; the text it carries is neither empty nor one space. *)
Theorem paddleocr_recognize_frame (roi roi' : HailoROI) (p : OcrParams) :
  paddleocr_recognize exp64 roi p = Ok roi' ->
  roi_tensors roi' = roi_tensors roi
  /\ roi_bbox roi' = roi_bbox roi
  /\ roi_scaling_bbox roi' = roi_scaling_bbox roi
  /\ (roi_objects roi' = roi_objects roi
      \/ exists pre b l c os post text conf,
           roi_objects roi = pre ++ ObjDetection b l c os :: post
           /\ Forall (fun x => is_detection x = false) pre
           /\ roi_objects roi'
              = pre ++ ObjDetection b l c
                         (os ++ [ObjClassification "license_plate" text conf])
                       :: post
           /\ text <> EmptyString /\ text <> " "%string).
Proof.
  assert (Hattach : forall text conf,
             roi_tensors (attach_text roi text conf) = roi_tensors roi
             /\ roi_bbox (attach_text roi text conf) = roi_bbox roi
             /\ roi_scaling_bbox (attach_text roi text conf)
                = roi_scaling_bbox roi
             /\ (roi_objects (attach_text roi text conf) = roi_objects roi
                 \/ exists pre b l c os post text' conf',
                      roi_objects roi = pre ++ ObjDetection b l c os :: post
                      /\ Forall (fun x => is_detection x = false) pre
                      /\ roi_objects (attach_text roi text conf)
                         = pre ++ ObjDetection b l c
                              (os ++ [ObjClassification "license_plate" text' conf'])
                            :: post
                      /\ text' <> EmptyString /\ text' <> " "%string)).
  { intros text conf. unfold attach_text.
    destruct (negb (string_empty text)) eqn:Ee; cbn [andb]; [| auto].
    destruct (negb (String.eqb text " ")) eqn:Es; [| auto].
    destruct (get_hailo_detections roi) as [| d0 ds0]; [auto |].
    cbn [set_objects roi_tensors roi_bbox roi_scaling_bbox roi_objects].
    repeat split.
    destruct (add_to_first_detection_split (roi_objects roi)
                (ObjClassification "license_plate" text conf))
      as [E | [pre [b [l [c [os [post [E [Hpre Hadd]]]]]]]]].
    - left. exact E.
    - right. exists pre, b, l, c, os, post, text, conf.
      split; [exact E |]. split; [exact Hpre |]. split; [exact Hadd |].
      split.
      + intros ->. discriminate Ee.
      + intros ->. discriminate Es. }
  unfold paddleocr_recognize.
  destruct (negb (has_tensors roi)).
  { intros E. injection E as <-. auto. }
  destruct (get_tensor_by_name_or_fallback roi (rec_output_name p))
    as [t | |]; cbn [bind]; try discriminate.
  destruct (tensor_shape t) as [| N [| D1 [| D2 [| D3 sh]]]]; try discriminate.
  destruct (tensor_data t) as [base |]; [| discriminate].
  destruct (negb (N =? 1)); [discriminate |].
  destruct (build_probs _ _ _ base) as [probs | |]; cbn [bind];
    try discriminate.
  destruct (if logits_are_softmax p then Ok probs
            else mapM (softmax1d exp64) probs) as [probs' | |];
    cbn [bind]; try discriminate.
  destruct (ctc_decode p ctc_init probs') as [st | |]; cbn [bind];
    try discriminate.
  intros E. injection E as <-. apply Hattach.
Qed.

(** X10.  The exceptions of [paddleocr_recognize] are three, tested in
    this order on the tensor the lookup chose: a shape that is not of
    rank 3, a null data pointer, a first dimension other than 1.  The
    lookup never raises there, since an ROI without tensors is returned
    unchanged before it. *)
Theorem paddleocr_recognize_raises (roi : HailoROI) (p : OcrParams)
  (msg : string) :
  paddleocr_recognize exp64 roi p = Raise msg ->
  exists t,
    get_tensor_by_name_or_fallback roi (rec_output_name p) = Ok t
    /\ ((List.length (tensor_shape t) <> 3%nat
         /\ msg = "Unexpected recognizer rank (expected 3)"%string)
        \/ (List.length (tensor_shape t) = 3%nat
            /\ tensor_data t = None
            /\ msg = "Recognizer tensor not UINT8"%string)
        \/ (List.length (tensor_shape t) = 3%nat
            /\ tensor_data t <> None
            /\ hd 0 (tensor_shape t) <> 1
            /\ msg = "Recognizer expects N=1"%string)).
Proof.
  unfold paddleocr_recognize.
  destruct (negb (has_tensors roi)) eqn:Eh; [discriminate |].
  destruct (get_tensor_by_name_or_fallback roi (rec_output_name p))
    as [t | m |] eqn:Et; cbn [bind]; try discriminate.
  - intros E. exists t. split; [reflexivity |].
    destruct (tensor_shape t) as [| N [| D1 [| D2 [| D3 sh]]]];
      try (left; split; [simpl; lia | congruence]).
    destruct (tensor_data t) as [base |].
    + destruct (negb (N =? 1)) eqn:EN.
      * right. right. split; [reflexivity |]. split; [discriminate |].
        split; [| congruence].
        apply negb_true_iff in EN. apply Z.eqb_neq in EN. exact EN.
      * exfalso.
        destruct (build_probs _ _ _ base) as [probs | m |] eqn:Eb;
          cbn [bind] in E; try discriminate.
        -- destruct (logits_are_softmax p); cbn [bind] in E.
           ++ exact (ctc_decode_no_raise p probs ctc_init msg
                       ltac:(destruct (ctc_decode p ctc_init probs);
                             cbn [bind] in E; congruence)).
           ++ destruct (mapM (softmax1d exp64) probs) as [probs' | m |] eqn:Es;
                cbn [bind] in E; try discriminate.
              ** exact (ctc_decode_no_raise p probs' ctc_init msg
                          ltac:(destruct (ctc_decode p ctc_init probs');
                                cbn [bind] in E; congruence)).
              ** exact (mapM_no_raise (softmax1d exp64) probs
                          (fun v m' _ => softmax1d_no_raise v m') m Es).
        -- exact (build_probs_no_raise _ _ _ _ _ Eb).
    + right. left. repeat split. congruence.
  - intros _. exfalso.
    unfold get_tensor_by_name_or_fallback, has_tensors in *.
    destruct (find _ (roi_tensors roi)); [discriminate |].
    destruct (roi_tensors roi); discriminate.
Qed.

(** X11.  [paddleocr_recognize] returns normally, without a fault or
    an exception, when the tensor it chose has the shape [1, D1, D2]
    with no empty dimension and a buffer of at least [D1 * D2] bytes. *)
Theorem paddleocr_recognize_returns (roi : HailoROI) (p : OcrParams)
  (t : HailoTensor) (D1 D2 : Z) (base : list Z) :
  get_tensor_by_name_or_fallback roi (rec_output_name p) = Ok t ->
  tensor_shape t = [1; D1; D2] ->
  tensor_data t = Some base ->
  1 <= D1 -> 1 <= D2 ->
  D1 * D2 <= Z.of_nat (List.length base) ->
  exists roi', paddleocr_recognize exp64 roi p = Ok roi'.
Proof.
  intros Ht Hshape Hdata H1 H2 Hlen. unfold paddleocr_recognize.
  assert (Hhas : has_tensors roi = true).
  { unfold get_tensor_by_name_or_fallback, has_tensors in *.
    destruct (roi_tensors roi); [simpl in Ht; discriminate | reflexivity]. }
  rewrite Hhas, Ht. cbn [negb bind]. rewrite Hshape, Hdata.
  cbn [Z.eqb negb Pos.eqb].
  set (T := Z.to_nat (Z.max D1 D2)). set (C := Z.to_nat (Z.min D1 D2)).
  assert (HTC : (T * C <= List.length base)%nat).
  { unfold T, C. apply Nat2Z.inj_le. rewrite Nat2Z.inj_mul, !Z2Nat.id by lia.
    destruct (Z.le_ge_cases D1 D2).
    - rewrite Z.max_r, Z.min_l by lia. lia.
    - rewrite Z.max_l, Z.min_r by lia. lia. }
  rewrite (build_probs_ok ((D1 =? Z.min D1 D2) && (D2 =? Z.max D1 D2)) T C
             base HTC).
  cbn [bind].
  set (probs := map _ (seq 0 T)).
  assert (Hne : Forall (fun row : list F32.t => row <> []) probs).
  { apply Forall_forall. intros row Hrow. unfold probs in Hrow.
    apply in_map_iff in Hrow. destruct Hrow as [t0 [<- _]].
    intros E. apply (f_equal (@List.length F32.t)) in E.
    rewrite length_map, length_seq in E. simpl in E. unfold C in E. lia. }
  destruct (logits_are_softmax p); cbn [bind].
  - destruct (ctc_decode_total p probs Hne ctc_init) as [st Hst].
    rewrite Hst. cbn [bind]. eauto.
  - destruct (softmax_rows_ok probs Hne) as [probs' [Es Hne']].
    rewrite Es. cbn [bind].
    destruct (ctc_decode_total p probs' Hne' ctc_init) as [st Hst].
    rewrite Hst. cbn [bind]. eauto.
Qed.

End RecognizerFilter.

Lemma paddleocr_recognize_frame_witness :
  roi_tensors roi_tiny_rec_read = roi_tensors roi_tiny_rec
  /\ roi_bbox roi_tiny_rec_read = roi_bbox roi_tiny_rec
  /\ roi_scaling_bbox roi_tiny_rec_read = roi_scaling_bbox roi_tiny_rec
  /\ (roi_objects roi_tiny_rec_read = roi_objects roi_tiny_rec
      \/ exists pre b l c os post text conf,
           roi_objects roi_tiny_rec = pre ++ ObjDetection b l c os :: post
           /\ Forall (fun x => is_detection x = false) pre
           /\ roi_objects roi_tiny_rec_read
              = pre ++ ObjDetection b l c
                         (os ++ [ObjClassification "license_plate" text conf])
                       :: post
           /\ text <> EmptyString /\ text <> " "%string).
Proof.
  apply (paddleocr_recognize_frame (fun x => x) roi_tiny_rec roi_tiny_rec_read
           params_blank_A).
  reflexivity.
Defined.

Lemma paddleocr_recognize_raises_witness :
  exists t,
    get_tensor_by_name_or_fallback roi_rank_2 (rec_output_name params_blank_A)
    = Ok t
    /\ ((List.length (tensor_shape t) <> 3%nat
         /\ "Unexpected recognizer rank (expected 3)"%string
            = "Unexpected recognizer rank (expected 3)"%string)
        \/ (List.length (tensor_shape t) = 3%nat
            /\ tensor_data t = None
            /\ "Unexpected recognizer rank (expected 3)"%string
               = "Recognizer tensor not UINT8"%string)
        \/ (List.length (tensor_shape t) = 3%nat
            /\ tensor_data t <> None
            /\ hd 0 (tensor_shape t) <> 1
            /\ "Unexpected recognizer rank (expected 3)"%string
               = "Recognizer expects N=1"%string)).
Proof.
  apply (paddleocr_recognize_raises (fun x => x) roi_rank_2 params_blank_A).
  reflexivity.
Defined.

Lemma paddleocr_recognize_returns_witness :
  exists roi',
    paddleocr_recognize (fun x => x) roi_tiny_rec params_blank_A = Ok roi'.
Proof.
  apply (paddleocr_recognize_returns (fun x => x) roi_tiny_rec params_blank_A
           tiny_rec_tensor 2 3 [0; 0; 0; 255; 255; 255]);
    try reflexivity; simpl; lia.
Defined.

(* ------------------------------------------------------------------ *)
(** ** Croppers *)

Lemma crop_loop_picks (img_w img_h : Z) (use_letterbox : bool)
  (objs : list HailoObject) :
  forall count,
    count <= MAX_TEXT_REGIONS ->
    exists picks,
      List.length picks = List.length objs
      /\ fst (crop_loop img_w img_h use_letterbox count objs)
         = apply_picks objs picks
      /\ snd (crop_loop img_w img_h use_letterbox count objs)
         = count + picked picks
      /\ count + picked picks <= MAX_TEXT_REGIONS
      /\ Forall2 (fun o pick =>
                    pick = None
                    \/ (is_detection o = true
                        /\ get_label o = "text_region"%string))
                 objs picks.
Proof.
  induction objs as [| o rest IH]; intros count Hc; cbn [crop_loop].
  - exists []. unfold picked. simpl. repeat split; try lia. constructor.
  - assert (Hskip : exists picks,
               List.length picks = List.length (o :: rest)
               /\ fst (let (rest1, n) :=
                         crop_loop img_w img_h use_letterbox count rest in
                       (o :: rest1, n))
                  = apply_picks (o :: rest) picks
               /\ snd (let (rest1, n) :=
                         crop_loop img_w img_h use_letterbox count rest in
                       (o :: rest1, n))
                  = count + picked picks
               /\ count + picked picks <= MAX_TEXT_REGIONS
               /\ Forall2 (fun o pick =>
                             pick = None
                             \/ (is_detection o = true
                                 /\ get_label o = "text_region"%string))
                          (o :: rest) picks).
    { destruct (IH count Hc) as [picks [Hlen [Hf [Hs [Hcap Hlab]]]]].
      exists (None :: picks).
      destruct (crop_loop img_w img_h use_letterbox count rest) as [rest1 n].
      cbn [fst snd] in *. cbn [apply_picks List.length].
      unfold picked in *. cbn [filter is_some].
      repeat split; try congruence; try lia.
      constructor; [now left | exact Hlab]. }
    destruct o as [nb label conf os | |]; try exact Hskip.
    destruct (MAX_TEXT_REGIONS <=? count) eqn:Ecap.
    { exists (repeat None (List.length (ObjDetection nb label conf os :: rest))).
      cbn [fst snd]. rewrite repeat_length.
      assert (Hid : forall l : list HailoObject,
                 apply_picks l (repeat None (List.length l)) = l).
      { induction l as [| x l IHl]; [reflexivity |]. simpl. now rewrite IHl. }
      assert (Hnone : forall k, picked (repeat None k) = 0).
      { induction k as [| k IHk]; [reflexivity |]. exact IHk. }
      rewrite Hid, Hnone. repeat split; try lia.
      generalize (ObjDetection nb label conf os :: rest).
      induction l as [| x l IHl]; simpl; constructor; auto. }
    apply Z.leb_gt in Ecap.
    destruct (String.eqb label "text_region") eqn:El; cbn [negb];
      [| exact Hskip].
    destruct (adjust_box img_w img_h use_letterbox nb) as [b |];
      [| exact Hskip].
    destruct (IH (count + 1) ltac:(lia)) as [picks [Hlen [Hf [Hs [Hcap2 Hlab]]]]].
    exists (Some b :: picks).
    destruct (crop_loop img_w img_h use_letterbox (count + 1) rest) as [rest1 n].
    cbn [fst snd] in *. cbn [apply_picks List.length].
    unfold picked in *. cbn [filter is_some List.length].
    repeat split; try congruence; try lia.
    constructor; [| exact Hlab].
    right. split; [reflexivity |]. apply String.eqb_eq in El. exact El.
Qed.

(** X12.  [crop_text_regions] on a frame: the objects of the ROI keep
    their number and order; [set_bbox] is called on 8 of them at most,
    each a detection labelled "text_region", and nothing else of the ROI
    is touched.  The ROI is handed to the cropper, alone, when at least
    one box was written, and no ROI is handed over otherwise. *)
Theorem crop_text_regions_cap (img_w img_h : Z) (roi : HailoROI)
  (use_letterbox : bool) :
  exists picks,
    List.length picks = List.length (roi_objects roi)
    /\ fst (crop_text_regions (Some (img_w, img_h)) roi use_letterbox)
       = set_objects roi (apply_picks (roi_objects roi) picks)
    /\ 0 <= picked picks <= MAX_TEXT_REGIONS
    /\ Forall2 (fun o pick =>
                  pick = None
                  \/ (is_detection o = true
                      /\ get_label o = "text_region"%string))
               (roi_objects roi) picks
    /\ snd (crop_text_regions (Some (img_w, img_h)) roi use_letterbox)
       = if 0 <? picked picks
         then [fst (crop_text_regions (Some (img_w, img_h)) roi use_letterbox)]
         else [].
Proof.
  destruct (crop_loop_picks img_w img_h use_letterbox (roi_objects roi) 0
              ltac:(unfold MAX_TEXT_REGIONS; lia))
    as [picks [Hlen [Hf [Hs [Hcap Hlab]]]]].
  exists picks. unfold crop_text_regions.
  destruct (crop_loop img_w img_h use_letterbox 0 (roi_objects roi))
    as [objs n].
  cbn [fst snd] in *. subst objs n.
  assert (Hp : 0 <= picked picks) by (unfold picked; lia).
  repeat split; try assumption; try lia.
Qed.

Lemma filter_neg_filter {A : Type} (f : A -> bool) (l : list A) :
  filter (fun a => negb (f a)) (filter f l) = [].
Proof.
  induction l as [| a l IH]; simpl; [reflexivity |].
  destruct (f a) eqn:E; simpl; [rewrite E; exact IH | exact IH].
Qed.

Lemma crop_text_regions_filter_roi (roi : HailoROI) :
  crop_text_regions_filter roi
  = set_objects roi
      (filter (fun o => negb (is_detection o)) (roi_objects roi)
       ++ filter is_detection (roi_objects roi)).
Proof.
  unfold crop_text_regions_filter. rewrite push_back_all, add_all_objects.
  unfold remove_objects_typed, set_objects. simpl. f_equal. f_equal.
  apply filter_ext. intros o. now rewrite type_is_detection.
Qed.

(** X13.  [crop_text_regions_filter] applied twice gives what it gives
    applied once: after the first pass the detections are the last
    objects of the ROI, and a pass leaves such an ROI unchanged. *)
Theorem crop_text_regions_filter_idempotent (roi : HailoROI) :
  crop_text_regions_filter (crop_text_regions_filter roi)
  = crop_text_regions_filter roi.
Proof.
  rewrite (crop_text_regions_filter_roi (crop_text_regions_filter roi)).
  rewrite (crop_text_regions_filter_roi roi).
  unfold set_objects. cbn [roi_objects roi_bbox roi_scaling_bbox roi_tensors].
  f_equal. rewrite !filter_app.
  rewrite (filter_idem (fun o => negb (is_detection o))).
  rewrite filter_neg_filter, filter_filter_neg, filter_idem.
  now rewrite app_nil_r.
Qed.

(* ------------------------------------------------------------------ *)
(** ** The clamp of a rectangle *)

(** X14.  In an image of at least one pixel each way, the clamp
    returns a non-empty rectangle inside the image; a rectangle that is
    already so is returned as it is, and clamping twice is clamping
    once. *)
Theorem clamp_rect_inside (W H : Z) (q : Rect) :
  1 <= W -> 1 <= H ->
  inside W H (clamp_rect W H q)
  /\ (inside W H q -> clamp_rect W H q = q)
  /\ clamp_rect W H (clamp_rect W H q) = clamp_rect W H q.
Proof.
  intros HW HH.
  assert (Hin : forall r, inside W H (clamp_rect W H r)).
  { intros r. unfold inside, clamp_rect.
    cbn [rect_x rect_y rect_width rect_height]. lia. }
  assert (Hid : forall r, inside W H r -> clamp_rect W H r = r).
  { intros [x y w h]. unfold inside, clamp_rect.
    cbn [rect_x rect_y rect_width rect_height]. intros Hr. f_equal; lia. }
  split; [apply Hin |]. split; [apply Hid |]. apply Hid, Hin.
Qed.

Lemma clamp_rect_inside_witness :
  inside 100 50 (clamp_rect 100 50 (mkRect (-5) 40 200 30))
  /\ (inside 100 50 (mkRect (-5) 40 200 30) ->
      clamp_rect 100 50 (mkRect (-5) 40 200 30) = mkRect (-5) 40 200 30)
  /\ clamp_rect 100 50 (clamp_rect 100 50 (mkRect (-5) 40 200 30))
     = clamp_rect 100 50 (mkRect (-5) 40 200 30).
Proof. apply (clamp_rect_inside 100 50 (mkRect (-5) 40 200 30)); lia. Defined.

(* ------------------------------------------------------------------ *)
(** ** Horizontal merge: the runs *)

Lemma merge_run_runs (max_gap_px : Z) (min_y : F32.t) (rects : list Rect) :
  forall first merged,
    exists blocks,
      runs_flat blocks = first :: merged ++ rects
      /\ merge_run max_gap_px min_y (union_all (first, merged)) rects
         = map union_all blocks.
Proof.
  induction rects as [| next rest IH]; intros first merged; cbn [merge_run].
  - exists [(first, merged)]. unfold runs_flat. simpl.
    now rewrite !app_nil_r.
  - destruct (mergeable max_gap_px min_y (union_all (first, merged)) next).
    + destruct (IH first (merged ++ [next])) as [blocks [Hflat Hout]].
      exists blocks. split.
      * rewrite Hflat, <- app_assoc. reflexivity.
      * rewrite <- Hout. unfold union_all. cbn [fst snd].
        now rewrite fold_left_app.
    + destruct (IH next []) as [blocks [Hflat Hout]].
      exists ((first, merged) :: blocks). split.
      * unfold runs_flat in *. cbn [flat_map fst snd]. rewrite Hflat.
        reflexivity.
      * cbn [map]. f_equal. exact Hout.
Qed.

Lemma merge_boxes_runs (rects : list Rect) (max_gap_px : Z)
  (min_y_overlap_ratio : F32.t) :
  (2 <= List.length rects)%nat ->
  exists blocks,
    runs_flat blocks = sort_by_x rects
    /\ merge_horizontal_boxes rects max_gap_px min_y_overlap_ratio
       = map union_all blocks.
Proof.
  intros Hlen. unfold merge_horizontal_boxes.
  destruct rects as [| a [| b rest]]; [simpl in Hlen; lia.. |].
  pose proof (sort_by_x_perm (a :: b :: rest)) as Hperm.
  destruct (sort_by_x (a :: b :: rest)) as [| run others] eqn:Es.
  - apply Permutation_sym, Permutation_nil in Hperm. discriminate.
  - destruct (merge_run_runs max_gap_px min_y_overlap_ratio others run [])
      as [blocks [Hflat Hout]].
    exists blocks. cbn [app] in Hflat. split; assumption.
Qed.

(** X15.  What [merge_horizontal_boxes] returns for two rectangles or
    more: the rectangles are put in order of [x], cut into runs of
    neighbours, and each run is replaced by the union of its
    rectangles.  No rectangle is dropped or used twice. *)
Theorem merge_horizontal_boxes_runs (rects : list Rect) (max_gap_px : Z)
  (min_y_overlap_ratio : F32.t) :
  (2 <= List.length rects)%nat ->
  exists blocks,
    Permutation rects (runs_flat blocks)
    /\ Sorted x_le (runs_flat blocks)
    /\ merge_horizontal_boxes rects max_gap_px min_y_overlap_ratio
       = map union_all blocks.
Proof.
  intros Hlen.
  destruct (merge_boxes_runs rects max_gap_px min_y_overlap_ratio Hlen)
    as [blocks [Hflat Hout]].
  exists blocks. rewrite Hflat.
  split; [apply sort_by_x_perm |]. split; [apply sort_by_x_sorted |].
  exact Hout.
Qed.

Lemma merge_horizontal_boxes_runs_witness :
  exists blocks,
    Permutation three_boxes (runs_flat blocks)
    /\ Sorted x_le (runs_flat blocks)
    /\ merge_horizontal_boxes three_boxes 3 (F32.lit 45 100)
       = map union_all blocks.
Proof.
  apply (merge_horizontal_boxes_runs three_boxes 3 (F32.lit 45 100)).
  simpl. lia.
Defined.

(* ------------------------------------------------------------------ *)
(** ** Horizontal merge: nothing is lost *)

Lemma rect_within_refl (r : Rect) : rect_within r r.
Proof. unfold rect_within. lia. Qed.

Lemma rect_within_trans (a b c : Rect) :
  rect_within a b -> rect_within b c -> rect_within a c.
Proof. unfold rect_within. lia. Qed.

Lemma rect_union_left (r run x : Rect) :
  rect_empty r = false -> rect_within r run ->
  rect_within r (rect_union run x).
Proof.
  unfold rect_empty, rect_within, rect_union. intros He Hw.
  apply orb_false_iff in He. destruct He as [Hew Heh].
  apply Z.leb_gt in Hew, Heh.
  destruct (rect_empty run) eqn:Er.
  - unfold rect_empty in Er. apply orb_true_iff in Er.
    destruct Er as [Er | Er]; apply Z.leb_le in Er; lia.
  - destruct (rect_empty x); [exact Hw |].
    cbn [rect_x rect_y rect_width rect_height]. lia.
Qed.

Lemma rect_union_right (run x : Rect) :
  rect_empty x = false -> rect_within x (rect_union run x).
Proof.
  unfold rect_within, rect_union. intros He.
  destruct (rect_empty run); [lia |]. rewrite He.
  cbn [rect_x rect_y rect_width rect_height]. lia.
Qed.

Lemma fold_union_keeps (r : Rect) (rs : list Rect) :
  forall run,
    rect_empty r = false -> rect_within r run ->
    rect_within r (fold_left rect_union rs run).
Proof.
  induction rs as [| x rs IH]; intros run He Hw; simpl; [exact Hw |].
  apply IH; [exact He |]. now apply rect_union_left.
Qed.

Lemma union_all_covers (block : Rect * list Rect) (r : Rect) :
  In r (fst block :: snd block) -> rect_empty r = false ->
  rect_within r (union_all block).
Proof.
  destruct block as [first rs]. unfold union_all. cbn [fst snd].
  intros [<- | Hin] He.
  - apply fold_union_keeps; [exact He | apply rect_within_refl].
  - revert first. induction rs as [| x rs IH]; intros first; [contradiction |].
    simpl. destruct Hin as [<- | Hin].
    + apply fold_union_keeps; [exact He |]. now apply rect_union_right.
    + now apply IH.
Qed.

Lemma merge_boxes_covers (rects : list Rect) (max_gap_px : Z)
  (min_y_overlap_ratio : F32.t) (r : Rect) :
  In r rects -> rect_empty r = false ->
  exists out,
    In out (merge_horizontal_boxes rects max_gap_px min_y_overlap_ratio)
    /\ rect_within r out.
Proof.
  intros Hin He.
  destruct (le_lt_dec 2 (List.length rects)) as [Hlen | Hlen].
  - destruct (merge_boxes_runs rects max_gap_px min_y_overlap_ratio
                Hlen) as [blocks [Hflat Hout]].
    rewrite Hout.
    assert (Hin' : In r (runs_flat blocks)).
    { rewrite Hflat. exact (Permutation_in r (sort_by_x_perm rects) Hin). }
    unfold runs_flat in Hin'. apply in_flat_map in Hin'.
    destruct Hin' as [block [Hblock Hr]].
    exists (union_all block). split; [now apply in_map |].
    now apply union_all_covers.
  - exists r. split; [| apply rect_within_refl].
    destruct rects as [| a [| b rest]]; simpl in *; [contradiction | tauto | lia].
Qed.

(** X16.  Merging loses no area: every non-empty rectangle handed to
    [merge_horizontal_boxes] lies within one of the rectangles it
    returns. *)
Theorem merge_horizontal_boxes_covers (rects : list Rect) (max_gap_px : Z)
  (min_y_overlap_ratio : F32.t) (r : Rect) :
  In r rects -> rect_empty r = false ->
  exists out,
    In out (merge_horizontal_boxes rects max_gap_px min_y_overlap_ratio)
    /\ rect_within r out.
Proof. apply merge_boxes_covers. Qed.

Lemma merge_horizontal_boxes_covers_witness :
  exists out,
    In out (merge_horizontal_boxes three_boxes 3 (F32.lit 45 100))
    /\ rect_within (mkRect 12 20 5 5) out.
Proof.
  apply (merge_horizontal_boxes_covers three_boxes 3 (F32.lit 45 100)
           (mkRect 12 20 5 5)).
  - simpl. tauto.
  - reflexivity.
Defined.

(* ------------------------------------------------------------------ *)
(** ** Horizontal merge: rectangles on two lines *)

Lemma F32_of_Z_positive (n : Z) :
  1 <= n -> n < 2 ^ 127 ->
  exists m e, F32.of_Z n = S754_finite false m e.
Proof.
  intros Hn Hlt. destruct n as [| p | p]; try lia.
  unfold F32.of_Z, F32.prec, F32.emax. cbn [binary_normalize].
  destruct (binary_round_value p 0 ltac:(lia)
              ltac:(pose proof (Zdigits2_upper (Z.pos p) 127 ltac:(lia) Hlt); lia))
    as [m [e [E _]]].
  exists m, e. exact E.
Qed.

Lemma positive_threshold_above_zero (thr : F32.t) :
  F32.ltb F32.zero thr = true -> F32.geb (S754_zero false) thr = false.
Proof.
  unfold F32.ltb, F32.geb, F32.leb, F32.zero, SFltb, SFleb.
  destruct thr as [[] | [] | | [] m e]; cbn [SFcompare]; congruence.
Qed.

(** X17.  Two rectangles whose vertical ranges do not meet are never
    merged, whatever the gap allowed, when the overlap ratio asked for
    is positive: the loop keeps both.  Heights are those of an [int]. *)
Theorem no_vertical_overlap_not_merged (max_gap_px : Z)
  (min_y_overlap_ratio : F32.t) (a b : Rect) :
  Z.min (rect_y a + rect_height a) (rect_y b + rect_height b)
  <= Z.max (rect_y a) (rect_y b) ->
  rect_height a < 2 ^ 31 -> rect_height b < 2 ^ 31 ->
  F32.ltb F32.zero min_y_overlap_ratio = true ->
  mergeable max_gap_px min_y_overlap_ratio a b = false
  /\ merge_run max_gap_px min_y_overlap_ratio a [b] = [a; b].
Proof.
  intros Hsep Ha Hb Hthr.
  assert (Hm : mergeable max_gap_px min_y_overlap_ratio a b = false).
  { unfold mergeable, y_overlap_ratio.
    replace (Z.max 0 (Z.min (rect_y a + rect_height a) (rect_y b + rect_height b)
                      - Z.max (rect_y a) (rect_y b))) with 0 by lia.
    assert (H31 : 2 ^ 31 < 2 ^ 127) by reflexivity.
    destruct (F32_of_Z_positive
                (Z.max 1 (Z.min (rect_height a) (rect_height b)))
                ltac:(lia) ltac:(lia)) as [m [e E]].
    rewrite E.
    change (F32.div (F32.of_Z 0) (S754_finite false m e))
      with (S754_zero false).
    rewrite (positive_threshold_above_zero _ Hthr). apply andb_false_r. }
  split; [exact Hm |]. cbn [merge_run]. rewrite Hm. reflexivity.
Qed.

Lemma no_vertical_overlap_not_merged_witness :
  mergeable 1000 (F32.lit 45 100) (mkRect 0 0 10 10) (mkRect 12 20 5 5) = false
  /\ merge_run 1000 (F32.lit 45 100) (mkRect 0 0 10 10) [mkRect 12 20 5 5]
     = two_lines.
Proof.
  apply (no_vertical_overlap_not_merged 1000 (F32.lit 45 100)
           (mkRect 0 0 10 10) (mkRect 12 20 5 5)).
  - simpl. lia.
  - reflexivity.
  - reflexivity.
  - reflexivity.
Defined.

(* ------------------------------------------------------------------ *)
(** ** Detector: the inflated rectangles *)

Lemma inside_within_grown (r0 r : Rect) (gx gy : Z) :
  grown_within r0 r gx gy -> rect_within r0 r.
Proof. unfold grown_within, rect_within. lia. Qed.

Lemma gentle_grow_inside (W H : Z) (r : Rect) :
  inside W H r ->
  inside W H (gentle_grow W H r) /\ rect_within r (gentle_grow W H r).
Proof.
  intros Hin. unfold gentle_grow.
  set (gx := Z.max 1 _). set (gy := Z.max 1 _).
  destruct (clamp_grow_step W H r gx gy Hin ltac:(lia) ltac:(lia))
    as [Hi Hg].
  split; [exact Hi |]. exact (inside_within_grown _ _ _ _ Hg).
Qed.

Lemma thicken_inside (W H : Z) (r : Rect) (addY : Z) :
  inside W H r -> 0 <= addY ->
  inside W H (clamp_rect W H
                (mkRect (rect_x r) (rect_y r - Z.quot addY 2)
                        (rect_width r) (rect_height r + addY)))
  /\ rect_within r
       (clamp_rect W H
          (mkRect (rect_x r) (rect_y r - Z.quot addY 2)
                  (rect_width r) (rect_height r + addY))).
Proof.
  intros Hin Hadd.
  assert (Hq : 0 <= Z.quot addY 2 <= addY).
  { rewrite Z.quot_div_nonneg by lia. split.
    - apply Z.div_pos; lia.
    - apply Z.div_le_upper_bound; lia. }
  revert Hq. generalize (Z.quot addY 2). intros q Hq.
  unfold inside, rect_within, clamp_rect in *.
  cbn [rect_x rect_y rect_width rect_height]. lia.
Qed.

Lemma inflate_step_inside (W H PAD_X0 PAD_Y0 : Z) (r0 : Rect) :
  inside W H r0 -> 0 <= PAD_X0 -> 0 <= PAD_Y0 ->
  inside W H (inflate W H PAD_X0 PAD_Y0 r0)
  /\ rect_within r0 (inflate W H PAD_X0 PAD_Y0 r0).
Proof.
  intros Hin Hx Hy. unfold inflate.
  destruct (clamp_grow_step W H r0 PAD_X0 PAD_Y0 Hin Hx Hy) as [Hi1 Hg1].
  apply inside_within_grown in Hg1.
  set (r1 := clamp_rect W H (grow_rect r0 PAD_X0 PAD_Y0)) in *.
  set (r2 := if F32.gtb (aspect_ratio r1) (F32.of_Z 10) then _ else r1).
  assert (H2 : inside W H r2 /\ rect_within r1 r2).
  { unfold r2. destruct (F32.gtb (aspect_ratio r1) (F32.of_Z 10)).
    - apply thicken_inside; [exact Hi1 | lia].
    - split; [exact Hi1 | apply rect_within_refl]. }
  destruct H2 as [Hi2 Hw2].
  destruct (gentle_grow_inside W H r2 Hi2) as [Hi3 Hw3].
  destruct (gentle_grow_inside W H _ Hi3) as [Hi4 Hw4].
  split; [exact Hi4 |].
  eapply rect_within_trans; [exact Hg1 |].
  eapply rect_within_trans; [exact Hw2 |].
  eapply rect_within_trans; [exact Hw3 | exact Hw4].
Qed.

(** X18.  The inflation of step 4.6, for non-negative base pads: a
    rectangle inside the map stays inside the map, and the inflated
    rectangle contains the one it was made from. *)
Theorem inflate_inside (W H PAD_X0 PAD_Y0 : Z) (r0 : Rect) :
  inside W H r0 -> 0 <= PAD_X0 -> 0 <= PAD_Y0 ->
  inside W H (inflate W H PAD_X0 PAD_Y0 r0)
  /\ rect_within r0 (inflate W H PAD_X0 PAD_Y0 r0).
Proof. apply inflate_step_inside. Qed.

Lemma inflate_inside_witness :
  inside 128 32 (inflate 128 32 6 4 (mkRect 10 10 40 10))
  /\ rect_within (mkRect 10 10 40 10) (inflate 128 32 6 4 (mkRect 10 10 40 10)).
Proof.
  apply (inflate_inside 128 32 6 4 (mkRect 10 10 40 10)); [| lia | lia].
  unfold inside. simpl. lia.
Defined.

Lemma rect_union_inside (W H : Z) (a b : Rect) :
  inside W H a -> inside W H b -> inside W H (rect_union a b).
Proof.
  unfold inside, rect_union, rect_empty. intros Ha Hb.
  assert (Ea : (rect_width a <=? 0) || (rect_height a <=? 0) = false).
  { apply orb_false_iff. split; apply Z.leb_gt; lia. }
  assert (Eb : (rect_width b <=? 0) || (rect_height b <=? 0) = false).
  { apply orb_false_iff. split; apply Z.leb_gt; lia. }
  rewrite Ea, Eb. cbn [rect_x rect_y rect_width rect_height]. lia.
Qed.

Lemma union_all_inside (W H : Z) (block : Rect * list Rect) :
  Forall (inside W H) (fst block :: snd block) ->
  inside W H (union_all block).
Proof.
  destruct block as [first rs]. unfold union_all. cbn [fst snd].
  intros Hall. apply Forall_cons_iff in Hall. destruct Hall as [Hf Hrs].
  revert first Hf. induction Hrs as [| x rs Hx _ IH]; intros first Hf;
    simpl; [exact Hf |].
  apply IH. now apply rect_union_inside.
Qed.

Lemma merge_horizontal_boxes_inside (W H : Z) (rects : list Rect)
  (max_gap_px : Z) (min_y : F32.t) :
  Forall (inside W H) rects ->
  Forall (inside W H) (merge_horizontal_boxes rects max_gap_px min_y).
Proof.
  intros Hall.
  destruct (le_lt_dec 2 (List.length rects)) as [Hlen | Hlen].
  - destruct (merge_boxes_runs rects max_gap_px min_y Hlen)
      as [blocks [Hflat Hout]].
    pose proof (sort_by_x_perm rects) as Hperm. rewrite <- Hflat in Hperm.
    rewrite Hout. apply Forall_forall. intros out Hin.
    apply in_map_iff in Hin. destruct Hin as [block [<- Hblock]].
    apply union_all_inside. apply Forall_forall. intros r Hr.
    rewrite Forall_forall in Hall. apply Hall.
    apply (Permutation_in r (Permutation_sym Hperm)).
    unfold runs_flat. apply in_flat_map. exists block. split; assumption.
  - destruct rects as [| a [| b rest]]; simpl in *; try exact Hall. lia.
Qed.

(** X19.  Steps 4.5 and 4.6 together, on the rectangles of the
    contours, each non-empty and inside the map: every rectangle they
    produce is inside the map, and every rectangle of a contour lies
    within one of them. *)
Theorem inflated_rects_inside (W H : Z) (rects0 : list Rect) :
  Forall (inside W H) rects0 ->
  Forall (inside W H) (inflated_rects W H rects0)
  /\ forall r, In r rects0 ->
       exists out, In out (inflated_rects W H rects0) /\ rect_within r out.
Proof.
  intros Hall. unfold inflated_rects.
  set (GAP_PX := Z.max 3 _). set (YOV := F32.lit 45 100).
  set (PAD_X0 := Z.max 2 _). set (PAD_Y0 := Z.max 1 _).
  pose proof (merge_horizontal_boxes_inside W H rects0 GAP_PX YOV Hall) as Hm.
  split.
  - apply Forall_forall. intros out Hin. apply in_map_iff in Hin.
    destruct Hin as [r [<- Hr]]. rewrite Forall_forall in Hm.
    apply (inflate_step_inside W H PAD_X0 PAD_Y0 r (Hm r Hr)); lia.
  - intros r Hr.
    assert (He : rect_empty r = false).
    { rewrite Forall_forall in Hall. specialize (Hall r Hr).
      unfold inside in Hall. unfold rect_empty.
      apply orb_false_iff. split; apply Z.leb_gt; lia. }
    destruct (merge_boxes_covers rects0 GAP_PX YOV r Hr He)
      as [mid [Hmid Hw]].
    exists (inflate W H PAD_X0 PAD_Y0 mid). split; [now apply in_map |].
    eapply rect_within_trans; [exact Hw |].
    rewrite Forall_forall in Hm.
    apply (inflate_step_inside W H PAD_X0 PAD_Y0 mid (Hm mid Hmid)); lia.
Qed.

Lemma inflated_rects_inside_witness :
  Forall (inside 128 32)
    (inflated_rects 128 32 [mkRect 10 10 40 10; mkRect 60 12 10 6])
  /\ forall r, In r [mkRect 10 10 40 10; mkRect 60 12 10 6] ->
       exists out,
         In out (inflated_rects 128 32 [mkRect 10 10 40 10; mkRect 60 12 10 6])
         /\ rect_within r out.
Proof.
  apply (inflated_rects_inside 128 32 [mkRect 10 10 40 10; mkRect 60 12 10 6]).
  repeat constructor; simpl; lia.
Defined.

(* ------------------------------------------------------------------ *)
(** ** Detector: the shape of the map *)

(** X20.  The height and width resolved from the shape of the tensor
    are never those of a map more than 16 rows high and at most 4
    columns wide: such a pair is swapped. *)
Theorem resolve_hw_not_thin (sh : list Z) (p : OcrParams) :
  4 < snd (resolve_hw sh p) \/ fst (resolve_hw sh p) <= 16.
Proof.
  unfold resolve_hw.
  match goal with
  | |- context [let '(H, W) := ?e in _] => destruct e as [H W]
  end.
  destruct ((W <=? 4) && (16 <? H)) eqn:E; cbn [fst snd].
  - apply andb_true_iff in E. destruct E as [_ E]. apply Z.ltb_lt in E. lia.
  - apply andb_false_iff in E. destruct E as [E | E].
    + apply Z.leb_gt in E. lia.
    + apply Z.ltb_ge in E. lia.
Qed.

Lemma int_of_size_t_small (n : Z) : 0 <= n < 2 ^ 31 -> int_of_size_t n = n.
Proof.
  intros Hn. unfold int_of_size_t.
  change (2 ^ 31) with 2147483648 in *. change (2 ^ 32) with 4294967296.
  rewrite Z.mod_small by lia. lia.
Qed.

Lemma resolve_hw_rank3_sorted (a b c : Z) :
  (let v := sort_Z [a; b; c] in
   if (nth 2 v 0 <=? 4) && (16 <? nth 1 v 0) then (nth 2 v 0, nth 1 v 0)
   else (nth 1 v 0, nth 2 v 0))
  = (mid3 a b c, max3 a b c).
Proof.
  unfold mid3, max3, sort_Z. cbn [fold_right insert_Z].
  destruct (c <? b) eqn:E21; cbn [insert_Z];
    destruct (b <? a) eqn:E10; cbn [insert_Z];
    try destruct (c <? a) eqn:E20; cbn [insert_Z nth];
    repeat match goal with
           | H : (_ <? _) = true |- _ => apply Z.ltb_lt in H
           | H : (_ <? _) = false |- _ => apply Z.ltb_ge in H
           end;
    match goal with
    | |- (if (?W <=? 4) && (16 <? ?H) then _ else _) = _ =>
        assert (Hf : (W <=? 4) && (16 <? H) = false)
          by (apply andb_false_iff;
              destruct (Z.le_gt_cases W 4);
              [right; apply Z.ltb_ge; lia | left; apply Z.leb_gt; lia]);
        rewrite Hf
    end;
    f_equal; lia.
Qed.

(** X21.  For a shape of rank 3 with no 1 at either end, the width is
    the largest and the height the middle one of the three dimensions
    as narrowed to [int], in whatever order they come; for dimensions
    below [2^31] these are the dimensions themselves. *)
Theorem resolve_hw_rank3 (s0 s1 s2 : Z) (p : OcrParams) :
  s0 <> 1 -> s2 <> 1 ->
  resolve_hw [s0; s1; s2] p
  = (mid3 (int_of_size_t s0) (int_of_size_t s1) (int_of_size_t s2),
     max3 (int_of_size_t s0) (int_of_size_t s1) (int_of_size_t s2))
  /\ (0 <= s0 < 2 ^ 31 -> 0 <= s1 < 2 ^ 31 -> 0 <= s2 < 2 ^ 31 ->
      resolve_hw [s0; s1; s2] p = (mid3 s0 s1 s2, max3 s0 s1 s2)).
Proof.
  intros H0 H2.
  assert (E : resolve_hw [s0; s1; s2] p
              = (mid3 (int_of_size_t s0) (int_of_size_t s1) (int_of_size_t s2),
                 max3 (int_of_size_t s0) (int_of_size_t s1)
                      (int_of_size_t s2))).
  { unfold resolve_hw. apply Z.eqb_neq in H0, H2. rewrite H0, H2.
    exact (resolve_hw_rank3_sorted _ _ _). }
  split; [exact E |]. intros R0 R1 R2. rewrite E.
  now rewrite !int_of_size_t_small by assumption.
Qed.

Lemma resolve_hw_rank3_witness :
  resolve_hw [128; 4; 32] sample_params
  = (mid3 (int_of_size_t 128) (int_of_size_t 4) (int_of_size_t 32),
     max3 (int_of_size_t 128) (int_of_size_t 4) (int_of_size_t 32))
  /\ (0 <= 128 < 2 ^ 31 -> 0 <= 4 < 2 ^ 31 -> 0 <= 32 < 2 ^ 31 ->
      resolve_hw [128; 4; 32] sample_params = (mid3 128 4 32, max3 128 4 32)).
Proof. apply (resolve_hw_rank3 128 4 32 sample_params); lia. Defined.

(** A dimension that does not fit an [int] is narrowed: [2^32 + 32]
    reads as 32. *)
Example resolve_hw_narrows :
  resolve_hw [2 ^ 32 + 32; 128; 1] sample_params = (32, 128)
  /\ resolve_hw [2 ^ 32 + 32; 128; 16] sample_params = (32, 128).
Proof. split; vm_compute; reflexivity. Qed.

(* ------------------------------------------------------------------ *)
(** ** Detector: the closing kernel *)

Lemma odd_at_least_odd (v : Z) : Z.odd (odd_at_least v) = true /\ v <= odd_at_least v.
Proof.
  unfold odd_at_least. destruct (Z.even v) eqn:E.
  - split; [| lia]. rewrite Z.odd_add, <- Z.negb_even, E. reflexivity.
  - split; [| lia]. now rewrite <- Z.negb_even, E.
Qed.

(** X22.  The sides of the closing kernels are odd whatever the size
    of the map and the density found: at least 3 by 1 in
    [paddleocr_det] and in [morph_close_horizontal]. *)
Theorem closing_kernel_sides (n lo : Z) (frac kscale : F32.t) (bin : BinMap) :
  Z.odd (close_kernel n frac lo kscale) = true
  /\ lo <= close_kernel n frac lo kscale
  /\ Z.odd (fst (morph_kernel bin)) = true
  /\ 3 <= fst (morph_kernel bin)
  /\ Z.odd (snd (morph_kernel bin)) = true
  /\ 1 <= snd (morph_kernel bin).
Proof.
  unfold close_kernel, morph_kernel. cbn [fst snd].
  repeat match goal with
         | |- context [odd_at_least ?v] =>
             let Ho := fresh "Ho" in
             let k := fresh "k" in
             pose proof (odd_at_least_odd v) as Ho;
             set (k := odd_at_least v) in *; clearbody k
         end.
  intuition lia.
Qed.

(* ------------------------------------------------------------------ *)
(** ** The clamp to [0, 1] *)

(** X23.  The lambda [clamp01] returns a number of [0, 1] for every
    [float]: an infinity goes to the nearer bound and a NaN to 1. *)
Theorem clamp01_bounds (v : F32.t) :
  F32.valid v = true ->
  F32.leb F32.zero (clamp01 v) = true
  /\ F32.leb (clamp01 v) F32.one = true
  /\ clamp01 S754_nan = F32.one
  /\ clamp01 (S754_infinity false) = F32.one
  /\ clamp01 (S754_infinity true) = F32.zero.
Proof.
  intros Hv. destruct (clamp01_range v Hv) as [Hn Hle].
  assert (Hone : nonneg F32.one /\ V F32.one = ONE) by (split; reflexivity).
  unfold F32.leb.
  rewrite (SFleb_V F32.zero (clamp01 v) I Hn).
  rewrite (SFleb_V (clamp01 v) F32.one Hn (proj1 Hone)), (proj2 Hone).
  change (V F32.zero) with 0. pose proof (V_nonneg (clamp01 v)).
  repeat split; try reflexivity; apply Z.leb_le; lia.
Qed.

Lemma clamp01_bounds_witness :
  F32.leb F32.zero (clamp01 (F32.lit 15 10)) = true
  /\ F32.leb (clamp01 (F32.lit 15 10)) F32.one = true
  /\ clamp01 S754_nan = F32.one
  /\ clamp01 (S754_infinity false) = F32.one
  /\ clamp01 (S754_infinity true) = F32.zero.
Proof. apply (clamp01_bounds (F32.lit 15 10)). reflexivity. Defined.

(* ------------------------------------------------------------------ *)
(** ** Detector: scores, filters and the ROI *)

Section DetectorOutputs.

Variable cv_convert_pixel : Z -> F32.t.
Variable cv_closed_contours : ProbMap -> F32.t -> Z -> Z -> list (list (Z * Z)).
Variable cv_boundingRect : list (Z * Z) -> Rect.
Variable cv_mean : ProbMap -> Rect -> F32.t.

(** X24.  The score of a rectangle inside the map is the mean of the
    map over that rectangle; a rectangle that is empty or lies off the
    map scores 0 and the map is not read. *)
Theorem region_score_rect_cases (prob : ProbMap) (r : Rect) :
  (inside (prob_cols prob) (prob_rows prob) r ->
   region_score_rect cv_mean prob r = cv_mean prob r)
  /\ (rect_width r <= 0 \/ rect_height r <= 0
      \/ prob_cols prob <= rect_x r \/ prob_rows prob <= rect_y r
      \/ rect_x r + rect_width r <= 0 \/ rect_y r + rect_height r <= 0 ->
      region_score_rect cv_mean prob r = F32.zero).
Proof.
  unfold region_score_rect, rect_inter, inside.
  cbn [rect_x rect_y rect_width rect_height]. split.
  - intros Hin.
    set (w := Z.min _ _ - Z.max (rect_x r) 0).
    set (h := Z.min _ _ - Z.max (rect_y r) 0).
    assert (Hw : w = rect_width r) by (unfold w; lia).
    assert (Hh : h = rect_height r) by (unfold h; lia).
    assert (E : (w <=? 0) || (h <=? 0) = false).
    { apply orb_false_iff. split; apply Z.leb_gt; lia. }
    rewrite E. unfold rect_empty. cbn [rect_width rect_height]. rewrite E.
    f_equal. destruct r as [x y rw rh]. cbn [rect_x rect_y rect_width rect_height] in *.
    f_equal; lia.
  - intros Hout.
    set (w := Z.min _ _ - Z.max (rect_x r) 0).
    set (h := Z.min _ _ - Z.max (rect_y r) 0).
    assert (E : (w <=? 0) || (h <=? 0) = true).
    { apply orb_true_iff.
      destruct (Z.le_gt_cases w 0) as [Hw | Hw]; [left; now apply Z.leb_le |].
      right. apply Z.leb_le. unfold w, h in *. lia. }
    rewrite E. reflexivity.
Qed.

Lemma filter_rects_bound (p : OcrParams) (prob : ProbMap) (H median_h : Z)
  (sx sy : F32.t) (roi_box : HailoBBox) (rects : list Rect) :
  forall n_outs,
    Z.of_nat (List.length (filter_rects cv_mean p prob H median_h sx sy roi_box
                             n_outs rects))
    <= Z.max 1 (det_max_candidates p - n_outs)
    /\ (List.length (filter_rects cv_mean p prob H median_h sx sy roi_box
                       n_outs rects) <= List.length rects)%nat
    /\ Forall is_text_region
         (filter_rects cv_mean p prob H median_h sx sy roi_box n_outs rects).
Proof.
  induction rects as [| r rest IH]; intros n_outs; cbn [filter_rects].
  - simpl. repeat split; try lia. constructor.
  - destruct (passes_filters cv_mean p prob H median_h r).
    + destruct (det_max_candidates p <=? n_outs + 1) eqn:Ecap.
      * simpl. repeat split; try lia.
        constructor; [| constructor]. unfold is_text_region, text_region. eauto.
      * apply Z.leb_gt in Ecap.
        destruct (IH (n_outs + 1)) as [Hb [Hl Hf]].
        cbn [List.length]. repeat split; try lia.
        constructor; [| exact Hf]. unfold is_text_region, text_region. eauto.
    + destruct (IH n_outs) as [Hb [Hl Hf]]. cbn [List.length].
      repeat split; try lia. exact Hf.
Qed.

Lemma fallback_detections_bound (prob : ProbMap) (W H : Z) (sx sy : F32.t)
  (roi_box : HailoBBox) (rects : list Rect) :
  (List.length (fallback_detections cv_mean prob W H sx sy roi_box rects)
   = Nat.min 2 (List.length rects))%nat
  /\ Forall is_text_region
       (fallback_detections cv_mean prob W H sx sy roi_box rects).
Proof.
  unfold fallback_detections, fallback_rects. split.
  - rewrite length_map, length_firstn.
    assert (Hl : List.length (sort_by_width_desc rects) = List.length rects).
    { symmetry. apply Permutation_length. apply sort_by_width_desc_perm. }
    rewrite Hl. lia.
  - apply Forall_forall. intros o Ho. apply in_map_iff in Ho.
    destruct Ho as [r [<- _]]. unfold is_text_region, text_region. eauto.
Qed.

Lemma det_outputs_cases (p : OcrParams) (prob : ProbMap) (W H : Z)
  (roi_box : HailoBBox) (rects0 : list Rect) :
  det_outputs cv_mean p prob W H roi_box rects0
  = filter_rects cv_mean p prob H (median (map rect_height rects0))
      (F32.div (width roi_box) (F32.of_Z W))
      (F32.div (height roi_box) (F32.of_Z H)) roi_box 0
      (inflated_rects W H rects0)
  \/ det_outputs cv_mean p prob W H roi_box rects0
     = fallback_detections cv_mean prob W H
         (F32.div (width roi_box) (F32.of_Z W))
         (F32.div (height roi_box) (F32.of_Z H)) roi_box
         (inflated_rects W H rects0).
Proof.
  unfold det_outputs.
  destruct (filter_rects _ _ _ _ _ _ _ _ _ _) as [| o outs]; [| now left].
  destruct (inflated_rects W H rects0); [now left | now right].
Qed.

Lemma det_outputs_labels (p : OcrParams) (prob : ProbMap) (W H : Z)
  (roi_box : HailoBBox) (rects0 : list Rect) :
  Forall is_text_region (det_outputs cv_mean p prob W H roi_box rects0)
  /\ Z.of_nat (List.length (det_outputs cv_mean p prob W H roi_box rects0))
     <= Z.max 2 (det_max_candidates p).
Proof.
  destruct (det_outputs_cases p prob W H roi_box rects0) as [-> | ->].
  - destruct (filter_rects_bound p prob H (median (map rect_height rects0))
                (F32.div (width roi_box) (F32.of_Z W))
                (F32.div (height roi_box) (F32.of_Z H)) roi_box
                (inflated_rects W H rects0) 0) as [Hb [_ Hf]].
    split; [exact Hf | lia].
  - destruct (fallback_detections_bound prob W H
                (F32.div (width roi_box) (F32.of_Z W))
                (F32.div (height roi_box) (F32.of_Z H)) roi_box
                (inflated_rects W H rects0)) as [Hl Hf].
    split; [exact Hf | lia].
Qed.

(** X25.  The detections handed to the ROI by steps 4.5 to 5.5: each
    is labelled "text_region", carries no object of its own, and there
    are at most [det_max_candidates] of them, or one or two when that
    cap is below 2, and never more than there were contours.  When
    there is a rectangle at all, at least one detection is made. *)
Theorem det_outputs_text_regions (p : OcrParams) (prob : ProbMap) (W H : Z)
  (roi_box : HailoBBox) (rects0 : list Rect) :
  Forall is_text_region (det_outputs cv_mean p prob W H roi_box rects0)
  /\ Z.of_nat (List.length (det_outputs cv_mean p prob W H roi_box rects0))
     <= Z.max 2 (det_max_candidates p)
  /\ (List.length (det_outputs cv_mean p prob W H roi_box rects0)
      <= List.length rects0)%nat
  /\ (rects0 <> [] -> det_outputs cv_mean p prob W H roi_box rects0 <> []).
Proof.
  unfold det_outputs.
  set (median_h := median (map rect_height rects0)).
  set (sx := F32.div (width roi_box) (F32.of_Z W)).
  set (sy := F32.div (height roi_box) (F32.of_Z H)).
  assert (Hinfl : (List.length (inflated_rects W H rects0)
                   <= List.length rects0)%nat).
  { unfold inflated_rects. rewrite length_map.
    apply merge_horizontal_boxes_length. }
  destruct (filter_rects_bound p prob H median_h sx sy roi_box
              (inflated_rects W H rects0) 0) as [Hb [Hl Hf]].
  destruct (fallback_detections_bound prob W H sx sy roi_box
              (inflated_rects W H rects0)) as [Hfl Hff].
  destruct (filter_rects cv_mean p prob H median_h sx sy roi_box 0
              (inflated_rects W H rects0)) as [| o outs] eqn:Eouts.
  - destruct (inflated_rects W H rects0) as [| r rs] eqn:Er.
    + repeat split; try constructor; simpl; try lia.
      intros Hne. exfalso. exact (inflated_rects_nonempty W H rects0 Hne Er).
    + split; [exact Hff |]. rewrite Hfl. cbn [List.length] in *.
      repeat split; try lia.
      intros _ E. apply (f_equal (@List.length HailoObject)) in E.
      rewrite Hfl in E. simpl in E. lia.
  - split; [exact Hf |]. repeat split; try lia. intros _. discriminate.
Qed.

(** X26.  The cap [det_max_candidates] is tested after a detection is
    added.  With a cap of 1, 0 or less the loop of step 5 emits the
    first rectangle that passes the filters and stops: one detection is
    made even when the cap is 0 or negative. *)
Theorem filter_rects_cap_after_add (p : OcrParams) (prob : ProbMap)
  (H median_h : Z) (sx sy : F32.t) (roi_box : HailoBBox) (rects : list Rect) :
  det_max_candidates p <= 1 ->
  filter_rects cv_mean p prob H median_h sx sy roi_box 0 rects
  = match find (passes_filters cv_mean p prob H median_h) rects with
    | Some r => [text_region cv_mean prob sx sy roi_box r]
    | None => []
    end.
Proof.
  intros Hcap. induction rects as [| r rest IH]; [reflexivity |].
  cbn [filter_rects find].
  destruct (passes_filters cv_mean p prob H median_h r); [| exact IH].
  assert (E : (det_max_candidates p <=? 0 + 1) = true) by (apply Z.leb_le; lia).
  rewrite E. reflexivity.
Qed.

Lemma det_emit_frame (roi : HailoROI) (p : OcrParams) (outs : list HailoObject) :
  roi_objects (det_emit roi p outs) = roi_objects roi ++ outs
  /\ roi_tensors (det_emit roi p outs) = roi_tensors roi
  /\ roi_bbox (det_emit roi p outs) = roi_bbox roi
  /\ roi_scaling_bbox (det_emit roi p outs)
     = if letterbox_fix p && negb (Nat.eqb (List.length outs) 0)
       then identity_box else roi_scaling_bbox roi.
Proof.
  unfold det_emit. destruct outs as [| o outs].
  - rewrite app_nil_r, andb_false_r. auto.
  - unfold add_detections. rewrite add_all_objects.
    cbn [List.length Nat.eqb negb]. rewrite andb_true_r.
    destruct (letterbox_fix p); cbn [clear_scaling_bbox set_objects roi_objects
      roi_tensors roi_bbox roi_scaling_bbox]; auto.
Qed.

(** X27.  What [paddleocr_det] changes when it returns: it appends
    detections labelled "text_region" after the objects the ROI had,
    removes nothing, and keeps the tensors and the box; the scaling box
    is reset when [letterbox_fix] is set and a detection was added, and
    kept otherwise. *)
Theorem paddleocr_det_frame (roi roi' : HailoROI) (p : OcrParams) :
  paddleocr_det cv_convert_pixel cv_closed_contours cv_boundingRect cv_mean
    roi p = Ok roi' ->
  exists outs,
    roi_objects roi' = roi_objects roi ++ outs
    /\ Forall is_text_region outs
    /\ Z.of_nat (List.length outs) <= Z.max 2 (det_max_candidates p)
    /\ roi_tensors roi' = roi_tensors roi
    /\ roi_bbox roi' = roi_bbox roi
    /\ roi_scaling_bbox roi'
       = if letterbox_fix p && negb (Nat.eqb (List.length outs) 0)
         then identity_box else roi_scaling_bbox roi.
Proof.
  assert (Hsame : exists outs,
             roi_objects roi = roi_objects roi ++ outs
             /\ Forall is_text_region outs
             /\ Z.of_nat (List.length outs) <= Z.max 2 (det_max_candidates p)
             /\ roi_tensors roi = roi_tensors roi
             /\ roi_bbox roi = roi_bbox roi
             /\ roi_scaling_bbox roi
                = if letterbox_fix p && negb (Nat.eqb (List.length outs) 0)
                  then identity_box else roi_scaling_bbox roi).
  { exists []. rewrite app_nil_r, andb_false_r. simpl.
    repeat split; try lia. constructor. }
  unfold paddleocr_det.
  destruct (negb (has_tensors roi)).
  { intros E. injection E as <-. exact Hsame. }
  destruct (get_tensor_by_name_or_fallback roi (det_output_name p))
    as [t | |]; cbn [bind]; try discriminate.
  destruct (resolve_hw (tensor_shape t) p) as [H W].
  destruct (tensor_to_probmap_u8_as_float cv_convert_pixel t H W)
    as [prob | |]; cbn [bind]; try discriminate.
  destruct (det_rects0 cv_closed_contours cv_boundingRect p prob H W)
    as [| r0 rs0] eqn:Er.
  { intros E. injection E as <-. exact Hsame. }
  intros E. injection E as <-.
  set (roi_box := create_flattened_bbox (roi_bbox roi) (roi_scaling_bbox roi)).
  exists (det_outputs cv_mean p prob W H roi_box (r0 :: rs0)).
  destruct (det_emit_frame roi p
              (det_outputs cv_mean p prob W H roi_box (r0 :: rs0)))
    as [Ho [Ht [Hb Hs]]].
  destruct (det_outputs_labels p prob W H roi_box (r0 :: rs0)) as [Hf Hc].
  repeat split; assumption.
Qed.

(** X28.  The outcomes of [paddleocr_det] on an ROI that carries a
    tensor, by the tensor the lookup chose and the size [H] by [W]
    resolved from its shape, narrowed to [int] and of one pixel at
    least each way: a null data pointer raises "Detector tensor has
    null data()", a buffer of fewer than [H * W] bytes is read past its
    end, and the filter returns normally otherwise. *)
Theorem paddleocr_det_outcomes (roi : HailoROI) (p : OcrParams)
  (t : HailoTensor) (H W : Z) :
  get_tensor_by_name_or_fallback roi (det_output_name p) = Ok t ->
  resolve_hw (tensor_shape t) p = (H, W) ->
  1 <= H -> 1 <= W ->
  match tensor_data t with
  | None =>
      paddleocr_det cv_convert_pixel cv_closed_contours cv_boundingRect
        cv_mean roi p
      = Raise "Detector tensor has null data()"
  | Some u8 =>
      if Z.of_nat (List.length u8) <? H * W
      then paddleocr_det cv_convert_pixel cv_closed_contours
             cv_boundingRect cv_mean roi p = Fault
      else exists roi',
             paddleocr_det cv_convert_pixel cv_closed_contours
               cv_boundingRect cv_mean roi p = Ok roi'
  end.
Proof.
  intros Ht Hhw HH HW. unfold paddleocr_det.
  assert (Hhas : has_tensors roi = true).
  { unfold get_tensor_by_name_or_fallback, has_tensors in *.
    destruct (roi_tensors roi); [simpl in Ht; discriminate | reflexivity]. }
  rewrite Hhas, Ht. cbn [negb bind]. rewrite Hhw.
  unfold tensor_to_probmap_u8_as_float.
  destruct (tensor_data t) as [u8 |]; [| reflexivity].
  assert (E : (List.length u8 <? Z.to_nat H * Z.to_nat W)%nat
              = (Z.of_nat (List.length u8) <? H * W)).
  { destruct (Z.of_nat (List.length u8) <? H * W) eqn:Ez.
    - apply Z.ltb_lt in Ez. apply Nat.ltb_lt. apply Nat2Z.inj_lt.
      rewrite Nat2Z.inj_mul, !Z2Nat.id by lia. exact Ez.
    - apply Z.ltb_ge in Ez. apply Nat.ltb_ge. apply Nat2Z.inj_le.
      rewrite Nat2Z.inj_mul, !Z2Nat.id by lia. exact Ez. }
  rewrite E.
  destruct (Z.of_nat (List.length u8) <? H * W); [reflexivity |].
  cbn [bind].
  destruct (det_rects0 cv_closed_contours cv_boundingRect p _ H W); eauto.
Qed.

End DetectorOutputs.

Lemma filter_rects_cap_after_add_witness :
  filter_rects (fun _ _ => F32.one)
    (set_det_max_candidates sample_params 0) zero_map 32 10
    F32.one F32.one unit_box 0 [mkRect 10 10 40 10; mkRect 60 10 40 10]
  = match find (passes_filters (fun _ _ => F32.one)
                  (set_det_max_candidates sample_params 0) zero_map 32 10)
            [mkRect 10 10 40 10; mkRect 60 10 40 10] with
    | Some r => [text_region (fun _ _ => F32.one) zero_map F32.one F32.one
                   unit_box r]
    | None => []
    end.
Proof. apply filter_rects_cap_after_add. simpl. lia. Defined.

Lemma paddleocr_det_outcomes_witness :
  paddleocr_det cv_pixel_by_255 cv_no_contours cv_rect_of_first_point
    cv_mean_zero roi_null_det_tensor sample_params
  = Raise "Detector tensor has null data()".
Proof.
  apply (paddleocr_det_outcomes cv_pixel_by_255 cv_no_contours
           cv_rect_of_first_point cv_mean_zero roi_null_det_tensor
           sample_params (mkTensor "det_out" [1; 1; 32; 128] None) 32 128);
    try reflexivity; lia.
Defined.

Lemma paddleocr_det_frame_witness :
  exists outs,
    roi_objects roi_after_det = roi_objects roi_with_det_tensor ++ outs
    /\ Forall is_text_region outs
    /\ Z.of_nat (List.length outs)
       <= Z.max 2 (det_max_candidates sample_params)
    /\ roi_tensors roi_after_det = roi_tensors roi_with_det_tensor
    /\ roi_bbox roi_after_det = roi_bbox roi_with_det_tensor
    /\ roi_scaling_bbox roi_after_det
       = if letterbox_fix sample_params
            && negb (Nat.eqb (List.length outs) 0)
         then identity_box else roi_scaling_bbox roi_with_det_tensor.
Proof.
  apply (paddleocr_det_frame cv_pixel_by_255 cv_two_contours
           cv_rect_of_corners cv_mean_zero roi_with_det_tensor roi_after_det
           sample_params).
  vm_compute. reflexivity.
Defined.

(* ------------------------------------------------------------------ *)
(** ** Recognizer: a tensor without classes *)

Lemma build_probs_no_class (nct : bool) (T : nat) (base : list Z) :
  build_probs nct T 0 base = Ok (repeat [] T).
Proof.
  unfold build_probs. cbn [seq mapM].
  generalize 0%nat. induction T as [| T IH]; intros k; [reflexivity |].
  cbn [seq mapM bind repeat]. rewrite IH. reflexivity.
Qed.

Section RecognizerEdge.

Variable exp64 : F64.t -> F64.t.

(** X29.  A recognizer tensor of shape [1, D1, D2] with one empty
    dimension and the other not: each of the [max(D1, D2)] rows is
    empty, and [std::max_element] on an empty row returns [end()],
    which is dereferenced, with or without the softmax. *)
Theorem paddleocr_recognize_no_class (roi : HailoROI) (p : OcrParams)
  (t : HailoTensor) (D1 D2 : Z) (base : list Z) :
  get_tensor_by_name_or_fallback roi (rec_output_name p) = Ok t ->
  tensor_shape t = [1; D1; D2] ->
  tensor_data t = Some base ->
  Z.min D1 D2 = 0 -> 0 < Z.max D1 D2 ->
  paddleocr_recognize exp64 roi p = Fault.
Proof.
  intros Ht Hshape Hdata Hmin Hmax. unfold paddleocr_recognize.
  assert (Hhas : has_tensors roi = true).
  { unfold get_tensor_by_name_or_fallback, has_tensors in *.
    destruct (roi_tensors roi); [simpl in Ht; discriminate | reflexivity]. }
  rewrite Hhas, Ht. cbn [negb bind]. rewrite Hshape, Hdata.
  cbn [Z.eqb negb Pos.eqb]. rewrite Hmin. cbn [Z.to_nat].
  rewrite build_probs_no_class. cbn [bind].
  destruct (Z.to_nat (Z.max D1 D2)) as [| T] eqn:ET; [lia |].
  cbn [repeat].
  destruct (logits_are_softmax p); reflexivity.
Qed.

End RecognizerEdge.

Lemma paddleocr_recognize_no_class_witness :
  paddleocr_recognize (fun x => x) roi_no_classes params_blank_A = Fault.
Proof.
  apply (paddleocr_recognize_no_class (fun x => x) roi_no_classes
           params_blank_A (mkTensor "rec_out" [1; 0; 5] (Some [])) 0 5 []);
    try reflexivity; lia.
Defined.

(* ------------------------------------------------------------------ *)
(** ** crop_text_regions: the fields of a written box *)

(** X30.  The box written for a text region holds four finite
    numbers, each [+0] or positive: no NaN, no infinity and no negative
    number is written, whatever the size of the frame and the box
    found, NaN and infinities included.  The exact sums [xmin + width]
    and [ymin + height] pass 1 by [2^-25] at most. *)
Theorem adjust_box_fields_finite (img_w img_h : Z) (use_letterbox : bool)
  (nb0 b : HailoBBox) :
  valid_box nb0 ->
  adjust_box img_w img_h use_letterbox nb0 = Some b ->
  box_sums_near_unit b.
Proof. apply adjust_box_sums_near_unit. Qed.

Lemma adjust_box_fields_finite_witness : box_sums_near_unit wide_box_adjusted.
Proof.
  apply (adjust_box_fields_finite 640 480 false wide_box wide_box_adjusted).
  - repeat split.
  - vm_compute. reflexivity.
Defined.
